(** * ocr-mobi: the document conversion and packaging pipeline of [src/app.js]

    A shallow embedding of the conversion functions of [src/app.js]
    (base64 helpers, page combiner, resource extractor, reference rewriter,
    math protector, HTML renderer, EPUB packager) and the properties of the
    specification that concern them.

    Conventions.
    - A JavaScript string is a [list ascii]: a sequence of code units,
      restricted here to the code units below 256.  A string literal of
      the source is written [str "..."].
    - [undefined] / a missing field is [None]; JavaScript truthiness of an
      optional string is [truthy]: present and not empty.
    - A [Uint8Array] is a [list byte].
    - A thrown exception is the result [None] of an [option]-valued
      function.
    - Platform built-ins ([btoa], [atob], [String.prototype.replace],
      [Array.prototype.sort], [Map]) are modelled after their standards;
      the libraries the source only calls ([marked], [MathJax]) are
      section variables. *)

From Stdlib Require Import Ascii String.
From Stdlib Require Import List Bool Arith NArith ZArith Lia.
From Stdlib Require Import Permutation Sorted ZifyNat ZifyN.
From Stdlib Require Strings.Byte DecimalString DecimalNat DecimalFacts.
Import ListNotations.

Set Implicit Arguments.

(* ===================================================================== *)
(** ** JavaScript strings                                                 *)
(* ===================================================================== *)

Definition jsstring := list ascii.

Definition str (s : string) : jsstring := list_ascii_of_string s.

(** Characters that cannot be written inside a literal. *)
Definition nl : ascii := "010"%char.
Definition dq : ascii := "034"%char.

(** [!s] is false exactly for a present, non-empty string. *)
Definition truthy (o : option jsstring) : bool :=
  match o with
  | Some (_ :: _) => true
  | _ => false
  end.

(** [a || b] on optional strings. *)
Definition or_else (a b : option jsstring) : option jsstring :=
  if truthy a then a else b.

(** [s || ""]. *)
Definition or_empty (a : option jsstring) : jsstring :=
  match a with
  | Some s => s
  | None => []
  end.

(** [s.startsWith(p)]. *)
Fixpoint starts_with (p s : jsstring) : bool :=
  match p, s with
  | [], _ => true
  | a :: p', b :: s' => Ascii.eqb a b && starts_with p' s'
  | _ :: _, [] => false
  end.

(** [s.includes(p)]. *)
Fixpoint includes (p s : jsstring) : bool :=
  starts_with p s ||
  match s with
  | [] => false
  | _ :: s' => includes p s'
  end.

(** [s.split(c)] for a one-character separator [c]: never empty. *)
Fixpoint split_char (c : ascii) (s : jsstring) : list jsstring :=
  match s with
  | [] => [[]]
  | a :: s' =>
      if Ascii.eqb a c then [] :: split_char c s'
      else match split_char c s' with
           | seg :: segs => (a :: seg) :: segs
           | [] => [[a]]
           end
  end.

(** [arr.join(sep)]. *)
Fixpoint join (sep : jsstring) (l : list jsstring) : jsstring :=
  match l with
  | [] => []
  | [x] => x
  | x :: rest => x ++ sep ++ join sep rest
  end.

(** Number of positions of [s] at which [p] occurs. *)
Fixpoint occurrences (p s : jsstring) : nat :=
  match s with
  | [] => 0
  | _ :: s' => (if starts_with p s then 1 else 0) + occurrences p s'
  end.

(* ===================================================================== *)
(** ** File utilities: base64                                             *)
(* ===================================================================== *)

(** *** [btoa] and [atob]

    The two built-ins of the platform, after RFC 4648 and the
    forgiving-base64 decoder of the WHATWG Infra standard. *)

Definition b64_alphabet : jsstring :=
  str "ABCDEFGHIJKLMNOPQRSTUVWXYZabcdefghijklmnopqrstuvwxyz0123456789+/".

Definition b64_char (n : N) : ascii :=
  nth (N.to_nat n) b64_alphabet "A"%char.

Fixpoint index_in (c : ascii) (l : jsstring) : option N :=
  match l with
  | [] => None
  | a :: l' =>
      if Ascii.eqb a c then Some 0%N
      else option_map N.succ (index_in c l')
  end.

Definition b64_index (c : ascii) : option N := index_in c b64_alphabet.

Local Open Scope N_scope.

(** The sextets of a binary string, three code units at a time. *)
Fixpoint sextets (s : list N) : list N :=
  match s with
  | x :: y :: z :: r =>
      x / 4 :: (x mod 4) * 16 + y / 16 :: (y mod 16) * 4 + z / 64
        :: z mod 64 :: sextets r
  | [x; y] => [x / 4; (x mod 4) * 16 + y / 16; (y mod 16) * 4]
  | [x] => [x / 4; (x mod 4) * 16]
  | [] => []
  end.

Definition padding (n : nat) : jsstring :=
  match Nat.modulo n 3 with
  | 1%nat => str "=="
  | 2%nat => str "="
  | _ => []
  end.

(** [btoa(s)]: every code unit of [s] is below 256 here, so it never
    throws. *)
Definition btoa (s : jsstring) : jsstring :=
  map b64_char (sextets (map N_of_ascii s)) ++ padding (length s).

(** Bytes of a sextet sequence; a final group of two or three sextets
    gives one or two bytes, the bits left over are dropped. *)
Fixpoint octets (l : list N) : list N :=
  match l with
  | a :: b :: c :: d :: r =>
      a * 4 + b / 16 :: (b mod 16) * 16 + c / 4 :: (c mod 4) * 64 + d
        :: octets r
  | [a; b; c] => [a * 4 + b / 16; (b mod 16) * 16 + c / 4]
  | [a; b] => [a * 4 + b / 16]
  | _ => []
  end.

Definition is_ascii_whitespace (c : ascii) : bool :=
  match N_of_ascii c with
  | 9 | 10 | 12 | 13 | 32 => true
  | _ => false
  end.

Definition eq_sign : ascii := "="%char.

(** Remove one or two trailing [=] when the length is a multiple of 4. *)
Definition strip_padding (s : jsstring) : jsstring :=
  if Nat.eqb (Nat.modulo (length s) 4) 0 then
    match rev s with
    | a :: b :: r =>
        if Ascii.eqb a eq_sign then
          if Ascii.eqb b eq_sign then rev r else rev (b :: r)
        else s
    | _ => s
    end
  else s.

Fixpoint all_index (s : jsstring) : option (list N) :=
  match s with
  | [] => Some []
  | c :: s' =>
      match b64_index c, all_index s' with
      | Some n, Some l => Some (n :: l)
      | _, _ => None
      end
  end.

(** [atob(s)]; [None] is the [InvalidCharacterError] exception. *)
Definition atob (s : jsstring) : option jsstring :=
  let data := strip_padding (filter (fun c => negb (is_ascii_whitespace c)) s) in
  if Nat.eqb (Nat.modulo (length data) 4) 1 then None
  else option_map (fun l => map ascii_of_N (octets l)) (all_index data).

Local Close Scope N_scope.

(** *** [fileToBase64] (src/app.js:37) and [base64ToBytes] (src/app.js:42) *)

Definition comma : ascii := ","%char.

(** [new Uint8Array(arrayBuffer).reduce((s, b) => s + String.fromCharCode(b), "")]
    then [btoa]. *)
Definition fileToBase64 (input : list Byte.byte) : jsstring :=
  btoa (fold_left (fun s b => s ++ [ascii_of_byte b]) input []).

(** [base64.includes(",") ? base64.split(",")[1] : base64], then
    [Uint8Array.from(atob(data), c => c.charCodeAt(0))]. *)
Definition base64ToBytes (base64 : jsstring) : option (list Byte.byte) :=
  let data :=
    if includes [comma] base64 then nth 1 (split_char comma base64) []
    else base64 in
  option_map (map byte_of_ascii) (atob data).

(* ===================================================================== *)
(** ** Built-ins of the language                                          *)
(* ===================================================================== *)

Fixpoint jsstring_eqb (a b : jsstring) : bool :=
  match a, b with
  | [], [] => true
  | x :: a', y :: b' => Ascii.eqb x y && jsstring_eqb a' b'
  | _, _ => false
  end.

(** *** [String.prototype.replace] with a string pattern

    Only the first occurrence of the pattern is replaced, and the
    replacement text is expanded by GetSubstitution: [$$] is a dollar sign,
    [$&] the matched text, [$`] the text before the match and [$'] the
    text after it.  A string pattern has no capture groups, so every other
    use of [$] stands for itself. *)

Definition dollar : ascii := "$"%char.

Fixpoint get_substitution (matched before after repl : jsstring) : jsstring :=
  match repl with
  | [] => []
  | c :: r =>
      if Ascii.eqb c dollar then
        match r with
        | [] => [c]
        | d :: r' =>
            if Ascii.eqb d dollar then dollar :: get_substitution matched before after r'
            else if Ascii.eqb d "&"%char then matched ++ get_substitution matched before after r'
            else if Ascii.eqb d "`"%char then before ++ get_substitution matched before after r'
            else if Ascii.eqb d "'"%char then after ++ get_substitution matched before after r'
            else c :: get_substitution matched before after r
        end
      else c :: get_substitution matched before after r
  end.

(** The text before and after the first occurrence of [p] in [s]. *)
Fixpoint find_first (p s : jsstring) : option (jsstring * jsstring) :=
  if starts_with p s then Some ([], skipn (length p) s)
  else
    match s with
    | [] => None
    | c :: s' =>
        match find_first p s' with
        | Some (before, after) => Some (c :: before, after)
        | None => None
        end
    end.

(** [s.replace(p, repl)] for strings [p] and [repl]. *)
Definition replace_string (p repl s : jsstring) : jsstring :=
  match find_first p s with
  | Some (before, after) => before ++ get_substitution p before after repl ++ after
  | None => s
  end.

(** *** [String.prototype.replace] with a global regular expression

    [exec_at prev s] tries the expression at the start of [s], where [prev]
    is the code unit just before it ([None] at the start of the input): it
    gives the captures, the matched text and the rest of the input.  The
    scan looks for the leftmost match, replaces it and goes on after it.
    The expressions of this program never match the empty string, so the
    length of the input is enough fuel. *)

Definition last_unit (matched : jsstring) (prev : option ascii) : option ascii :=
  match rev matched with
  | c :: _ => Some c
  | [] => prev
  end.

Section RegExpReplace.
Variable Cap : Type.
Variable exec_at : option ascii -> jsstring -> option (Cap * jsstring * jsstring).

(** A replacer function without effects. *)
Section Pure.
Variable replacer : jsstring -> Cap -> jsstring.

Fixpoint replace_loop (fuel : nat) (prev : option ascii) (s : jsstring) : jsstring :=
  match fuel with
  | O => s
  | S fuel' =>
      match exec_at prev s with
      | Some (cap, matched, rest) =>
          replacer matched cap ++ replace_loop fuel' (last_unit matched prev) rest
      | None =>
          match s with
          | [] => []
          | c :: s' => c :: replace_loop fuel' (Some c) s'
          end
      end
  end.

Definition replace_regexp (s : jsstring) : jsstring :=
  replace_loop (S (length s)) None s.
End Pure.

(** A replacer function that updates variables of its closure. *)
Section Stateful.
Variable St : Type.
Variable replacer : jsstring -> Cap -> St -> jsstring * St.

Fixpoint replace_loop_st (fuel : nat) (prev : option ascii) (s : jsstring) (st : St)
  : jsstring * St :=
  match fuel with
  | O => (s, st)
  | S fuel' =>
      match exec_at prev s with
      | Some (cap, matched, rest) =>
          let (out, st1) := replacer matched cap st in
          let (tl, st2) := replace_loop_st fuel' (last_unit matched prev) rest st1 in
          (out ++ tl, st2)
      | None =>
          match s with
          | [] => ([], st)
          | c :: s' =>
              let (tl, st1) := replace_loop_st fuel' (Some c) s' st in
              (c :: tl, st1)
          end
      end
  end.

Definition replace_regexp_st (s : jsstring) (st : St) : jsstring * St :=
  replace_loop_st (S (length s)) None s st.
End Stateful.
End RegExpReplace.

(** The expression is a fixed text [p] (as in [/&amp;/g]), the replacement
    a text [r] without [$]. *)
Definition exec_literal (p : jsstring) (_ : option ascii) (s : jsstring)
  : option (unit * jsstring * jsstring) :=
  match p with
  | [] => None
  | _ :: _ => if starts_with p s then Some (tt, p, skipn (length p) s) else None
  end.

Definition replace_all (p r s : jsstring) : jsstring :=
  replace_regexp (exec_literal p) (fun _ _ => r) s.

(** *** [Array.prototype.sort]

    The sort of the language is stable; with a consistent comparator its
    result is the stable insertion of every element, which is what
    [array_sort] computes. *)

Section ArraySort.
Variable A : Type.
Variable cmp : A -> A -> Z.

Fixpoint insert_sorted (x : A) (l : list A) : list A :=
  match l with
  | [] => [x]
  | y :: l' => if (cmp x y <=? 0)%Z then x :: l else y :: insert_sorted x l'
  end.

Definition array_sort (l : list A) : list A := fold_right insert_sorted [] l.
End ArraySort.

(** *** [Map]

    Keys in insertion order; [set] on a key that is present replaces the
    value and keeps the position of the key. *)

Section JsMap.
Variable V : Type.

Definition JsMap := list (jsstring * V).

Fixpoint map_set (k : jsstring) (v : V) (m : JsMap) : JsMap :=
  match m with
  | [] => [(k, v)]
  | (k', v') :: m' =>
      if jsstring_eqb k' k then (k, v) :: m' else (k', v') :: map_set k v m'
  end.

Fixpoint map_get (k : jsstring) (m : JsMap) : option V :=
  match m with
  | [] => None
  | (k', v') :: m' => if jsstring_eqb k' k then Some v' else map_get k m'
  end.
End JsMap.

(** *** White space of the language: [\s] and [trim] *)

Definition is_js_whitespace (c : ascii) : bool :=
  match N_of_ascii c with
  | 9%N | 10%N | 11%N | 12%N | 13%N | 32%N | 160%N => true
  | _ => false
  end.

Fixpoint trim_start (s : jsstring) : jsstring :=
  match s with
  | c :: s' => if is_js_whitespace c then trim_start s' else s
  | [] => []
  end.

Definition trim (s : jsstring) : jsstring :=
  rev (trim_start (rev (trim_start s))).

(* ===================================================================== *)
(** ** Data model: the OCR result                                         *)
(* ===================================================================== *)

Record TableRef := {
  table_id : option jsstring;
  table_content : option jsstring
}.

Record ImageRef := {
  img_id : option jsstring;
  img_name : option jsstring;
  img_image_base64 : option jsstring
}.

Record Page := {
  page_index : Z;
  page_markdown : option jsstring;
  page_tables : option (list TableRef);
  page_images : option (list ImageRef)
}.

Record OcrResult := {
  ocr_pages : option (list Page)
}.

Record Image := {
  image_data : jsstring;
  image_format : jsstring
}.

Definition ImageMap := JsMap Image.

(* ===================================================================== *)
(** ** Conversion functions                                               *)
(* ===================================================================== *)

(** *** [inlineTableContent] (src/app.js:163) *)

Definition table_placeholder (id : jsstring) : jsstring :=
  str "[" ++ id ++ str "](" ++ id ++ str ")".

Definition inline_table (result : jsstring) (table : TableRef) : jsstring :=
  if truthy (table_id table) && truthy (table_content table) then
    replace_string (table_placeholder (or_empty (table_id table)))
                   (or_empty (table_content table)) result
  else result.

Definition inlineTableContent (markdown : jsstring) (tables : option (list TableRef))
  : jsstring :=
  match markdown, tables with
  | [], _ => markdown
  | _, None => markdown
  | _, Some [] => markdown
  | _, Some ts => fold_left inline_table ts markdown
  end.

(** *** [combineMarkdown] (src/app.js:102)

    [sort] works in place on the array of the caller and [map] makes a new
    array: the function gives its result and the state in which it leaves
    its argument. *)

Definition page_separator : jsstring := [nl; nl] ++ str "---" ++ [nl; nl].

Definition by_index (a b : Page) : Z := (page_index a - page_index b)%Z.

Definition page_text (page : Page) : jsstring :=
  inlineTableContent (or_empty (page_markdown page)) (page_tables page).

Definition combineMarkdown (ocrResult : OcrResult) : jsstring * OcrResult :=
  match ocr_pages ocrResult with
  | None => ([], ocrResult)
  | Some [] => ([], ocrResult)
  | Some pages =>
      let sorted := array_sort by_index pages in
      (join page_separator (map page_text sorted), {| ocr_pages := Some sorted |})
  end.

(** *** [extractImages] (src/app.js:115) *)

Definition dot : ascii := "."%char.

Definition register_image (images : ImageMap) (img : ImageRef) : ImageMap :=
  let id := or_else (img_id img) (img_name img) in
  if truthy id && truthy (img_image_base64 img) then
    map_set (or_empty id)
            {| image_data := or_empty (img_image_base64 img);
               image_format := last (split_char dot (or_empty id)) [] |}
            images
  else images.

Definition register_page (images : ImageMap) (page : Page) : ImageMap :=
  match page_images page with
  | Some imgs => fold_left register_image imgs images
  | None => images
  end.

Definition extractImages (ocrResult : OcrResult) : ImageMap :=
  match ocr_pages ocrResult with
  | None => []
  | Some pages => fold_left register_page pages []
  end.

(** *** [processMarkdownImages] (src/app.js:144)

    The global expression of the source matches an exclamation mark, then
    in square brackets a capture [alt] of any code units but the closing
    bracket, then in parentheses a capture [src] of one or more code units
    but the closing parenthesis.  Neither capture can step over its closing
    bracket, so at a given position the match is unique: [alt] runs to the
    first closing bracket and [src], which is not empty, to the first
    closing parenthesis. *)

(** The text before the first [c] of [s] and the text after it. *)
Fixpoint break_at (c : ascii) (s : jsstring) : option (jsstring * jsstring) :=
  match s with
  | [] => None
  | a :: s' =>
      if Ascii.eqb a c then Some ([], s')
      else
        match break_at c s' with
        | Some (before, after) => Some (a :: before, after)
        | None => None
        end
  end.

Definition rbracket : ascii := "]"%char.
Definition lparen : ascii := "("%char.
Definition rparen : ascii := ")"%char.

Definition image_text (alt src : jsstring) : jsstring :=
  str "![" ++ alt ++ str "](" ++ src ++ str ")".

Definition exec_image (_ : option ascii) (s : jsstring)
  : option ((jsstring * jsstring) * jsstring * jsstring) :=
  match s with
  | a :: b :: s1 =>
      if Ascii.eqb a "!"%char && Ascii.eqb b "["%char then
        match break_at rbracket s1 with
        | Some (alt, c :: s3) =>
            if Ascii.eqb c lparen then
              match break_at rparen s3 with
              | Some (d :: src, rest) => Some ((alt, d :: src), image_text alt (d :: src), rest)
              | _ => None
              end
            else None
        | _ => None
        end
      else None
  | _ => None
  end.

Definition rewrite_image (imagePrefix : jsstring) (matched : jsstring)
    (cap : jsstring * jsstring) : jsstring :=
  let (alt, src) := cap in
  if negb (starts_with (str "http") src) && negb (starts_with (str "data:") src)
     && negb (starts_with imagePrefix src)
  then image_text alt (imagePrefix ++ src)
  else matched.

Definition processMarkdownImages (markdown imagePrefix : jsstring) : jsstring :=
  match markdown with
  | [] => []
  | _ => replace_regexp exec_image (rewrite_image imagePrefix) markdown
  end.

(** *** [escapeXML] (src/app.js:251) *)

Definition escapeXML (s : option jsstring) : jsstring :=
  match s with
  | None => []
  | Some [] => []
  | Some s =>
      replace_all (str "'") (str "&apos;")
        (replace_all [dq] (str "&quot;")
           (replace_all (str ">") (str "&gt;")
              (replace_all (str "<") (str "&lt;")
                 (replace_all (str "&") (str "&amp;") s))))
  end.

(* ===================================================================== *)
(** ** Mathematics                                                        *)
(* ===================================================================== *)

(** The math engine: [None] when the global [MathJax] is undefined,
    otherwise the function that gives the [outerHTML] of the [svg] element
    of [MathJax.tex2svg(latex, {display})], or throws ([None]). *)
Definition MathEngine := option (jsstring -> bool -> option jsstring).

Definition math_source (tex : jsstring) (display : bool) : jsstring :=
  if display then str "$$" ++ tex ++ str "$$" else str "$" ++ tex ++ str "$".

Definition q (s : jsstring) : jsstring := dq :: s ++ [dq].

Definition math_wrapper (svg : jsstring) (display : bool) : jsstring :=
  if display
  then str "<div class=" ++ q (str "math-display") ++ str ">" ++ svg ++ str "</div>"
  else str "<span class=" ++ q (str "math-inline") ++ str ">" ++ svg ++ str "</span>".

(** Display math: two dollar signs, the shortest text of at least one code
    unit that is followed by two dollar signs, and these. *)
Definition exec_display (_ : option ascii) (s : jsstring)
  : option (jsstring * jsstring * jsstring) :=
  match s with
  | a :: b :: c :: body =>
      if Ascii.eqb a dollar && Ascii.eqb b dollar then
        match find_first (str "$$") body with
        | Some (before, after) =>
            Some (c :: before, str "$$" ++ c :: before ++ str "$$", after)
        | None => None
        end
      else None
  | _ => None
  end.

(** The longest run of code units that are neither a dollar sign nor a
    line feed. *)
Fixpoint math_run (s : jsstring) : jsstring * jsstring :=
  match s with
  | c :: s' =>
      if Ascii.eqb c dollar || Ascii.eqb c nl then ([], s)
      else let (run, rest) := math_run s' in (c :: run, rest)
  | [] => ([], [])
  end.

(** Inline math: after a code unit accepted by [behind], or at the start of
    the input, a dollar sign, a run that is not empty, a dollar sign. *)
Definition exec_inline (behind : ascii -> bool) (prev : option ascii) (s : jsstring)
  : option (jsstring * jsstring * jsstring) :=
  let anchored := match prev with None => true | Some c => behind c end in
  match s with
  | a :: body =>
      if anchored && Ascii.eqb a dollar then
        match math_run body with
        | (c :: run, d :: rest) =>
            if Ascii.eqb d dollar
            then Some (c :: run, str "$" ++ c :: run ++ str "$", rest)
            else None
        | _ => None
        end
      else None
  | [] => None
  end.

(* ===================================================================== *)
(** ** Documents                                                          *)
(* ===================================================================== *)

Definition unlines (l : list jsstring) : jsstring := join [nl] l.

Definition html_document (escapedTitle htmlContent : jsstring) : jsstring :=
  unlines [
    str "<!DOCTYPE html>";
    str "<html lang=" ++ q (str "en") ++ str ">";
    str "<head>";
    str "  <meta charset=" ++ q (str "UTF-8") ++ str ">";
    str "  <meta name=" ++ q (str "viewport") ++ str " content=" ++ q (str "width=device-width, initial-scale=1.0") ++ str ">";
    str "  <title>" ++ escapedTitle ++ str "</title>";
    str "  <style>";
    str "    body {";
    str "      font-family: -apple-system, BlinkMacSystemFont, " ++ q (str "Segoe UI") ++ str ", Roboto, sans-serif;";
    str "      max-width: 800px;";
    str "      margin: 0 auto;";
    str "      padding: 2rem;";
    str "      line-height: 1.6;";
    str "    }";
    str "    img, svg { max-width: 100%; height: auto; }";
    str "    pre { background: #f5f5f5; padding: 1rem; overflow-x: auto; }";
    str "    code { background: #f5f5f5; padding: 0.2em 0.4em; }";
    str "    table { border-collapse: collapse; width: 100%; margin: 1rem 0; }";
    str "    th, td { border: 1px solid #ddd; padding: 0.5rem; text-align: left; }";
    str "    th { background: #f5f5f5; }";
    str "    hr { margin: 2rem 0; border: none; border-top: 1px solid #ddd; }";
    str "    blockquote { border-left: 4px solid #ddd; margin: 1rem 0; padding-left: 1rem; color: #666; }";
    str "    .math-display { text-align: center; margin: 1rem 0; }";
    str "    .math-inline { vertical-align: middle; }";
    str "    .math-inline svg, .math-display svg { vertical-align: middle; }";
    str "  </style>";
    str "</head>";
    str "<body>";
    htmlContent;
    str "</body>";
    str "</html>"
  ].

Definition container_xml : jsstring :=
  unlines [
    str "<?xml version=" ++ q (str "1.0") ++ str " encoding=" ++ q (str "UTF-8") ++ str "?>";
    str "<container version=" ++ q (str "1.0") ++ str " xmlns=" ++ q (str "urn:oasis:names:tc:opendocument:xmlns:container") ++ str ">";
    str "  <rootfiles>";
    str "    <rootfile full-path=" ++ q (str "OEBPS/content.opf") ++ str " media-type=" ++ q (str "application/oebps-package+xml") ++ str "/>";
    str "  </rootfiles>";
    str "</container>"
  ].

Definition content_opf (uuid escapedTitle timestamp : jsstring) (imageManifest : list jsstring) : jsstring :=
  unlines [
    str "<?xml version=" ++ q (str "1.0") ++ str " encoding=" ++ q (str "UTF-8") ++ str "?>";
    str "<package xmlns=" ++ q (str "http://www.idpf.org/2007/opf") ++ str " version=" ++ q (str "3.0") ++ str " unique-identifier=" ++ q (str "BookId") ++ str ">";
    str "  <metadata xmlns:dc=" ++ q (str "http://purl.org/dc/elements/1.1/") ++ str ">";
    str "    <dc:identifier id=" ++ q (str "BookId") ++ str ">urn:uuid:" ++ uuid ++ str "</dc:identifier>";
    str "    <dc:title>" ++ escapedTitle ++ str "</dc:title>";
    str "    <dc:language>en</dc:language>";
    str "    <dc:creator>OCR EPUB</dc:creator>";
    str "    <meta property=" ++ q (str "dcterms:modified") ++ str ">" ++ timestamp ++ str "</meta>";
    str "  </metadata>";
    str "  <manifest>";
    str "    <item id=" ++ q (str "content") ++ str " href=" ++ q (str "content.xhtml") ++ str " media-type=" ++ q (str "application/xhtml+xml") ++ str "/>";
    str "    <item id=" ++ q (str "nav") ++ str " href=" ++ q (str "nav.xhtml") ++ str " media-type=" ++ q (str "application/xhtml+xml") ++ str " properties=" ++ q (str "nav") ++ str "/>";
    unlines imageManifest;
    str "  </manifest>";
    str "  <spine>";
    str "    <itemref idref=" ++ q (str "content") ++ str "/>";
    str "  </spine>";
    str "</package>"
  ].

Definition nav_xhtml (escapedTitle : jsstring) : jsstring :=
  unlines [
    str "<?xml version=" ++ q (str "1.0") ++ str " encoding=" ++ q (str "UTF-8") ++ str "?>";
    str "<!DOCTYPE html>";
    str "<html xmlns=" ++ q (str "http://www.w3.org/1999/xhtml") ++ str " xmlns:epub=" ++ q (str "http://www.idpf.org/2007/ops") ++ str ">";
    str "<head>";
    str "  <title>Navigation</title>";
    str "</head>";
    str "<body>";
    str "  <nav epub:type=" ++ q (str "toc") ++ str ">";
    str "    <h1>Contents</h1>";
    str "    <ol>";
    str "      <li><a href=" ++ q (str "content.xhtml") ++ str ">" ++ escapedTitle ++ str "</a></li>";
    str "    </ol>";
    str "  </nav>";
    str "</body>";
    str "</html>"
  ].

Definition content_xhtml (escapedTitle htmlContent : jsstring) : jsstring :=
  unlines [
    str "<?xml version=" ++ q (str "1.0") ++ str " encoding=" ++ q (str "UTF-8") ++ str "?>";
    str "<!DOCTYPE html>";
    str "<html xmlns=" ++ q (str "http://www.w3.org/1999/xhtml") ++ str ">";
    str "<head>";
    str "  <title>" ++ escapedTitle ++ str "</title>";
    str "  <style>";
    str "    body { font-family: serif; margin: 1em; line-height: 1.6; }";
    str "    img, svg { max-width: 100%; height: auto; }";
    str "    pre { background: #f5f5f5; padding: 1em; overflow-x: auto; white-space: pre-wrap; }";
    str "    code { background: #f5f5f5; padding: 0.2em; }";
    str "    table { border-collapse: collapse; width: 100%; }";
    str "    th, td { border: 1px solid #999; padding: 0.5em; }";
    str "    .math-display { text-align: center; margin: 1em 0; }";
    str "    .math-inline { vertical-align: middle; }";
    str "    .math-inline svg, .math-display svg { vertical-align: middle; }";
    str "  </style>";
    str "</head>";
    str "<body>";
    htmlContent;
    str "</body>";
    str "</html>"
  ].

Definition manifest_item (safeId id mimeType : jsstring) : jsstring :=
  str "    <item id=" ++ q (safeId) ++ str " href=" ++ q (str "images/" ++ id) ++ str " media-type=" ++ q (mimeType) ++ str "/>".

(* ===================================================================== *)
(** ** Archives: the part of JSZip that the program uses                  *)
(* ===================================================================== *)

Inductive Compression := STORE | DEFLATE.

Inductive ZipData :=
| Text (s : jsstring)
| Binary (b : list Byte.byte)
| Folder.

(** An entry of the archive object: its name, its data and the compression
    that was asked for it, [None] when none was.  (For a folder and for
    empty data JSZip notes STORE by itself; [archive_entries] below writes
    such an entry as stored in any case.) *)
Record ZipObject := {
  zip_name : jsstring;
  zip_data : ZipData;
  zip_compression : option Compression
}.

(** The [files] of an archive object, in the order of their insertion (no
    name of this program is an array index). *)
Definition JSZip := list ZipObject.

Definition slash : ascii := "/"%char.

Fixpoint has_file (name : jsstring) (files : JSZip) : bool :=
  match files with
  | [] => false
  | o :: files' => jsstring_eqb (zip_name o) name || has_file name files'
  end.

(** [this.files[name] = object]. *)
Fixpoint files_set (o : ZipObject) (files : JSZip) : JSZip :=
  match files with
  | [] => [o]
  | o' :: files' =>
      if jsstring_eqb (zip_name o') (zip_name o) then o :: files'
      else o' :: files_set o files'
  end.

(** The path up to its last slash, a final slash apart. *)
Definition parent_folder (path : jsstring) : jsstring :=
  let p := match rev path with
           | c :: r => if Ascii.eqb c slash then r else c :: r
           | [] => []
           end in
  match break_at slash p with
  | Some (_, before) => rev before
  | None => []
  end.

(** [forceTrailingSlash]: the name of a folder ends with a slash. *)
Definition force_trailing_slash (path : jsstring) : jsstring :=
  match rev path with
  | c :: _ => if Ascii.eqb c slash then path else path ++ [slash]
  | [] => path ++ [slash]
  end.

(** Adding an entry first adds the folders of its path that are missing. *)
Fixpoint file_add (fuel : nat) (name : jsstring) (data : ZipData)
    (compression : option Compression) (files : JSZip) : JSZip :=
  let files1 :=
    match fuel with
    | O => files
    | S fuel' =>
        match parent_folder name with
        | [] => files
        | parent =>
            let folder := force_trailing_slash parent in
            if has_file folder files then files
            else file_add fuel' folder Folder None files
        end
    end in
  files_set {| zip_name := name; zip_data := data; zip_compression := compression |} files1.

(** [zip.file(name, data, { compression })]. *)
Definition zip_file (name : jsstring) (data : ZipData) (compression : option Compression)
    (zip : JSZip) : JSZip :=
  file_add (length name) name data compression zip.

(** An entry of the archive that [generateAsync] writes. *)
Record ArchiveEntry := {
  entry_name : jsstring;
  entry_method : Compression;
  entry_content : ZipData
}.

(** [zip.generateAsync({ type })]: the entries are written in the order of
    [files]; an entry without a compression of its own is stored, as no
    compression is asked for the archive. *)
Definition archive_entries (zip : JSZip) : list ArchiveEntry :=
  map (fun o =>
         {| entry_name := zip_name o;
            entry_method := match zip_compression o with
                            | Some c => c
                            | None => STORE
                            end;
            entry_content := zip_data o |}) zip.

(* ===================================================================== *)
(** ** EPUB generation: [generateEPUB] (src/app.js:271 and 988)           *)
(* ===================================================================== *)

Definition image_mime (format : jsstring) : jsstring :=
  if jsstring_eqb format (str "png") then str "image/png"
  else if jsstring_eqb format (str "gif") then str "image/gif"
  else if jsstring_eqb format (str "webp") then str "image/webp"
  else str "image/jpeg".

Definition is_alnum (c : ascii) : bool :=
  let n := N_of_ascii c in
  ((48 <=? n) && (n <=? 57) || (65 <=? n) && (n <=? 90) || (97 <=? n) && (n <=? 122))%N.

(** [id.replace(/[^a-z0-9]/gi, "_")] *)
Definition safe_id (id : jsstring) : jsstring :=
  map (fun c => if is_alnum c then c else "_"%char) id.

Definition is_digit (c : ascii) : bool :=
  let n := N_of_ascii c in ((48 <=? n) && (n <=? 57))%N.

(** [iso.replace(/\.\d{3}Z$/, "Z")] *)
Definition strip_millis (iso : jsstring) : jsstring :=
  match rev iso with
  | z :: d3 :: d2 :: d1 :: p :: r =>
      if Ascii.eqb z "Z"%char && is_digit d3 && is_digit d2 && is_digit d1
         && Ascii.eqb p dot
      then rev r ++ str "Z"
      else iso
  | _ => iso
  end.

(** Step 8: [base64ToBytes] may throw, which rejects the promise. *)
Definition add_image (zip : option JSZip) (entry : jsstring * Image) : option JSZip :=
  match zip with
  | None => None
  | Some z =>
      match base64ToBytes (image_data (snd entry)) with
      | Some bytes => Some (zip_file (str "OEBPS/images/" ++ fst entry) (Binary bytes) None z)
      | None => None
      end
  end.

(** The default value of the parameter [title]. *)
Definition document_title (title : option jsstring) : option jsstring :=
  match title with None => Some (str "Document") | t => t end.

Section Epub.
(** How the content document is rendered, which is where the two variants
    of the source differ; [crypto.randomUUID()] and
    [new Date().toISOString()]. *)
Variable render : jsstring -> jsstring.
Variable randomUUID : jsstring.
Variable toISOString : jsstring.

Definition epub_package (markdown : jsstring) (images : ImageMap)
    (title : option jsstring) : option JSZip :=
  let zip := [] in
  let zip := zip_file (str "mimetype") (Text (str "application/epub+zip")) (Some STORE) zip in
  let zip := zip_file (str "META-INF/container.xml") (Text container_xml) None zip in
  let uuid := randomUUID in
  let timestamp := strip_millis toISOString in
  let escapedTitle := escapeXML (document_title title) in
  let imageManifest :=
    map (fun e : jsstring * Image =>
           manifest_item (safe_id (fst e)) (fst e) (image_mime (image_format (snd e))))
        images in
  let zip := zip_file (str "OEBPS/content.opf")
               (Text (content_opf uuid escapedTitle timestamp imageManifest)) None zip in
  let zip := zip_file (str "OEBPS/nav.xhtml") (Text (nav_xhtml escapedTitle)) None zip in
  let processedMarkdown := processMarkdownImages markdown (str "images/") in
  let htmlContent := render processedMarkdown in
  let zip := zip_file (str "OEBPS/content.xhtml")
               (Text (content_xhtml escapedTitle htmlContent)) None zip in
  fold_left add_image images (Some zip).
End Epub.

(* ===================================================================== *)
(** ** The first variant of the renderer (src/app.js:175-371): math is
    rendered before the markdown renderer runs                            *)
(* ===================================================================== *)

Module SvgFirst.
Section Pipeline.
Variable marked_parse : jsstring -> jsstring.
Variable MathJax : MathEngine.

(** [latexToSvg] (src/app.js:178) *)
Definition latexToSvg (tex : jsstring) (display : bool) : jsstring :=
  match MathJax with
  | None => math_source tex display
  | Some tex2svg =>
      let decoded :=
        replace_all (str "&gt;") (str ">")
          (replace_all (str "&lt;") (str "<")
             (replace_all (str "&amp;") (str "&") (trim tex))) in
      match tex2svg decoded display with
      | Some svg => math_wrapper svg display
      | None => math_source tex display
      end
  end.

(** The class of the lookbehind: white space or one of [( [ - :]. *)
Definition behind_inline (c : ascii) : bool :=
  is_js_whitespace c || Ascii.eqb c "("%char || Ascii.eqb c "["%char
  || Ascii.eqb c "-"%char || Ascii.eqb c ":"%char.

(** [markdownToHtml] (src/app.js:194) *)
Definition markdownToHtml (markdown : jsstring) : jsstring :=
  match markdown with
  | [] => []
  | _ =>
      let withSvg :=
        replace_regexp (exec_inline behind_inline) (fun _ tex => latexToSvg tex false)
          (replace_regexp exec_display (fun _ tex => latexToSvg tex true) markdown) in
      marked_parse withSvg
  end.

(** [generateHTML] (src/app.js:209) *)
Definition generateHTML (markdown : jsstring) (title : option jsstring) : jsstring :=
  html_document (escapeXML (document_title title)) (markdownToHtml markdown).

(** [generateEPUB] (src/app.js:271) *)
Definition generateEPUB (randomUUID toISOString : jsstring) (markdown : jsstring)
    (images : ImageMap) (title : option jsstring) : option JSZip :=
  epub_package markdownToHtml randomUUID toISOString markdown images title.
End Pipeline.
End SvgFirst.

(* ===================================================================== *)
(** ** The second variant of the renderer (src/app.js:789-1091): math is
    protected by placeholders, the markdown is rendered, the math is
    restored                                                              *)
(* ===================================================================== *)

Record LatexBlock := {
  placeholder : jsstring;
  latex : jsstring;
  display : bool
}.

Definition decimal (n : nat) : jsstring :=
  str (DecimalString.NilZero.string_of_uint (Nat.to_uint n)).

Module Protected.
Section Pipeline.
Variable marked_parse : jsstring -> jsstring.
Variable MathJax : MathEngine.

(** [decodeHtmlEntities] (src/app.js:794) *)
Definition decodeHtmlEntities (s : jsstring) : jsstring :=
  replace_all (str "&quot;") [dq]
    (replace_all (str "&gt;") (str ">")
       (replace_all (str "&lt;") (str "<")
          (replace_all (str "&amp;") (str "&") s))).

(** The replacer functions of [extractLatexBlocks]: they push a block and
    count. *)
Definition protect (kind : jsstring) (is_display : bool) (_ : jsstring) (tex : jsstring)
    (st : list LatexBlock * nat) : jsstring * (list LatexBlock * nat) :=
  let (blocks, counter) := st in
  let token := str "%%LATEX_" ++ kind ++ str "_" ++ decimal counter ++ str "%%" in
  (token,
   (blocks ++ [{| placeholder := token; latex := trim tex; display := is_display |}],
    S counter)).

(** [extractLatexBlocks] (src/app.js:818) *)
Definition extractLatexBlocks (markdown : jsstring) : jsstring * list LatexBlock :=
  let (markdown1, st1) :=
    replace_regexp_st exec_display (protect (str "DISPLAY") true) markdown ([], O) in
  let (markdown2, st2) :=
    replace_regexp_st (exec_inline is_js_whitespace) (protect (str "INLINE") false)
      markdown1 st1 in
  (markdown2, fst st2).

(** [convertLatexToSvg] (src/app.js:874), for an engine that is defined. *)
Definition convertLatexToSvg (tex2svg : jsstring -> bool -> option jsstring)
    (latex : jsstring) (display : bool) : option jsstring :=
  tex2svg latex display.

(** One turn of the loop of [restoreLatexAsSvg]. *)
Definition restore_block (tex2svg : jsstring -> bool -> option jsstring)
    (html : jsstring) (b : LatexBlock) : jsstring :=
  match convertLatexToSvg tex2svg (decodeHtmlEntities (latex b)) (display b) with
  | Some svg => replace_string (placeholder b) (math_wrapper svg (display b)) html
  | None => replace_string (placeholder b) (math_source (latex b) (display b)) html
  end.

(** [restoreLatexAsSvg] (src/app.js:848) *)
Definition restoreLatexAsSvg (html : jsstring) (blocks : list LatexBlock) : jsstring :=
  match MathJax with
  | None => html
  | Some tex2svg => fold_left (restore_block tex2svg) blocks html
  end.

(** Steps 1 to 3 of [generateHTML] (src/app.js:918), which [generateEPUB]
    repeats (src/app.js:1058). *)
Definition renderContent (markdown : jsstring) : jsstring :=
  let (safeMarkdown, blocks) := extractLatexBlocks markdown in
  restoreLatexAsSvg (marked_parse safeMarkdown) blocks.

(** [generateHTML] (src/app.js:918) *)
Definition generateHTML (markdown : jsstring) (title : option jsstring) : jsstring :=
  html_document (escapeXML (document_title title)) (renderContent markdown).

(** [generateEPUB] (src/app.js:988) *)
Definition generateEPUB (randomUUID toISOString : jsstring) (markdown : jsstring)
    (images : ImageMap) (title : option jsstring) : option JSZip :=
  epub_package renderContent randomUUID toISOString markdown images title.
End Pipeline.
End Protected.


(* ===================================================================== *)
(** ** File utilities: the type of a file (src/app.js:16-48, 597-662)     *)
(* ===================================================================== *)

(** [toLowerCase] on the code units below 256: the letters A to Z and the
    capital letters of Latin-1 (U+00C0 to U+00DE, the sign U+00D7 apart)
    move up by 32. *)
Definition to_lower_unit (c : ascii) : ascii :=
  let n := N_of_ascii c in
  if ((65 <=? n) && (n <=? 90)
      || (192 <=? n) && (n <=? 222) && negb (n =? 215))%N
  then ascii_of_N (n + 32)
  else c.

Definition toLowerCase (s : jsstring) : jsstring := map to_lower_unit s.

(** A [File], or any object with a [name]. *)
Record File := {
  file_name : jsstring
}.

(** [getExt] (src/app.js:35): [file.name.split(".").pop().toLowerCase()]. *)
Definition getExt (file : File) : jsstring :=
  toLowerCase (last (split_char dot (file_name file)) []).

(** [IMAGE_EXTS] (src/app.js:33), [IMAGE_EXTENSIONS] (src/app.js:597). *)
Definition IMAGE_EXTS : list jsstring :=
  [str "png"; str "jpg"; str "jpeg"; str "gif"; str "webp"; str "tiff";
   str "bmp"; str "avif"; str "heic"; str "heif"].

(** [MIME_TYPES] (src/app.js:16), [mimeMap] (src/app.js:643): the own
    properties of the object literal. *)
Definition MIME_TYPES : JsMap jsstring :=
  [(str "pdf", str "application/pdf");
   (str "docx", str "application/vnd.openxmlformats-officedocument.wordprocessingml.document");
   (str "pptx", str "application/vnd.openxmlformats-officedocument.presentationml.presentation");
   (str "txt", str "text/plain");
   (str "epub", str "application/epub+zip");
   (str "png", str "image/png");
   (str "jpg", str "image/jpeg");
   (str "jpeg", str "image/jpeg");
   (str "gif", str "image/gif");
   (str "webp", str "image/webp");
   (str "tiff", str "image/tiff");
   (str "bmp", str "image/bmp");
   (str "avif", str "image/avif");
   (str "heic", str "image/heic");
   (str "heif", str "image/heif")].

(** The value of a property read: a string, or a member of
    [Object.prototype], which is a function or an object and so is truthy
    and is not a string. *)
Inductive JsValue :=
| VString (s : jsstring)
| VPrototype (key : jsstring).

(** The names of the properties of [Object.prototype], which an object
    literal inherits. *)
Definition object_prototype_keys : list jsstring :=
  [str "constructor"; str "__defineGetter__"; str "__defineSetter__";
   str "hasOwnProperty"; str "__lookupGetter__"; str "__lookupSetter__";
   str "isPrototypeOf"; str "propertyIsEnumerable"; str "toString";
   str "valueOf"; str "__proto__"; str "toLocaleString"].

(** [o[key]] for an object literal [o] whose own properties are strings:
    [None] is [undefined]. *)
Definition object_get (o : JsMap jsstring) (key : jsstring) : option JsValue :=
  match map_get key o with
  | Some v => Some (VString v)
  | None =>
      if existsb (jsstring_eqb key) object_prototype_keys
      then Some (VPrototype key)
      else None
  end.

(** [getDocumentType] (src/app.js:47, 632) *)
Definition getDocumentType (file : File) : jsstring :=
  if existsb (jsstring_eqb (getExt file)) IMAGE_EXTS
  then str "image_url"
  else str "document_url".

(** [getMimeType] (src/app.js:48, 642):
    [MIME_TYPES[getExt(file)] || "application/octet-stream"]. *)
Definition getMimeType (file : File) : JsValue :=
  match object_get MIME_TYPES (getExt file) with
  | Some (VString []) => VString (str "application/octet-stream")
  | Some v => v
  | None => VString (str "application/octet-stream")
  end.

(** The data URL of [performOCR] (src/app.js:64, 678), for a MIME type that
    is a string: [`data:${mimeType};base64,${base64Data}`]. *)
Definition dataUrl (mimeType base64Data : jsstring) : jsstring :=
  str "data:" ++ mimeType ++ str ";base64," ++ base64Data.

(* ===================================================================== *)
(** ** Math in rendered HTML (src/app.js:802-810, 880-910)                *)
(* ===================================================================== *)

(** [looksLikeMath] (src/app.js:807): a code unit of the first class
    anywhere, or a letter or parenthesis in the trimmed text. *)
Definition is_math_mark (c : ascii) : bool :=
  Ascii.eqb c "\"%char || Ascii.eqb c "^"%char || Ascii.eqb c "_"%char
  || Ascii.eqb c "{"%char || Ascii.eqb c "}"%char.

Definition is_letter_or_paren (c : ascii) : bool :=
  let n := N_of_ascii c in
  ((97 <=? n) && (n <=? 122) || (65 <=? n) && (n <=? 90))%N
  || Ascii.eqb c "("%char || Ascii.eqb c ")"%char.

Definition looksLikeMath (s : jsstring) : bool :=
  existsb is_math_mark s || existsb is_letter_or_paren (trim s).

(** Display math of [processLatexInHtml]: two dollar signs, one or more
    code units that are not a dollar sign, two dollar signs. *)
Definition exec_display_html (_ : option ascii) (s : jsstring)
  : option (jsstring * jsstring * jsstring) :=
  match s with
  | a :: b :: body =>
      if Ascii.eqb a dollar && Ascii.eqb b dollar then
        match break_at dollar body with
        | Some (c :: run, d :: rest) =>
            if Ascii.eqb d dollar
            then Some (c :: run, str "$$" ++ c :: run ++ str "$$", rest)
            else None
        | _ => None
        end
      else None
  | _ => None
  end.

Section LatexInHtml.
Variable MathJax : MathEngine.

(** The two replacer functions: the match itself when the conversion
    throws, and for inline math when the text does not look like math. *)
Definition render_display (tex2svg : jsstring -> bool -> option jsstring)
    (matched latex : jsstring) : jsstring :=
  match Protected.convertLatexToSvg tex2svg (Protected.decodeHtmlEntities (trim latex)) true with
  | Some svg => math_wrapper svg true
  | None => matched
  end.

Definition render_inline (tex2svg : jsstring -> bool -> option jsstring)
    (matched latex : jsstring) : jsstring :=
  if negb (looksLikeMath latex) then matched
  else
    match Protected.convertLatexToSvg tex2svg (Protected.decodeHtmlEntities (trim latex)) false with
    | Some svg => math_wrapper svg false
    | None => matched
    end.

(** [processLatexInHtml] (src/app.js:885) *)
Definition processLatexInHtml (html : jsstring) : jsstring :=
  match html, MathJax with
  | [], _ => html
  | _, None => html
  | _, Some tex2svg =>
      replace_regexp (exec_inline is_js_whitespace) (render_inline tex2svg)
        (replace_regexp exec_display_html (render_display tex2svg) html)
  end.
End LatexInHtml.

(* ===================================================================== *)
(** ** Output generation: [generateOutputZip] (src/app.js:382 and 1103)   *)
(* ===================================================================== *)

(** [name.replace(/\.[^.]+$/, "")]: the last dot and what follows it are
    removed, when something follows it. *)
Definition strip_extension (name : jsstring) : jsstring :=
  match break_at dot (rev name) with
  | Some (_ :: _, base) => rev base
  | _ => name
  end.

(** [originalFileName.replace(/\.[^.]+$/, "") || "Document"] *)
Definition output_title (originalFileName : jsstring) : jsstring :=
  match strip_extension originalFileName with
  | [] => str "Document"
  | title => title
  end.

(** Step 3: [base64ToBytes] may throw, which rejects the promise. *)
Definition add_output_image (zip : option JSZip) (entry : jsstring * Image) : option JSZip :=
  match zip with
  | None => None
  | Some z =>
      match base64ToBytes (image_data (snd entry)) with
      | Some bytes => Some (zip_file (str "images/" ++ fst entry) (Binary bytes) None z)
      | None => None
      end
  end.

Section Output.
(** The renderer of the variant, as for [epub_package]; the bytes that
    [generateAsync({ type: "arraybuffer" })] writes for an archive object. *)
Variable render : jsstring -> jsstring.
Variable randomUUID : jsstring.
Variable toISOString : jsstring.
Variable archive_bytes : JSZip -> list Byte.byte.

(** The archive that [generateOutputZip] writes, [None] when it throws, and
    the state in which [combineMarkdown] leaves the OCR result. *)
Definition generateOutputZip (ocrResult : OcrResult) (originalFileName : jsstring)
  : option (list ArchiveEntry) * OcrResult :=
  let zip := [] in
  let title := output_title originalFileName in
  let (rawMarkdown, ocrResult) := combineMarkdown ocrResult in
  let images := extractImages ocrResult in
  let processedMarkdown := processMarkdownImages rawMarkdown (str "images/") in
  let zip := zip_file (str "content.md") (Text processedMarkdown) None zip in
  let htmlDoc := html_document (escapeXML (Some title)) (render processedMarkdown) in
  let zip := zip_file (str "content.html") (Text htmlDoc) None zip in
  match fold_left add_output_image images (Some zip) with
  | None => (None, ocrResult)
  | Some zip =>
      match epub_package render randomUUID toISOString rawMarkdown images (Some title) with
      | None => (None, ocrResult)
      | Some epubZip =>
          let zip := zip_file (str "content.epub") (Binary (archive_bytes epubZip)) None zip in
          (Some (archive_entries zip), ocrResult)
      end
  end.
End Output.

(* ===================================================================== *)
(** ** Vocabulary of the statements                                       *)
(* ===================================================================== *)

(** Every number of [l] is below [k]. *)
Definition below (k : N) (l : list N) : Prop := Forall (fun n => (n < k)%N) l.

(** The sixty-four sextets, for the facts that are checked by evaluation. *)
Definition all_sextets : list N := map N.of_nat (seq 0 64).

(** A code unit that is not white space, not [=] and not a comma. *)
Definition clean_char (c : ascii) : bool :=
  negb (is_ascii_whitespace c) && negb (Ascii.eqb c eq_sign) && negb (Ascii.eqb c comma).

(** The text between the first comma of [s] and the next one, or the end
    of [s]; the whole of [s] when it has no comma. *)
Definition payload (s : jsstring) : jsstring :=
  match break_at comma s with
  | None => s
  | Some (_, after) =>
      match break_at comma after with
      | Some (segment, _) => segment
      | None => after
      end
  end.

Definition index_le (a b : Page) : Prop := (page_index a <= page_index b)%Z.

Definition has_index (k : Z) (p : Page) : bool := (page_index p =? k)%Z.

(** A page with text only. *)
Definition page (i : Z) (text : string) : Page :=
  {| page_index := i; page_markdown := Some (str text);
     page_tables := None; page_images := None |}.

Definition pages_of (r : OcrResult) : list Page :=
  match ocr_pages r with
  | Some pages => pages
  | None => []
  end.

(** [windows first texts]: each text with the separators that join it to
    its neighbours in the combined markdown, and the number of these
    separators: none before the first text ([first] says that nothing comes
    before), none after the last one. *)
Fixpoint windows (first : bool) (texts : list jsstring) : list (nat * jsstring) :=
  match texts with
  | [] => []
  | t :: rest =>
      let before := if first then [] else page_separator in
      match rest with
      | [] => [((if first then 0 else 1), before ++ t)]
      | _ :: _ =>
          ((if first then 1 else 2), before ++ t ++ page_separator) :: windows false rest
      end
  end.

(** The windows of the page texts of an OCR result, in the order of the
    combined markdown. *)
Definition page_windows (r : OcrResult) : list (nat * jsstring) :=
  windows true (map page_text (array_sort by_index (pages_of r))).

(** [joins_only w]: the separator occurs in the window only as the
    separators that join the page to its neighbours; it occurs neither
    inside the page text nor across one of its edges. *)
Definition joins_only (w : nat * jsstring) : Prop :=
  occurrences page_separator (snd w) = fst w.

(** [first_at p before]: when [p] comes after [before], no occurrence of
    [p] starts earlier, inside [before]. *)
Definition first_at (p before : jsstring) : Prop :=
  includes p (before ++ removelast p) = false.

(** A table with both fields. *)
Definition table (id content : string) : TableRef :=
  {| table_id := Some (str id); table_content := Some (str content) |}.

Definition images_of (p : Page) : list ImageRef :=
  match page_images p with
  | Some imgs => imgs
  | None => []
  end.

(** The key under which an image is registered: [img.id || img.name]. *)
Definition image_key (img : ImageRef) : option jsstring :=
  or_else (img_id img) (img_name img).

(** A page that has images only. *)
Definition image_page (imgs : list ImageRef) : Page :=
  {| page_index := 0; page_markdown := None; page_tables := None;
     page_images := Some imgs |}.

(** [registered l k v]: the entry [v] under the key [k] comes, whole, from
    an image of [l] that has a key and data. *)
Definition registered (l : list ImageRef) (k : jsstring) (v : Image) : Prop :=
  exists img data,
    In img l /\ image_key img = Some k /\ k <> []
    /\ img_image_base64 img = Some data /\ data <> []
    /\ v = {| image_data := data; image_format := last (split_char dot k) [] |}.

(** An image without a key, or without data. *)
Definition incomplete (img : ImageRef) : Prop :=
  truthy (image_key img) = false \/ truthy (img_image_base64 img) = false.

(** After the closing bracket of [alt]: a parenthesis, a [src] that is not
    empty, and its closing parenthesis. *)
Definition closes (s : jsstring) : bool :=
  match s with
  | c :: s3 =>
      Ascii.eqb c lparen
      && match break_at rparen s3 with
         | Some (_ :: _, _) => true
         | _ => false
         end
  | [] => false
  end.

(** The first entry that an EPUB archive must have. *)
Definition mimetype_entry : ArchiveEntry :=
  {| entry_name := str "mimetype";
     entry_method := STORE;
     entry_content := Text (str "application/epub+zip") |}.

(** [mimetype_first entries]: the first entry is [mimetype_entry], and no
    other entry has its name. *)
Definition mimetype_first (entries : list ArchiveEntry) : Prop :=
  exists rest,
    entries = mimetype_entry :: rest
    /\ Forall (fun e => entry_name e <> str "mimetype") rest.

Definition mimetype_object : ZipObject :=
  {| zip_name := str "mimetype";
     zip_data := Text (str "application/epub+zip");
     zip_compression := Some STORE |}.

(** The invariant of the archive object once [mimetype] is in it. *)
Definition mimetype_kept (zip : JSZip) : Prop :=
  exists rest,
    zip = mimetype_object :: rest
    /\ Forall (fun o => zip_name o <> str "mimetype") rest.

(** Stand-ins for the libraries, for the evaluations: what [marked.parse]
    makes of one line of plain text, an engine that throws on every
    expression, and one image. *)
Definition marked_paragraph (s : jsstring) : jsstring :=
  str "<p>" ++ s ++ str "</p>" ++ [nl].

Definition throwing_engine : MathEngine := Some (fun _ _ => None).

Definition sample_images : ImageMap :=
  [(str "img-0.jpeg", {| image_data := str "QQ=="; image_format := str "jpeg" |})].

Definition sample_epub : JSZip :=
  match Protected.generateEPUB marked_paragraph None (str "0000") (str "2024-01-01T00:00:00.000Z")
          (str "![a](img-0.jpeg)") sample_images None with
  | Some zip => zip
  | None => []
  end.

(** The same for the first variant of the source, with inline math and an
    engine that throws. *)
Definition sample_epub_first : JSZip :=
  match SvgFirst.generateEPUB marked_paragraph throwing_engine (str "0000")
          (str "2024-01-01T00:00:00.000Z") (str "![a](img-0.jpeg) and $x$") sample_images None with
  | Some zip => zip
  | None => []
  end.

(** The entity that [escapeXML] writes for a code unit, or the code unit
    itself. *)
Definition xml_entity (c : ascii) : jsstring :=
  if Ascii.eqb c "&"%char then str "&amp;"
  else if Ascii.eqb c "<"%char then str "&lt;"
  else if Ascii.eqb c ">"%char then str "&gt;"
  else if Ascii.eqb c dq then str "&quot;"
  else if Ascii.eqb c "'"%char then str "&apos;"
  else [c].

(** A code unit that opens or closes markup or an attribute value. *)
Definition is_markup (c : ascii) : bool :=
  Ascii.eqb c "<"%char || Ascii.eqb c ">"%char || Ascii.eqb c dq || Ascii.eqb c "'"%char.

(** The placeholder link of the table [t] is not in [markdown]. *)
Definition placeholder_absent (markdown : jsstring) (t : TableRef) : Prop :=
  forall id, table_id t = Some id -> includes (table_placeholder id) markdown = false.

(** The ImageRef [img] has data and the key [k]. *)
Definition complete_with (k : jsstring) (img : ImageRef) : bool :=
  truthy (image_key img) && truthy (img_image_base64 img)
  && jsstring_eqb (or_empty (image_key img)) k.

(** The entry of the registry that an ImageRef gives. *)
Definition image_entry (img : ImageRef) : Image :=
  {| image_data := or_empty (img_image_base64 img);
     image_format := last (split_char dot (or_empty (image_key img))) [] |}.

(** All the ImageRefs of an OCR result, page after page. *)
Definition all_images (r : OcrResult) : list ImageRef :=
  flat_map images_of (pages_of r).

(** An engine that is missing, or that throws on every expression. *)
Definition engine_fails (MathJax : MathEngine) : Prop :=
  match MathJax with
  | None => True
  | Some tex2svg => forall latex display, tex2svg latex display = None
  end.

(** The [src] that the rewriter writes for [src]. *)
Definition rewritten_src (imagePrefix src : jsstring) : jsstring :=
  if starts_with (str "http") src || starts_with (str "data:") src
     || starts_with imagePrefix src
  then src
  else imagePrefix ++ src.

(** A code unit of an amount of money: a digit, a dot, a comma, a space. *)
Definition is_amount_unit (c : ascii) : bool :=
  is_digit c || Ascii.eqb c dot || Ascii.eqb c comma || Ascii.eqb c " "%char.

(** The placeholder token of the block of number [i]. *)
Definition token (kind : jsstring) (i : nat) : jsstring :=
  str "%%LATEX_" ++ kind ++ str "_" ++ decimal i ++ str "%%".

(** [numbered blocks]: the block at position [i] has the token of number
    [i], of the kind that its [display] says. *)
Definition numbered (blocks : list LatexBlock) : Prop :=
  forall i b, nth_error blocks i = Some b ->
    placeholder b = token (if display b then str "DISPLAY" else str "INLINE") i.

(** [this.files[name]]. *)
Fixpoint zip_get (name : jsstring) (zip : JSZip) : option ZipObject :=
  match zip with
  | [] => None
  | o :: zip' => if jsstring_eqb (zip_name o) name then Some o else zip_get name zip'
  end.

Definition zip_folder (name : string) : ZipObject :=
  {| zip_name := str name; zip_data := Folder; zip_compression := None |}.

Definition zip_text (name : string) (text : jsstring) : ZipObject :=
  {| zip_name := str name; zip_data := Text text; zip_compression := None |}.

(** The documents of an EPUB, with the folders that hold them, in the
    order in which [generateEPUB] adds them. *)
Definition epub_documents (render : jsstring -> jsstring) (uuid iso markdown : jsstring)
    (images : ImageMap) (title : option jsstring) : JSZip :=
  let escapedTitle := escapeXML (document_title title) in
  [ mimetype_object;
    zip_folder "META-INF/";
    zip_text "META-INF/container.xml" container_xml;
    zip_folder "OEBPS/";
    zip_text "OEBPS/content.opf"
      (content_opf uuid escapedTitle (strip_millis iso)
         (map (fun e : jsstring * Image =>
                 manifest_item (safe_id (fst e)) (fst e) (image_mime (image_format (snd e))))
              images));
    zip_text "OEBPS/nav.xhtml" (nav_xhtml escapedTitle);
    zip_text "OEBPS/content.xhtml"
      (content_xhtml escapedTitle (render (processMarkdownImages markdown (str "images/")))) ].

(** An entry whose name starts with [prefix]. *)
Definition named_under (prefix : string) (o : ZipObject) : Prop :=
  starts_with (str prefix) (zip_name o) = true.

(** The image of key [id] fails to decode. *)
Definition undecodable (images : ImageMap) : Prop :=
  exists id img, In (id, img) images /\ base64ToBytes (image_data img) = None.

(** The loop that adds the images under a folder, of which [add_image] and
    [add_output_image] are the two uses. *)
Definition add_under (prefix : jsstring) (zip : option JSZip) (entry : jsstring * Image)
  : option JSZip :=
  match zip with
  | None => None
  | Some z =>
      match base64ToBytes (image_data (snd entry)) with
      | Some bytes => Some (zip_file (prefix ++ fst entry) (Binary bytes) None z)
      | None => None
      end
  end.

(** [laid_out prefix documents zip]: the archive object holds the documents
    first, as they are, and after them only entries under [prefix]. *)
Definition laid_out (prefix : string) (documents zip : JSZip) : Prop :=
  exists rest, zip = documents ++ rest /\ Forall (named_under prefix) rest.

(** The entry of an image in an archive object. *)
Definition image_object (name : jsstring) (bytes : list Byte.byte) : ZipObject :=
  {| zip_name := name; zip_data := Binary bytes; zip_compression := None |}.

(** An OCR result and its bundle, for the evaluations: two pages that
    arrive out of order, one image; the bytes of the inner archive are not
    modelled and stand as the empty sequence. *)
Definition sample_ocr : OcrResult :=
  {| ocr_pages :=
       Some [ page 1 "B";
              {| page_index := 0; page_markdown := Some (str "![a](img-0.jpeg)");
                 page_tables := None;
                 page_images :=
                   Some [ {| img_id := Some (str "img-0.jpeg"); img_name := None;
                             img_image_base64 := Some (str "QQ==") |} ] |} ] |}.

Definition sample_output : option (list ArchiveEntry) * OcrResult :=
  generateOutputZip (Protected.renderContent marked_paragraph None) (str "0000")
    (str "2024-01-01T00:00:00.000Z") (fun _ => []) sample_ocr (str "scan.pdf").

Definition sample_entries : list ArchiveEntry :=
  match fst sample_output with
  | Some entries => entries
  | None => []
  end.

(** What [decodeHtmlEntities] leaves of an escaped code unit that is not
    an ampersand: the apostrophe stays escaped. *)
Definition apostrophe_entity (c : ascii) : jsstring :=
  if Ascii.eqb c "'"%char then str "&apos;" else [c].

(* ===================================================================== *)
(** * Properties                                                          *)
(* ===================================================================== *)

Unset Implicit Arguments.

(** ** Strings *)

Lemma jsstring_eqb_eq (a b : jsstring) : jsstring_eqb a b = true <-> a = b.
Proof.
  revert b; induction a as [|x a IH]; intros [|y b]; simpl; split;
    try congruence; try discriminate.
  - rewrite andb_true_iff, Ascii.eqb_eq, IH. intros [-> ->]; reflexivity.
  - intros E; injection E as -> ->.
    rewrite andb_true_iff, Ascii.eqb_eq, IH. split; reflexivity.
Qed.

Lemma jsstring_eqb_refl (a : jsstring) : jsstring_eqb a a = true.
Proof. apply jsstring_eqb_eq; reflexivity. Qed.

Lemma starts_with_iff (p s : jsstring) :
  starts_with p s = true <-> exists r, s = p ++ r.
Proof.
  revert s; induction p as [|a p IH]; intros s; simpl.
  - split; [intros _; exists s; reflexivity | reflexivity].
  - destruct s as [|b s].
    + split; [discriminate | intros [r E]; discriminate].
    + rewrite andb_true_iff, Ascii.eqb_eq, IH. split.
      * intros [-> [r ->]]. exists r; reflexivity.
      * intros [r E]. injection E as -> ->. split; [reflexivity | exists r; reflexivity].
Qed.

Lemma starts_with_app (p r : jsstring) : starts_with p (p ++ r) = true.
Proof. apply starts_with_iff; exists r; reflexivity. Qed.

(** An induction that follows the groups of three of [sextets]. *)
Lemma list_ind3 (A : Type) (P : list A -> Prop) :
  P [] -> (forall a, P [a]) -> (forall a b, P [a; b]) ->
  (forall a b c r, P r -> P (a :: b :: c :: r)) ->
  forall l, P l.
Proof.
  intros H0 H1 H2 H3 l.
  assert (G : P l /\ (forall a, P (a :: l)) /\ (forall a b, P (a :: b :: l))).
  { induction l as [|x l [IH0 [IH1 IH2]]].
    - repeat split; auto.
    - repeat split; auto. }
  apply G.
Qed.

(** ** Base64 *)

Local Open Scope N_scope.

Ltac Zify.zify_post_hook ::= Z.to_euclidean_division_equations.

Lemma below_codes (s : jsstring) : below 256 (map N_of_ascii s).
Proof.
  unfold below. rewrite Forall_forall. intros n Hn.
  apply in_map_iff in Hn. destruct Hn as [a [<- _]]. apply N_ascii_bounded.
Qed.

Lemma sextets_below (l : list N) : below 256 l -> below 64 (sextets l).
Proof.
  unfold below. induction l as [| a | a b | a b c r IH] using list_ind3; intros H; simpl.
  - constructor.
  - inversion_clear H. repeat constructor; lia.
  - inversion_clear H as [|? ? Ha H']. inversion_clear H'. repeat constructor; lia.
  - inversion_clear H as [|? ? Ha H']. inversion_clear H' as [|? ? Hb H''].
    inversion_clear H'' as [|? ? Hc Hr]. repeat constructor; try lia. apply IH, Hr.
Qed.

Lemma octets_sextets (l : list N) : below 256 l -> octets (sextets l) = l.
Proof.
  unfold below. induction l as [| a | a b | a b c r IH] using list_ind3; intros H; simpl.
  - reflexivity.
  - inversion_clear H. f_equal. lia.
  - inversion_clear H as [|? ? Ha H']. inversion_clear H'. repeat f_equal; lia.
  - inversion_clear H as [|? ? Ha H']. inversion_clear H' as [|? ? Hb H''].
    inversion_clear H'' as [|? ? Hc Hr]. rewrite (IH Hr). repeat f_equal; lia.
Qed.

Lemma padding_step (n : nat) : padding (S (S (S n))) = padding n.
Proof.
  unfold padding. replace (S (S (S n))) with (n + 1 * 3)%nat by lia.
  rewrite Nat.Div0.mod_add. reflexivity.
Qed.

Lemma btoa_length (l : list N) :
  Nat.modulo (length (sextets l) + length (padding (length l))) 4 = 0%nat.
Proof.
  induction l as [| a | a b | a b c r IH] using list_ind3; try reflexivity.
  cbn [sextets length]. rewrite padding_step. lia.
Qed.

Lemma padding_cases (l : list N) :
  (padding (length l) = [] /\ Nat.modulo (length (sextets l)) 4 = 0%nat)
  \/ (padding (length l) = [eq_sign] /\ sextets l <> []
      /\ Nat.modulo (length (sextets l)) 4 = 3%nat)
  \/ (padding (length l) = [eq_sign; eq_sign]
      /\ Nat.modulo (length (sextets l)) 4 = 2%nat).
Proof.
  induction l as [| a | a b | a b c r IH] using list_ind3.
  - left; split; reflexivity.
  - right; right; split; reflexivity.
  - right; left; repeat split; discriminate.
  - cbn [sextets length]. rewrite padding_step.
    destruct IH as [[-> E] | [[-> [N0 E]] | [-> E]]].
    + left; split; [reflexivity | lia].
    + right; left; repeat split; [discriminate | lia].
    + right; right; split; [reflexivity | lia].
Qed.

Lemma in_all_sextets (n : N) : n < 64 -> In n all_sextets.
Proof.
  intros H. unfold all_sextets. apply in_map_iff. exists (N.to_nat n). split.
  - apply N2Nat.id.
  - apply in_seq. lia.
Qed.

Lemma b64_char_facts (n : N) :
  n < 64 -> b64_index (b64_char n) = Some n /\ clean_char (b64_char n) = true.
Proof.
  intros H. apply in_all_sextets in H. revert n H. apply Forall_forall.
  unfold all_sextets. cbv [seq map].
  repeat (apply Forall_cons; [split; vm_compute; reflexivity |]).
  constructor.
Qed.

Lemma all_index_chars (l : list N) :
  below 64 l -> all_index (map b64_char l) = Some l.
Proof.
  induction 1 as [| n l Hn _ IH]; simpl; [reflexivity |].
  destruct (b64_char_facts n Hn) as [-> _]. rewrite IH. reflexivity.
Qed.

Lemma chars_clean (l : list N) :
  below 64 l -> Forall (fun c => clean_char c = true) (map b64_char l).
Proof.
  induction 1 as [| n l Hn _ IH]; simpl; constructor; [apply b64_char_facts, Hn | exact IH].
Qed.

Lemma padding_not_space (n : nat) :
  Forall (fun c => is_ascii_whitespace c = false /\ Ascii.eqb c comma = false) (padding n).
Proof.
  unfold padding. destruct (Nat.modulo n 3) as [|[|[|k]]]; repeat constructor.
Qed.

Lemma filter_all (A : Type) (f : A -> bool) (l : list A) :
  Forall (fun x => f x = true) l -> filter f l = l.
Proof.
  induction 1 as [| x l Hx _ IH]; simpl; [reflexivity |]. rewrite Hx, IH. reflexivity.
Qed.

Lemma includes_comma_false (s : jsstring) :
  Forall (fun c => Ascii.eqb c comma = false) s -> includes [comma] s = false.
Proof.
  induction 1 as [| c s Hc _ IH]; [reflexivity |].
  cbn [includes starts_with]. rewrite Ascii.eqb_sym, Hc, IH. reflexivity.
Qed.

Lemma strip_padding_btoa (l : list N) :
  below 64 (sextets l) ->
  strip_padding (map b64_char (sextets l) ++ padding (length l))
  = map b64_char (sextets l).
Proof.
  intros Hb. unfold strip_padding.
  rewrite length_app, length_map, btoa_length. cbn [Nat.eqb].
  pose proof (chars_clean _ Hb) as Hc.
  assert (Hlast : forall a r, rev (map b64_char (sextets l)) = a :: r ->
                              Ascii.eqb a eq_sign = false).
  { intros a r E. rewrite Forall_forall in Hc.
    assert (Ha : clean_char a = true).
    { apply Hc, in_rev. rewrite E. left; reflexivity. }
    unfold clean_char in Ha. rewrite !andb_true_iff, !negb_true_iff in Ha. tauto. }
  destruct (padding_cases l) as [[-> _] | [[-> [N0 _]] | [-> _]]].
  - rewrite app_nil_r.
    destruct (rev (map b64_char (sextets l))) as [| a [| b r]] eqn:E; try reflexivity.
    rewrite (Hlast a (b :: r) eq_refl). reflexivity.
  - rewrite rev_app_distr. cbn [rev app].
    destruct (rev (map b64_char (sextets l))) as [| b r] eqn:E.
    + exfalso. apply N0. apply (f_equal (@rev ascii)) in E.
      rewrite rev_involutive in E. cbn in E.
      destruct (sextets l); [reflexivity | discriminate].
    + cbn -[rev]. rewrite (Hlast b r eq_refl).
      change (rev r ++ [b]) with (rev (b :: r)). rewrite <- E. apply rev_involutive.
  - rewrite rev_app_distr. cbn -[rev]. apply rev_involutive.
Qed.

Lemma atob_btoa (s : jsstring) : atob (btoa s) = Some s.
Proof.
  unfold atob, btoa.
  pose proof (sextets_below _ (below_codes s)) as Hb.
  assert (Hw : filter (fun c => negb (is_ascii_whitespace c))
                 (map b64_char (sextets (map N_of_ascii s)) ++ padding (length s))
               = map b64_char (sextets (map N_of_ascii s)) ++ padding (length s)).
  { apply filter_all, Forall_app. split.
    - eapply Forall_impl; [| apply (chars_clean _ Hb)].
      intros c Hc. unfold clean_char in Hc. rewrite !andb_true_iff in Hc. tauto.
    - eapply Forall_impl; [| apply padding_not_space].
      intros c [-> _]. reflexivity. }
  rewrite Hw.
  replace (length s) with (length (map N_of_ascii s)) by apply length_map.
  rewrite (strip_padding_btoa _ Hb), length_map.
  assert (Hlen : Nat.eqb (Nat.modulo (length (sextets (map N_of_ascii s))) 4) 1 = false).
  { apply Nat.eqb_neq.
    destruct (padding_cases (map N_of_ascii s)) as [[_ E] | [[_ [_ E]] | [_ E]]];
      rewrite E; discriminate. }
  rewrite Hlen, (all_index_chars _ Hb). cbn [option_map].
  rewrite (octets_sextets _ (below_codes s)), map_map. f_equal.
  rewrite <- (map_id s) at 2. apply map_ext. intros a. apply ascii_N_embedding.
Qed.

Local Close Scope N_scope.

Lemma btoa_no_comma (s : jsstring) : includes [comma] (btoa s) = false.
Proof.
  apply includes_comma_false. unfold btoa. apply Forall_app. split.
  - eapply Forall_impl; [| apply (chars_clean _ (sextets_below _ (below_codes s)))].
    intros c Hc. unfold clean_char in Hc.
    rewrite !andb_true_iff, !negb_true_iff in Hc. tauto.
  - eapply Forall_impl; [| apply padding_not_space]. intros c [_ H]; exact H.
Qed.

Lemma binary_string (input : list Byte.byte) (acc : jsstring) :
  fold_left (fun s b => s ++ [ascii_of_byte b]) input acc = acc ++ map ascii_of_byte input.
Proof.
  revert acc; induction input as [| b input IH]; intros acc; simpl.
  - symmetry; apply app_nil_r.
  - rewrite IH, <- app_assoc. reflexivity.
Qed.

Example fileToBase64_hello :
  fileToBase64 (map byte_of_ascii (str "Hello, World!")) = str "SGVsbG8sIFdvcmxkIQ==".
Proof. reflexivity. Qed.

Example base64ToBytes_data_url :
  base64ToBytes (str "data:text/plain;base64,SGVsbG8sIFdvcmxkIQ==")
  = Some (map byte_of_ascii (str "Hello, World!")).
Proof. reflexivity. Qed.

(** C8.  Base64 round trip: for every byte sequence [b], decoding with
    [base64ToBytes] the text that [fileToBase64] makes of [b] returns
    (without an exception) exactly [b]. *)
Theorem base64_round_trip (b : list Byte.byte) :
  base64ToBytes (fileToBase64 b) = Some b.
Proof.
  unfold base64ToBytes, fileToBase64.
  rewrite btoa_no_comma, atob_btoa, binary_string. cbn [app option_map].
  rewrite map_map. f_equal.
  rewrite <- (map_id b) at 2. apply map_ext. intros x. apply byte_of_ascii_of_byte.
Qed.

(** ** [base64ToBytes] and data URLs *)

Lemma includes_break_at (c : ascii) (s : jsstring) :
  includes [c] s = match break_at c s with Some _ => true | None => false end.
Proof.
  induction s as [| a s IH]; [reflexivity |].
  cbn [includes starts_with break_at]. rewrite IH, Ascii.eqb_sym.
  destruct (Ascii.eqb a c); [reflexivity |].
  destruct (break_at c s) as [[before after] |]; reflexivity.
Qed.

Lemma split_char_break_at (c : ascii) (s : jsstring) :
  split_char c s = match break_at c s with
                   | Some (before, after) => before :: split_char c after
                   | None => [s]
                   end.
Proof.
  induction s as [| a s IH]; [reflexivity |].
  cbn [split_char break_at]. destruct (Ascii.eqb a c); [reflexivity |].
  rewrite IH. destruct (break_at c s) as [[before after] |]; reflexivity.
Qed.

(** C10, as amended.  When the input has a comma, [base64ToBytes] decodes
    the text between the first comma and the next comma (or the end of the
    input when there is no second comma); for an input without a comma the
    whole text is decoded. *)
Theorem base64ToBytes_decodes_payload (s : jsstring) :
  base64ToBytes s = option_map (map byte_of_ascii) (atob (payload s)).
Proof.
  unfold base64ToBytes, payload. rewrite includes_break_at, split_char_break_at.
  destruct (break_at comma s) as [[before after] |]; [| reflexivity].
  cbn [nth]. rewrite split_char_break_at.
  destruct (break_at comma after) as [[segment rest] |]; reflexivity.
Qed.

(** C10, as stated, fails on an input with two commas: the text after the
    first comma is [QQ==,QQ==], which [atob] refuses, while [base64ToBytes]
    decodes the segment [QQ==] and returns one byte. *)
Lemma base64ToBytes_second_comma :
  break_at comma (str "data:,QQ==,QQ==") = Some (str "data:", str "QQ==,QQ==")
  /\ option_map (map byte_of_ascii) (atob (str "QQ==,QQ==")) = None
  /\ base64ToBytes (str "data:,QQ==,QQ==") = Some [Byte.x41].
Proof. repeat split; reflexivity. Qed.

(** ** Sorting pages *)

Section SortByKey.
Variable A : Type.
Variable key : A -> Z.

Let cmp (a b : A) : Z := (key a - key b)%Z.
Let le (a b : A) : Prop := (key a <= key b)%Z.

Lemma insert_sorted_perm (x : A) (l : list A) :
  Permutation (x :: l) (insert_sorted cmp x l).
Proof.
  induction l as [| y l IH]; simpl; [reflexivity |].
  destruct (cmp x y <=? 0)%Z; [reflexivity |].
  rewrite perm_swap. apply perm_skip, IH.
Qed.

Lemma array_sort_perm (l : list A) : Permutation l (array_sort cmp l).
Proof.
  induction l as [| x l IH]; simpl; [reflexivity |].
  rewrite <- insert_sorted_perm. apply perm_skip, IH.
Qed.

Lemma insert_sorted_sorted (x : A) (l : list A) :
  StronglySorted le l -> StronglySorted le (insert_sorted cmp x l).
Proof.
  induction 1 as [| y l Hs IH Hy]; simpl.
  - repeat constructor.
  - destruct (cmp x y <=? 0)%Z eqn:E; unfold cmp in E.
    + constructor; [constructor; assumption |].
      constructor; [unfold le; lia |].
      eapply Forall_impl; [| exact Hy]. unfold le; intros; lia.
    + constructor; [exact IH |].
      rewrite <- insert_sorted_perm. constructor; [unfold le; lia | exact Hy].
Qed.

Lemma array_sort_sorted (l : list A) : StronglySorted le (array_sort cmp l).
Proof.
  induction l as [| x l IH]; simpl; [constructor | apply insert_sorted_sorted, IH].
Qed.

Lemma insert_sorted_stable (k : Z) (x : A) (l : list A) :
  filter (fun a => key a =? k)%Z (insert_sorted cmp x l)
  = filter (fun a => key a =? k)%Z (x :: l).
Proof.
  induction l as [| y l IH]; [reflexivity |].
  cbn [insert_sorted]. destruct (cmp x y <=? 0)%Z eqn:E; [reflexivity |].
  unfold cmp in E. cbn [filter] in *. rewrite IH.
  destruct (key x =? k)%Z eqn:Ex, (key y =? k)%Z eqn:Ey; try reflexivity. lia.
Qed.

Lemma array_sort_stable (k : Z) (l : list A) :
  filter (fun a => key a =? k)%Z (array_sort cmp l) = filter (fun a => key a =? k)%Z l.
Proof.
  induction l as [| x l IH]; [reflexivity |].
  cbn [array_sort fold_right]. rewrite insert_sorted_stable.
  cbn [filter]. unfold array_sort in IH. rewrite IH. reflexivity.
Qed.
End SortByKey.

Lemma sort_pages (pages : list Page) :
  StronglySorted index_le (array_sort by_index pages)
  /\ Permutation pages (array_sort by_index pages)
  /\ forall k, filter (has_index k) (array_sort by_index pages) = filter (has_index k) pages.
Proof.
  split; [apply (array_sort_sorted _ page_index) |].
  split; [apply (array_sort_perm _ page_index) |].
  intros k. apply (array_sort_stable _ page_index).
Qed.

(** C7.  [combineMarkdown] joins the page texts in the order of the
    [index] field, ascending, pages of equal index keeping their arrival
    order: the pages it joins are a permutation of the input, sorted by
    index, in which the pages of any one index come in their original
    order.  For the pages [{index:1, markdown:"B"}; {index:0, markdown:"A"}]
    the result is "A", the separator, "B". *)
Theorem combineMarkdown_orders_by_index :
  (forall pages : list Page,
     exists sorted,
       fst (combineMarkdown {| ocr_pages := Some pages |})
       = join page_separator (map page_text sorted)
       /\ StronglySorted index_le sorted
       /\ Permutation pages sorted
       /\ forall k, filter (has_index k) sorted = filter (has_index k) pages)
  /\ fst (combineMarkdown {| ocr_pages := Some [page 1 "B"; page 0 "A"] |})
     = str "A" ++ page_separator ++ str "B".
Proof.
  split; [| reflexivity].
  intros pages. exists (array_sort by_index pages).
  split; [| apply sort_pages].
  destruct pages; reflexivity.
Qed.

(** C9.  [combineMarkdown] sorts the array of its argument in place: after
    the call the pages of the argument are the input pages reordered by
    index, ascending and stably, and for some inputs this is not the order
    in which they arrived. *)
Theorem combineMarkdown_sorts_in_place :
  (forall pages : list Page,
     exists sorted,
       ocr_pages (snd (combineMarkdown {| ocr_pages := Some pages |})) = Some sorted
       /\ StronglySorted index_le sorted
       /\ Permutation pages sorted
       /\ forall k, filter (has_index k) sorted = filter (has_index k) pages)
  /\ ocr_pages (snd (combineMarkdown {| ocr_pages := Some [page 1 "B"; page 0 "A"] |}))
     = Some [page 0 "A"; page 1 "B"].
Proof.
  split; [| reflexivity].
  intros pages. exists (array_sort by_index pages).
  split; [| apply sort_pages].
  destruct pages; reflexivity.
Qed.

(** ** Page separators *)

Lemma includes_iff (p s : jsstring) :
  includes p s = true <-> exists a b, s = a ++ p ++ b.
Proof.
  induction s as [| c s IH].
  - cbn [includes]. rewrite orb_false_r, starts_with_iff. split.
    + intros [r E]. exists [], r. exact E.
    + intros [a [b E]]. destruct a; [exists b; exact E |]. discriminate.
  - cbn [includes]. rewrite orb_true_iff, starts_with_iff, IH. split.
    + intros [[r E] | [a [b E]]].
      * exists [], r. exact E.
      * exists (c :: a), b. rewrite E. reflexivity.
    + intros [[| x a] [b E]].
      * left. exists b. exact E.
      * right. injection E as _ E. exists a, b. exact E.
Qed.

Lemma starts_with_local (p x y : jsstring) :
  length p <= length x -> starts_with p (x ++ y) = starts_with p x.
Proof.
  revert x. induction p as [| a p IH]; intros x L; [reflexivity |].
  destruct x as [| b x]; [cbn in L; lia |].
  cbn [app starts_with]. rewrite IH; [reflexivity | cbn in L; lia].
Qed.

(** Whether the pattern occurs at a position of [t] depends on [t] and on
    what follows it up to the length of the pattern. *)
Lemma occurrences_local (p t z y : jsstring) :
  length p <= S (length z) ->
  occurrences p (t ++ z ++ y) + occurrences p z
  = occurrences p (t ++ z) + occurrences p (z ++ y).
Proof.
  intros L. induction t as [| c t IH]; [cbn [app]; lia |].
  cbn [app occurrences].
  replace (starts_with p (c :: t ++ z ++ y)) with (starts_with p (c :: t ++ z)).
  - lia.
  - change (c :: t ++ z ++ y) with ((c :: t) ++ z ++ y).
    rewrite app_assoc. symmetry. apply starts_with_local.
    cbn [app length]. rewrite length_app. lia.
Qed.

Lemma occurrences_app_ge (p t z : jsstring) :
  occurrences p z <= occurrences p (t ++ z).
Proof. induction t as [| c t IH]; cbn [app occurrences]; lia. Qed.

Lemma combineMarkdown_join (r : OcrResult) :
  fst (combineMarkdown r)
  = join page_separator (map page_text (array_sort by_index (pages_of r))).
Proof.
  unfold combineMarkdown, pages_of.
  destruct (ocr_pages r) as [[| p pages] |]; reflexivity.
Qed.

(** Every joining separator lies in two windows: the occurrences in the
    windows are those of the combined markdown, and the joining separators
    once more. *)
Lemma windows_occurrences (first : bool) (texts : list jsstring) :
  texts <> [] ->
  list_sum (map (fun w => occurrences page_separator (snd w)) (windows first texts))
  = occurrences page_separator
      ((if first then [] else page_separator) ++ join page_separator texts)
    + (length texts - 1).
Proof.
  revert first. induction texts as [| t rest IH]; intros first N; [congruence |].
  destruct rest as [| t2 rest].
  - unfold list_sum. cbn [windows map fold_right snd join length]. lia.
  - change (windows first (t :: t2 :: rest))
      with (((if first then 1 else 2),
             (if first then [] else page_separator) ++ t ++ page_separator)
            :: windows false (t2 :: rest)).
    pose proof (IH false ltac:(discriminate)) as E0.
    change (join page_separator (t :: t2 :: rest))
      with (t ++ page_separator ++ join page_separator (t2 :: rest)).
    pose proof (occurrences_local page_separator
                  ((if first then [] else page_separator) ++ t) page_separator
                  (join page_separator (t2 :: rest))) as E.
    rewrite <- !app_assoc in E.
    change (occurrences page_separator page_separator) with 1 in E.
    specialize (E ltac:(cbn; lia)).
    unfold list_sum in *. cbn [map fold_right snd]. cbn [length] in *. lia.
Qed.

Lemma windows_joins (first : bool) (texts : list jsstring) :
  texts <> [] ->
  list_sum (map fst (windows first texts))
  = (if first then 0 else 1) + 2 * (length texts - 1).
Proof.
  revert first. induction texts as [| t rest IH]; intros first N; [congruence |].
  destruct rest as [| t2 rest].
  - unfold list_sum. cbn [windows map fold_right fst length]. destruct first; lia.
  - change (windows first (t :: t2 :: rest))
      with (((if first then 1 else 2),
             (if first then [] else page_separator) ++ t ++ page_separator)
            :: windows false (t2 :: rest)).
    pose proof (IH false ltac:(discriminate)) as E0.
    unfold list_sum in *. cbn [map fold_right fst]. cbn [length] in *.
    destruct first; lia.
Qed.

(** The joining separators of a window are occurrences in it. *)
Lemma windows_at_least (first : bool) (texts : list jsstring) :
  Forall (fun w => fst w <= occurrences page_separator (snd w)) (windows first texts).
Proof.
  revert first. induction texts as [| t rest IH]; intros first; [constructor |].
  assert (A : forall x, 1 <= occurrences page_separator (x ++ page_separator)).
  { intros x. apply (occurrences_app_ge page_separator x page_separator). }
  assert (B : forall x, occurrences page_separator (page_separator ++ x)
                        = S (occurrences page_separator (skipn 1 page_separator ++ x))).
  { intros x. reflexivity. }
  destruct rest as [| t2 rest].
  - cbn [windows]. constructor; [| constructor]. cbn [fst snd].
    destruct first; [lia |]. rewrite B. lia.
  - change (windows first (t :: t2 :: rest))
      with (((if first then 1 else 2),
             (if first then [] else page_separator) ++ t ++ page_separator)
            :: windows false (t2 :: rest)).
    constructor; [| apply IH]. cbn [fst snd]. destruct first.
    + apply A.
    + rewrite B, app_assoc. specialize (A (skipn 1 page_separator ++ t)). lia.
Qed.

Lemma sums_agree (A : Type) (f g : A -> nat) (l : list A) :
  Forall (fun x => f x <= g x) l ->
  list_sum (map f l) <= list_sum (map g l)
  /\ (list_sum (map g l) = list_sum (map f l) <-> Forall (fun x => g x = f x) l).
Proof.
  induction 1 as [| x l Hx Hl [IH1 IH2]]; unfold list_sum in *; cbn [map fold_right].
  - split; [lia |]. split; [constructor | reflexivity].
  - split; [lia |]. split.
    + intros E. constructor; [lia |]. apply IH2. lia.
    + intros G. inversion_clear G as [| ? ? Gx Gl]. apply IH2 in Gl. lia.
Qed.

Lemma joins_only_windows (texts : list jsstring) :
  Forall joins_only (windows true texts)
  <-> occurrences page_separator (join page_separator texts) = length texts - 1.
Proof.
  destruct texts as [| t rest] eqn:E.
  - split; [reflexivity | constructor].
  - rewrite <- E. assert (N : texts <> []) by (rewrite E; discriminate).
    pose proof (windows_occurrences true texts N) as S1.
    pose proof (windows_joins true texts N) as S2.
    pose proof (sums_agree _ fst (fun w => occurrences page_separator (snd w))
                  (windows true texts) (windows_at_least true texts)) as [_ S3].
    cbn [app] in S1. cbn beta iota in S2. unfold joins_only.
    rewrite <- S3, S1, S2. lia.
Qed.

(** C6, as amended.  The output of [combineMarkdown] for N pages has
    exactly N-1 occurrences of the separator, none for N <= 1, exactly
    when no page text (the markdown of the page with its tables inlined),
    read with the separators that join it to its neighbours, holds an
    occurrence of the separator other than these: the text of the separator
    is neither inside a page text nor formed across one of its edges.  The
    output is the empty string when there are no pages. *)
Theorem combineMarkdown_separators (r : OcrResult) :
  (Forall joins_only (page_windows r)
   <-> occurrences page_separator (fst (combineMarkdown r)) = length (pages_of r) - 1)
  /\ (pages_of r = [] -> fst (combineMarkdown r) = []).
Proof.
  rewrite combineMarkdown_join. split.
  - unfold page_windows. rewrite joins_only_windows, length_map.
    rewrite <- (Permutation_length (proj1 (proj2 (sort_pages (pages_of r))))). reflexivity.
  - intros ->. reflexivity.
Qed.

Lemma combineMarkdown_separators_witness :
  let r := {| ocr_pages :=
                Some [ page 1 "B";
                       {| page_index := 0;
                          page_markdown := Some (str "Title" ++ nl :: str "---" ++ nl :: str "text");
                          page_tables := None; page_images := None |} ] |} in
  Forall joins_only (page_windows r)
  /\ occurrences page_separator (fst (combineMarkdown r)) = 1.
Proof.
  intros r.
  assert (H : Forall joins_only (page_windows r)) by (repeat constructor).
  split; [exact H |].
  exact (proj1 (proj1 (combineMarkdown_separators r)) H).
Defined.

(** C6, as stated, fails when a page text holds the text of the
    separator: one page, and one occurrence of the separator in the
    output. *)
Lemma combineMarkdown_rule_in_page :
  let r := {| ocr_pages :=
                Some [ {| page_index := 0;
                          page_markdown := Some (str "a" ++ page_separator ++ str "b");
                          page_tables := None; page_images := None |} ] |} in
  length (pages_of r) = 1
  /\ occurrences page_separator (fst (combineMarkdown r)) = 1
  /\ occurrences page_separator (fst (combineMarkdown r)) <> length (pages_of r) - 1.
Proof. repeat split. vm_compute. discriminate. Qed.

(** ** Tables *)

Lemma starts_with_shorter (p x y : jsstring) :
  starts_with p (x ++ y) = true -> length p <= length x -> starts_with p x = true.
Proof.
  revert x; induction p as [| a p IH]; intros x H L; [reflexivity |].
  destruct x as [| b x]; [cbn in L; lia |].
  cbn [app starts_with] in *. apply andb_true_iff in H. destruct H as [-> H].
  apply IH; [exact H | cbn in L; lia].
Qed.

Lemma includes_cons_false (p s : jsstring) (c : ascii) :
  includes p (c :: s) = false -> starts_with p (c :: s) = false /\ includes p s = false.
Proof. cbn [includes]. apply orb_false_iff. Qed.

Lemma find_first_eq (p s : jsstring) :
  find_first p s
  = if starts_with p s then Some ([], skipn (length p) s)
    else match s with
         | [] => None
         | c :: s' =>
             match find_first p s' with
             | Some (before, after) => Some (c :: before, after)
             | None => None
             end
         end.
Proof. destruct s; reflexivity. Qed.

(** [find_first] finds the occurrence before which there is no other. *)
Lemma find_first_app (p before after : jsstring) :
  p <> [] ->
  includes p (before ++ removelast p) = false ->
  find_first p (before ++ p ++ after) = Some (before, after).
Proof.
  intros Hp. induction before as [| c before IH]; intros H.
  - cbn [app]. rewrite find_first_eq, starts_with_app.
    rewrite skipn_app, skipn_all, Nat.sub_diag. reflexivity.
  - cbn [app] in *. apply includes_cons_false in H. destruct H as [H1 H2].
    assert (E : starts_with p (c :: before ++ p ++ after) = false).
    { destruct (starts_with p (c :: before ++ p ++ after)) eqn:E; [| reflexivity].
      rewrite <- H1. symmetry.
      apply (starts_with_shorter p (c :: before ++ removelast p) ([last p c] ++ after)).
      - replace ((c :: before ++ removelast p) ++ [last p c] ++ after)
          with (c :: before ++ p ++ after); [exact E |].
        cbn [app]. f_equal. rewrite <- app_assoc. f_equal.
        rewrite (app_removelast_last c Hp) at 1. rewrite <- app_assoc. reflexivity.
      - cbn [length]. rewrite length_app.
        rewrite (app_removelast_last c Hp) at 1. rewrite length_app. cbn [length]. lia. }
    rewrite find_first_eq, E, (IH H2). reflexivity.
Qed.

Lemma get_substitution_plain (matched before after repl : jsstring) :
  includes [dollar] repl = false -> get_substitution matched before after repl = repl.
Proof.
  induction repl as [| c r IH]; intros H; [reflexivity |].
  apply includes_cons_false in H. destruct H as [H1 H2].
  cbn [starts_with] in H1. rewrite andb_true_r, Ascii.eqb_sym in H1.
  cbn [get_substitution]. rewrite H1, (IH H2). reflexivity.
Qed.

Lemma inlineTableContent_snoc (markdown : jsstring) (tables : list TableRef) (t : TableRef) :
  markdown <> [] ->
  inlineTableContent markdown (Some (tables ++ [t]))
  = inline_table (inlineTableContent markdown (Some tables)) t.
Proof.
  intros H. destruct markdown as [| c markdown]; [congruence |].
  destruct tables as [| t1 tables]; [reflexivity |].
  change (inlineTableContent (c :: markdown) (Some ((t1 :: tables) ++ [t])))
    with (fold_left inline_table ((t1 :: tables) ++ [t]) (c :: markdown)).
  apply fold_left_app.
Qed.

(** What [result.replace(placeholder, table.content)] does for a table
    with an id and a content, the content without dollar sign: the first
    occurrence of the placeholder link is replaced, and the text before and
    after it is left as it is. *)
Lemma inline_table_first_occurrence
    (markdown : jsstring) (tables : list TableRef) (t : TableRef)
    (id content before after : jsstring) :
  table_id t = Some id -> table_content t = Some content ->
  id <> [] -> content <> [] ->
  includes [dollar] content = false ->
  inlineTableContent markdown (Some tables) = before ++ table_placeholder id ++ after ->
  first_at (table_placeholder id) before ->
  inlineTableContent markdown (Some (tables ++ [t])) = before ++ content ++ after.
Proof.
  intros Hid Hcontent Nid Ncontent Hplain Hm Hfirst.
  assert (Np : table_placeholder id <> []) by discriminate.
  assert (Nm : markdown <> []).
  { intros ->. cbn in Hm. destruct before; discriminate Hm. }
  rewrite (inlineTableContent_snoc _ _ _ Nm), Hm.
  unfold inline_table. rewrite Hid, Hcontent.
  destruct id as [| i id]; [congruence |]. destruct content as [| c content]; [congruence |].
  cbn [truthy andb or_empty]. unfold replace_string.
  rewrite (find_first_app _ _ _ Np Hfirst), (get_substitution_plain _ _ _ _ Hplain).
  reflexivity.
Qed.

(** C2 fails on the code.  [String.prototype.replace] with a string
    pattern replaces the first occurrence only: what follows the first
    placeholder link of a table is left as it is, whatever it is, so a
    second link of the same table is still in the output, against the
    docstring of the function and against what its test asserts of the
    result (the placeholder is removed).  The content of the table is
    moreover read as a replacement pattern: two dollar signs in it come out
    as one. *)
Theorem inlineTableContent_keeps_placeholder :
  (forall rest : jsstring,
     inlineTableContent (table_placeholder (str "tbl-0.md") ++ rest)
       (Some [table "tbl-0.md" "| A | B |"])
     = str "| A | B |" ++ rest)
  /\ inlineTableContent
       (str "# Title" ++ nl :: nl :: str "[tbl-0.md](tbl-0.md)"
          ++ nl :: nl :: str "[tbl-0.md](tbl-0.md)")
       (Some [table "tbl-0.md" "| A | B |"])
     = str "# Title" ++ nl :: nl :: str "| A | B |" ++ nl :: nl :: str "[tbl-0.md](tbl-0.md)"
  /\ includes (table_placeholder (str "tbl-0.md"))
       (inlineTableContent
          (str "# Title" ++ nl :: nl :: str "[tbl-0.md](tbl-0.md)"
             ++ nl :: nl :: str "[tbl-0.md](tbl-0.md)")
          (Some [table "tbl-0.md" "| A | B |"])) = true
  /\ inlineTableContent (str "[tbl-0.md](tbl-0.md)") (Some [table "tbl-0.md" "| $$x$$ |"])
     = str "| $x$ |".
Proof.
  split; [| repeat split].
  intros rest.
  apply (inline_table_first_occurrence
           (table_placeholder (str "tbl-0.md") ++ rest) []
           (table "tbl-0.md" "| A | B |") (str "tbl-0.md") (str "| A | B |") [] rest).
  - reflexivity.
  - reflexivity.
  - discriminate.
  - discriminate.
  - reflexivity.
  - reflexivity.
  - reflexivity.
Qed.

(** ** Images *)

Lemma map_get_set (V : Type) (k k' : jsstring) (v : V) (m : JsMap V) :
  map_get k' (map_set k v m) = if jsstring_eqb k k' then Some v else map_get k' m.
Proof.
  induction m as [| [k0 v0] m IH]; cbn [map_set map_get].
  - destruct (jsstring_eqb k k'); reflexivity.
  - destruct (jsstring_eqb k0 k) eqn:E0; cbn [map_get].
    + apply jsstring_eqb_eq in E0. subst k0.
      destruct (jsstring_eqb k k'); reflexivity.
    + rewrite IH. destruct (jsstring_eqb k0 k') eqn:E1; [| reflexivity].
      apply jsstring_eqb_eq in E1. subst k0.
      destruct (jsstring_eqb k k') eqn:E2; [| reflexivity].
      apply jsstring_eqb_eq in E2. subst k. rewrite jsstring_eqb_refl in E0. discriminate.
Qed.

Lemma truthy_some (o : option jsstring) :
  truthy o = true -> exists s, o = Some s /\ s <> [].
Proof.
  destruct o as [[| c s] |]; try discriminate. intros _.
  exists (c :: s). split; [reflexivity | discriminate].
Qed.

Lemma register_image_registered (seen : list ImageRef) (images : ImageMap) (img : ImageRef) :
  (forall k v, map_get k images = Some v -> registered seen k v) ->
  forall k v, map_get k (register_image images img) = Some v ->
              registered (seen ++ [img]) k v.
Proof.
  intros H k v. unfold register_image. fold (image_key img).
  assert (Hold : map_get k images = Some v -> registered (seen ++ [img]) k v).
  { intros G. destruct (H k v G) as [i [d [Hin Hrest]]].
    exists i, d. split; [apply in_or_app; left; exact Hin | exact Hrest]. }
  destruct (truthy (image_key img)) eqn:Ek; [| exact Hold].
  destruct (truthy (img_image_base64 img)) eqn:Ed; [| exact Hold].
  cbn [andb]. rewrite map_get_set.
  apply truthy_some in Ek. destruct Ek as [key [Ekey Nkey]].
  apply truthy_some in Ed. destruct Ed as [data [Edata Ndata]].
  rewrite Ekey, Edata. cbn [or_empty].
  destruct (jsstring_eqb key k) eqn:E; [| exact Hold].
  apply jsstring_eqb_eq in E. subst key. intros G. injection G as <-.
  exists img, data. repeat split; try assumption.
  apply in_or_app; right; left; reflexivity.
Qed.

Lemma register_images_registered (imgs seen : list ImageRef) (images : ImageMap) :
  (forall k v, map_get k images = Some v -> registered seen k v) ->
  forall k v, map_get k (fold_left register_image imgs images) = Some v ->
              registered (seen ++ imgs) k v.
Proof.
  revert seen images. induction imgs as [| img imgs IH]; intros seen images H k v.
  - rewrite app_nil_r. apply H.
  - cbn [fold_left]. intros G.
    replace (seen ++ img :: imgs) with ((seen ++ [img]) ++ imgs)
      by (rewrite <- app_assoc; reflexivity).
    apply (IH (seen ++ [img]) (register_image images img)); [| exact G].
    apply register_image_registered, H.
Qed.

Lemma register_pages_registered (pages : list Page) (seen : list ImageRef) (images : ImageMap) :
  (forall k v, map_get k images = Some v -> registered seen k v) ->
  forall k v, map_get k (fold_left register_page pages images) = Some v ->
              registered (seen ++ flat_map images_of pages) k v.
Proof.
  revert seen images. induction pages as [| p pages IH]; intros seen images H k v.
  - cbn. rewrite app_nil_r. apply H.
  - cbn [fold_left flat_map]. rewrite app_assoc. apply IH.
    unfold register_page, images_of. destruct (page_images p) as [imgs |].
    + apply register_images_registered, H.
    + rewrite app_nil_r. exact H.
Qed.

Lemma register_image_incomplete (images : ImageMap) (img : ImageRef) :
  incomplete img -> register_image images img = images.
Proof.
  unfold incomplete, register_image. fold (image_key img).
  intros [-> | ->]; [reflexivity |].
  rewrite andb_false_r. reflexivity.
Qed.

(** C5, as amended.  [extractImages] registers an image only when the
    ImageRef has a key, its [id] or else its [name], and base64 data: every
    entry of the registry comes whole, data and format, from such an
    ImageRef of some page; and an ImageRef that lacks the key or the data is
    skipped, the registry being the one that the input without it gives.
    The function is total: it raises no error. *)
Theorem extractImages_complete_entries :
  (forall (r : OcrResult) (k : jsstring) (v : Image),
     map_get k (extractImages r) = Some v ->
     exists p, In p (pages_of r) /\ registered (images_of p) k v)
  /\ (forall (pages1 pages2 : list Page) (p p' : Page) (imgs1 imgs2 : list ImageRef)
             (img : ImageRef),
        incomplete img ->
        page_images p = Some (imgs1 ++ img :: imgs2) ->
        page_images p' = Some (imgs1 ++ imgs2) ->
        extractImages {| ocr_pages := Some (pages1 ++ p :: pages2) |}
        = extractImages {| ocr_pages := Some (pages1 ++ p' :: pages2) |}).
Proof.
  split.
  - intros r k v H. unfold extractImages, pages_of in *.
    destruct (ocr_pages r) as [pages |]; [| discriminate H].
    apply (register_pages_registered pages [] []) in H; [| discriminate].
    cbn [app] in H. destruct H as [img [data [Hin Hrest]]].
    apply in_flat_map in Hin. destruct Hin as [p [Hp Hin]].
    exists p. split; [exact Hp |]. exists img, data. split; assumption.
  - intros pages1 pages2 p p' imgs1 imgs2 img Hinc Hp Hp'.
    unfold extractImages. cbn [ocr_pages]. rewrite !fold_left_app. cbn [fold_left].
    f_equal. unfold register_page. rewrite Hp, Hp', !fold_left_app. cbn [fold_left].
    rewrite (register_image_incomplete _ _ Hinc). reflexivity.
Qed.

Lemma extractImages_complete_entries_witness :
  exists p,
    In p [image_page [ {| img_id := Some (str "img-0.jpeg"); img_name := None;
                          img_image_base64 := Some (str "QQ==") |} ]]
    /\ registered (images_of p) (str "img-0.jpeg")
         {| image_data := str "QQ=="; image_format := str "jpeg" |}.
Proof.
  apply (proj1 extractImages_complete_entries
           {| ocr_pages :=
                Some [image_page [ {| img_id := Some (str "img-0.jpeg"); img_name := None;
                                      img_image_base64 := Some (str "QQ==") |} ]] |}).
  reflexivity.
Defined.

(** C5, as stated, fails for an ImageRef that has no [id] but a [name]: it
    is registered, under its name. *)
Lemma extractImages_name_without_id :
  extractImages
    {| ocr_pages :=
         Some [image_page [ {| img_id := None; img_name := Some (str "a.png");
                               img_image_base64 := Some (str "QQ==") |} ]] |}
  = [(str "a.png", {| image_data := str "QQ=="; image_format := str "png" |})].
Proof. reflexivity. Qed.

(** ** The reference rewriter *)

Section ReplaceLoop.
Variable Cap : Type.
Variable exec_at : option ascii -> jsstring -> option (Cap * jsstring * jsstring).
Variable replacer : jsstring -> Cap -> jsstring.

(** The expression cannot match the empty string, and has no lookbehind. *)
Hypothesis exec_shrinks :
  forall prev s cap matched rest,
    exec_at prev s = Some (cap, matched, rest) -> length rest < length s.
Hypothesis exec_no_lookbehind : forall prev s, exec_at prev s = exec_at None s.

Lemma replace_loop_fuel (fuel1 fuel2 : nat) (prev1 prev2 : option ascii) (s : jsstring) :
  length s < fuel1 -> length s < fuel2 ->
  replace_loop exec_at replacer fuel1 prev1 s = replace_loop exec_at replacer fuel2 prev2 s.
Proof.
  revert fuel2 prev1 prev2 s.
  induction fuel1 as [| fuel1 IH]; intros fuel2 prev1 prev2 s H1 H2; [lia |].
  destruct fuel2 as [| fuel2]; [lia |].
  cbn [replace_loop].
  rewrite (exec_no_lookbehind prev1), (exec_no_lookbehind prev2).
  destruct (exec_at None s) as [[[cap matched] rest] |] eqn:E.
  - apply exec_shrinks in E. f_equal. apply IH; lia.
  - destruct s as [| c s]; [reflexivity |]. f_equal. cbn [length] in *. apply IH; lia.
Qed.

(** The equation of the scan: enough fuel gives the result of the loop. *)
Lemma replace_regexp_eq (s : jsstring) :
  replace_regexp exec_at replacer s
  = match exec_at None s with
    | Some (cap, matched, rest) => replacer matched cap ++ replace_regexp exec_at replacer rest
    | None =>
        match s with
        | [] => []
        | c :: s' => c :: replace_regexp exec_at replacer s'
        end
    end.
Proof.
  unfold replace_regexp at 1. cbn [replace_loop].
  destruct (exec_at None s) as [[[cap matched] rest] |] eqn:E.
  - pose proof (exec_shrinks _ _ _ _ _ E). f_equal. apply replace_loop_fuel; lia.
  - destruct s as [| c s]; [reflexivity |]. f_equal. cbn [length].
    apply replace_loop_fuel; lia.
Qed.
End ReplaceLoop.

Lemma break_at_app (c : ascii) (s before after : jsstring) :
  break_at c s = Some (before, after) ->
  s = before ++ c :: after /\ break_at c before = None.
Proof.
  revert before after. induction s as [| a s IH]; intros before after H; [discriminate |].
  cbn [break_at] in H. destruct (Ascii.eqb a c) eqn:E.
  - apply Ascii.eqb_eq in E. subst a. injection H as <- <-. split; reflexivity.
  - destruct (break_at c s) as [[b r] |]; [| discriminate].
    injection H as <- <-. destruct (IH b r eq_refl) as [-> Hb].
    split; [reflexivity |]. cbn [break_at]. rewrite E, Hb. reflexivity.
Qed.

Lemma break_at_found (c : ascii) (before after : jsstring) :
  break_at c before = None -> break_at c (before ++ c :: after) = Some (before, after).
Proof.
  induction before as [| a before IH]; intros H; cbn [app break_at] in *.
  - rewrite Ascii.eqb_refl. reflexivity.
  - destruct (Ascii.eqb a c); [discriminate |].
    destruct (break_at c before) as [[b r] |]; [discriminate |].
    rewrite (IH eq_refl). reflexivity.
Qed.

Lemma break_at_none_app (c : ascii) (a b : jsstring) :
  break_at c (a ++ b) = None <-> break_at c a = None /\ break_at c b = None.
Proof.
  induction a as [| x a IH]; cbn [app break_at].
  - tauto.
  - destruct (Ascii.eqb x c); [split; [discriminate | intros [? _]; discriminate] |].
    destruct (break_at c (a ++ b)) as [[p r] |], (break_at c a) as [[p' r'] |].
    + split; [discriminate | intros [H _]; discriminate H].
    + split; [discriminate |]. intros H. apply IH in H. discriminate H.
    + split; [| intros [H _]; discriminate H].
      intros _. destruct (proj1 IH eq_refl) as [G _]. discriminate G.
    + split; [intros _; apply IH; reflexivity | reflexivity].
Qed.

Lemma break_at_length (c : ascii) (s before after : jsstring) :
  break_at c s = Some (before, after) -> length after < length s.
Proof.
  intros H. apply break_at_app in H. destruct H as [-> _].
  rewrite length_app. cbn [length]. lia.
Qed.

Lemma break_at_unique (c : ascii) (x y x' y' : jsstring) :
  break_at c x = None -> break_at c x' = None ->
  x ++ c :: y = x' ++ c :: y' -> x = x' /\ y = y'.
Proof.
  intros Hx Hx' E.
  pose proof (break_at_found c x y Hx) as F. rewrite E in F.
  rewrite (break_at_found c x' y' Hx') in F. injection F as -> ->. split; reflexivity.
Qed.

Lemma exec_image_shrinks (prev : option ascii) (s : jsstring) cap matched rest :
  exec_image prev s = Some (cap, matched, rest) -> length rest < length s.
Proof.
  unfold exec_image. destruct s as [| a [| b s1]]; try discriminate.
  destruct (Ascii.eqb a "!" && Ascii.eqb b "[")%bool; [| discriminate].
  destruct (break_at rbracket s1) as [[alt [| c s3]] |] eqn:E1; try discriminate.
  destruct (Ascii.eqb c lparen); [| discriminate].
  destruct (break_at rparen s3) as [[[| d src] r] |] eqn:E2; try discriminate.
  intros H. injection H as _ _ <-.
  apply break_at_length in E1, E2. cbn [length] in *. lia.
Qed.

Lemma exec_image_no_lookbehind (prev : option ascii) (s : jsstring) :
  exec_image prev s = exec_image None s.
Proof. reflexivity. Qed.

(** The equation of [processMarkdownImages]. *)
Lemma processMarkdownImages_eq (s p : jsstring) :
  processMarkdownImages s p
  = match exec_image None s with
    | Some (cap, matched, rest) => rewrite_image p matched cap ++ processMarkdownImages rest p
    | None =>
        match s with
        | [] => []
        | c :: s' => c :: processMarkdownImages s' p
        end
    end.
Proof.
  assert (E : forall t, processMarkdownImages t p
                        = replace_regexp exec_image (rewrite_image p) t).
  { intros [| c t]; reflexivity. }
  rewrite E, (replace_regexp_eq _ exec_image _ exec_image_shrinks exec_image_no_lookbehind).
  destruct (exec_image None s) as [[[cap matched] rest] |].
  - rewrite E. reflexivity.
  - destruct s as [| c s']; [reflexivity |]. rewrite E. reflexivity.
Qed.

Lemma exec_image_first (prev : option ascii) (c : ascii) (s : jsstring) :
  c <> "!"%char -> exec_image prev (c :: s) = None.
Proof.
  intros H. unfold exec_image. destruct s as [| b s1]; [reflexivity |].
  apply Ascii.eqb_neq in H. rewrite H. reflexivity.
Qed.

Lemma exec_image_second (prev : option ascii) (a c : ascii) (s : jsstring) :
  c <> "["%char -> exec_image prev (a :: c :: s) = None.
Proof.
  intros H. unfold exec_image. apply Ascii.eqb_neq in H. rewrite H, andb_false_r.
  reflexivity.
Qed.

Lemma exec_image_open (prev : option ascii) (s1 : jsstring) :
  exec_image prev ("!"%char :: "["%char :: s1)
  = match break_at rbracket s1 with
    | Some (alt, rest2) =>
        if closes rest2 then
          match rest2 with
          | _ :: s3 =>
              match break_at rparen s3 with
              | Some (src, rest) => Some ((alt, src), image_text alt src, rest)
              | None => None
              end
          | [] => None
          end
        else None
    | None => None
    end.
Proof.
  unfold exec_image, closes. cbn [Ascii.eqb Bool.eqb andb].
  destruct (break_at rbracket s1) as [[alt [| c s3]] |]; try reflexivity.
  destruct (Ascii.eqb c lparen); [| reflexivity]. cbn [andb].
  destruct (break_at rparen s3) as [[[| d src] r] |]; reflexivity.
Qed.

Lemma exec_image_fails (prev : option ascii) (s1 : jsstring) :
  exec_image prev ("!"%char :: "["%char :: s1) = None
  <-> match break_at rbracket s1 with
      | Some (_, rest2) => closes rest2 = false
      | None => True
      end.
Proof.
  rewrite exec_image_open.
  destruct (break_at rbracket s1) as [[alt rest2] |]; [| tauto].
  destruct (closes rest2) eqn:E; [| tauto].
  unfold closes in E. destruct rest2 as [| c s3]; [discriminate |].
  apply andb_true_iff in E. destruct E as [_ E].
  destruct (break_at rparen s3) as [[src r] |]; [| discriminate].
  split; discriminate.
Qed.

Lemma image_text_app (alt src rest : jsstring) :
  image_text alt src ++ rest
  = "!"%char :: "["%char :: alt ++ rbracket :: lparen :: src ++ rparen :: rest.
Proof.
  unfold image_text. cbn [str list_ascii_of_string app].
  rewrite <- app_assoc. cbn [app]. rewrite <- app_assoc. reflexivity.
Qed.

(** What a match looks like. *)
Lemma exec_image_some (prev : option ascii) (s : jsstring) alt src matched rest :
  exec_image prev s = Some ((alt, src), matched, rest) ->
  s = image_text alt src ++ rest /\ matched = image_text alt src
  /\ break_at rbracket alt = None /\ break_at rparen src = None /\ src <> [].
Proof.
  unfold exec_image. destruct s as [| a [| b s1]]; try discriminate.
  destruct (Ascii.eqb a "!") eqn:Ea; [| discriminate].
  destruct (Ascii.eqb b "[") eqn:Eb; [| discriminate]. cbn [andb].
  apply Ascii.eqb_eq in Ea, Eb. subst a b.
  destruct (break_at rbracket s1) as [[alt0 [| c s3]] |] eqn:E1; try discriminate.
  destruct (Ascii.eqb c lparen) eqn:Ec; [| discriminate].
  apply Ascii.eqb_eq in Ec. subst c.
  destruct (break_at rparen s3) as [[[| d src0] r] |] eqn:E2; try discriminate.
  intros H. injection H as <- <- <- <-.
  apply break_at_app in E1, E2. destruct E1 as [-> H1], E2 as [-> H2].
  repeat split; try assumption; try discriminate.
  symmetry. apply image_text_app.
Qed.

Lemma exec_image_text (prev : option ascii) (alt src rest : jsstring) :
  break_at rbracket alt = None -> break_at rparen src = None -> src <> [] ->
  exec_image prev (image_text alt src ++ rest)
  = Some ((alt, src), image_text alt src, rest).
Proof.
  intros H1 H2 H3.
  rewrite image_text_app, exec_image_open, (break_at_found _ _ _ H1).
  unfold closes. rewrite (break_at_found _ _ _ H2).
  destruct src as [| d src]; [congruence |]. reflexivity.
Qed.

Section Rewriter.
Variable p : jsstring.

(** The prefix has no closing parenthesis. *)
Hypothesis p_plain : break_at rparen p = None.

(** The replacement of a match is an image again, on which the replacer
    changes nothing. *)
Lemma rewrite_image_fixed (alt src : jsstring) :
  break_at rparen src = None -> src <> [] ->
  exists src',
    rewrite_image p (image_text alt src) (alt, src) = image_text alt src'
    /\ break_at rparen src' = None /\ src' <> []
    /\ rewrite_image p (image_text alt src') (alt, src') = image_text alt src'.
Proof.
  intros H N. unfold rewrite_image.
  destruct (negb (starts_with (str "http") src) && negb (starts_with (str "data:") src)
            && negb (starts_with p src))%bool eqn:E.
  - exists (p ++ src). split; [reflexivity |].
    split; [apply break_at_none_app; split; assumption |].
    split; [destruct p; [exact N | discriminate] |].
    rewrite starts_with_app, andb_false_r. reflexivity.
  - exists src. rewrite E. repeat split; assumption.
Qed.

Lemma rewrite_image_head (alt src matched : jsstring) :
  matched = image_text alt src ->
  exists t, rewrite_image p matched (alt, src) = "!"%char :: t.
Proof.
  intros ->. unfold rewrite_image.
  destruct (_ && _)%bool; eexists; reflexivity.
Qed.

Lemma rewriter_head (d : ascii) (s : jsstring) :
  exists t, processMarkdownImages (d :: s) p = d :: t.
Proof.
  rewrite processMarkdownImages_eq.
  destruct (exec_image None (d :: s)) as [[[[alt src] matched] rest] |] eqn:E.
  - apply exec_image_some in E. destruct E as [E [Em _]].
    rewrite image_text_app in E. injection E as -> _.
    destruct (rewrite_image_head alt src matched Em) as [t ->].
    eexists. reflexivity.
  - eexists. reflexivity.
Qed.

Lemma rewriter_other (c : ascii) (s : jsstring) :
  c <> "!"%char -> processMarkdownImages (c :: s) p = c :: processMarkdownImages s p.
Proof.
  intros H. rewrite processMarkdownImages_eq, (exec_image_first _ _ _ H). reflexivity.
Qed.

(** Without a character that every match holds, nothing is rewritten. *)
Lemma rewriter_without (c : ascii) (s : jsstring) :
  c = rbracket \/ c = rparen ->
  break_at c s = None -> processMarkdownImages s p = s.
Proof.
  intros Hc. induction s as [| a s IH]; intros H; [reflexivity |].
  rewrite processMarkdownImages_eq.
  destruct (exec_image None (a :: s)) as [[[[alt src] matched] rest] |] eqn:E.
  - exfalso. apply exec_image_some in E. destruct E as [E _].
    rewrite image_text_app in E. rewrite E in H.
    change ("!"%char :: "["%char :: alt ++ rbracket :: lparen :: src ++ rparen :: rest)
      with (("!"%char :: "["%char :: alt) ++ rbracket :: (lparen :: src) ++ rparen :: rest)
      in H.
    apply break_at_none_app in H. destruct H as [_ H].
    destruct Hc as [-> | ->].
    + cbn [break_at] in H. rewrite Ascii.eqb_refl in H. discriminate H.
    + change (rbracket :: (lparen :: src) ++ rparen :: rest)
        with ((rbracket :: lparen :: src) ++ rparen :: rest) in H.
      apply break_at_none_app in H. destruct H as [_ H].
      cbn [break_at] in H. rewrite Ascii.eqb_refl in H. discriminate H.
  - f_equal. apply IH. cbn [break_at] in H.
    destruct (Ascii.eqb a c); [discriminate |].
    destruct (break_at c s) as [[? ?] |]; [discriminate | reflexivity].
Qed.

(** No match starts in a text that runs to a closing bracket after which
    the expression fails. *)
Lemma rewriter_alt (alt rest2 : jsstring) :
  break_at rbracket alt = None -> closes rest2 = false ->
  processMarkdownImages (alt ++ rbracket :: rest2) p
  = alt ++ rbracket :: processMarkdownImages rest2 p.
Proof.
  intros H C. induction alt as [| a alt IH].
  - cbn [app]. apply rewriter_other. discriminate.
  - assert (Halt : break_at rbracket alt = None).
    { cbn [break_at] in H. destruct (Ascii.eqb a rbracket); [discriminate |].
      destruct (break_at rbracket alt) as [[? ?] |]; [discriminate | reflexivity]. }
    cbn [app]. rewrite processMarkdownImages_eq.
    destruct (exec_image None (a :: alt ++ rbracket :: rest2))
      as [[[[alt0 src] matched] rest] |] eqn:E.
    + exfalso. apply exec_image_some in E.
      destruct E as [E [_ [H0 [Hs Ns]]]]. rewrite image_text_app in E.
      injection E as -> E.
      destruct alt as [| b alt].
      * cbn [app] in E. discriminate E.
      * cbn [app] in E. injection E as -> E.
        assert (Hb : break_at rbracket alt = None).
        { cbn [break_at] in Halt. 
          destruct (break_at rbracket alt) as [[? ?] |]; [discriminate | reflexivity]. }
        destruct (break_at_unique _ _ _ _ _ Hb H0 E) as [_ ->].
        unfold closes in C. rewrite Ascii.eqb_refl, (break_at_found _ _ _ Hs) in C.
        destruct src; [congruence | discriminate C].
    + f_equal. apply IH, Halt.
Qed.

Lemma closes_rewriter (rest2 : jsstring) :
  closes rest2 = false -> closes (processMarkdownImages rest2 p) = false.
Proof.
  intros C. destruct rest2 as [| c s3]; [reflexivity |].
  destruct (Ascii.eqb c lparen) eqn:Ec.
  - apply Ascii.eqb_eq in Ec. subst c.
    rewrite rewriter_other by discriminate.
    unfold closes in *. rewrite Ascii.eqb_refl in *. cbn [andb] in *.
    destruct (break_at rparen s3) as [[[| d src] r] |] eqn:E; try discriminate C.
    + apply break_at_app in E. destruct E as [-> _]. cbn [app].
      rewrite rewriter_other by discriminate.
      cbn [break_at]. rewrite Ascii.eqb_refl. reflexivity.
    + rewrite (rewriter_without rparen s3 (or_intror eq_refl) E), E. reflexivity.
  - destruct (rewriter_head c s3) as [t ->]. unfold closes. rewrite Ec. reflexivity.
Qed.

(** Where the expression fails, it fails on the rewritten text. *)
Lemma exec_image_rewriter (c : ascii) (s : jsstring) :
  exec_image None (c :: s) = None ->
  exec_image None (c :: processMarkdownImages s p) = None.
Proof.
  intros H.
  destruct (ascii_dec c "!"%char) as [-> | Nc]; [| apply exec_image_first, Nc].
  destruct s as [| b s1]; [reflexivity |].
  destruct (ascii_dec b "["%char) as [-> | Nb].
  - rewrite rewriter_other by discriminate.
    apply exec_image_fails. apply exec_image_fails in H.
    destruct (break_at rbracket s1) as [[alt rest2] |] eqn:E.
    + apply break_at_app in E. destruct E as [-> Halt].
      rewrite (rewriter_alt _ _ Halt H), (break_at_found _ _ _ Halt).
      apply closes_rewriter, H.
    + rewrite (rewriter_without rbracket s1 (or_introl eq_refl) E), E. exact I.
  - destruct (rewriter_head b s1) as [t ->]. apply exec_image_second, Nb.
Qed.

Lemma rewriter_idempotent (m : jsstring) :
  processMarkdownImages (processMarkdownImages m p) p = processMarkdownImages m p.
Proof.
  remember (length m) as n eqn:En. revert m En.
  induction n as [n IH] using lt_wf_ind. intros m ->.
  rewrite (processMarkdownImages_eq m).
  destruct (exec_image None m) as [[[[alt src] matched] rest] |] eqn:E.
  - pose proof (exec_image_shrinks _ _ _ _ _ E) as L.
    apply exec_image_some in E. destruct E as [_ [-> [Ha [Hs Ns]]]].
    destruct (rewrite_image_fixed alt src Hs Ns) as [src' [-> [Hs' [Ns' F]]]].
    rewrite processMarkdownImages_eq, (exec_image_text _ _ _ _ Ha Hs' Ns'), F.
    f_equal. apply (IH (length rest) L rest eq_refl).
  - destruct m as [| c m]; [reflexivity |].
    rewrite processMarkdownImages_eq, (exec_image_rewriter _ _ E).
    f_equal. apply (IH (length m) (Nat.lt_succ_diag_r _) m eq_refl).
Qed.
End Rewriter.

(** C3, as amended.  The reference rewriter is idempotent for every prefix
    that has no closing parenthesis, the prefix [images/] of the program
    among them: rewriting twice gives what rewriting once gives. *)
Theorem processMarkdownImages_idempotent (m p : jsstring) :
  includes [rparen] p = false ->
  processMarkdownImages (processMarkdownImages m p) p = processMarkdownImages m p.
Proof.
  intros H. apply rewriter_idempotent.
  rewrite includes_break_at in H.
  destruct (break_at rparen p); [discriminate H | reflexivity].
Qed.

Lemma processMarkdownImages_idempotent_witness :
  includes [rparen] (str "images/") = false
  /\ processMarkdownImages
       (processMarkdownImages (str "![a](b) and ![c](http://d)") (str "images/"))
       (str "images/")
     = processMarkdownImages (str "![a](b) and ![c](http://d)") (str "images/").
Proof.
  split; [reflexivity |].
  apply (processMarkdownImages_idempotent (str "![a](b) and ![c](http://d)") (str "images/")).
  reflexivity.
Defined.

(** C3, as stated, fails for a prefix with a closing parenthesis: the
    second pass reads a shorter [src] and adds the prefix again. *)
Lemma processMarkdownImages_prefix_with_paren :
  processMarkdownImages (str "![a](b)") (str "x)") = str "![a](x)b)"
  /\ processMarkdownImages (processMarkdownImages (str "![a](b)") (str "x)")) (str "x)")
     = str "![a](x)x)b)"
  /\ processMarkdownImages (processMarkdownImages (str "![a](b)") (str "x)")) (str "x)")
     <> processMarkdownImages (str "![a](b)") (str "x)").
Proof. repeat split. vm_compute. discriminate. Qed.

(** ** The EPUB archive *)

Lemma files_set_other (o : ZipObject) (files : JSZip) :
  zip_name o <> str "mimetype" ->
  Forall (fun o' => zip_name o' <> str "mimetype") files ->
  Forall (fun o' => zip_name o' <> str "mimetype") (files_set o files).
Proof.
  intros N. induction 1 as [| o' files H' Hf IH]; cbn [files_set].
  - repeat constructor. exact N.
  - destruct (jsstring_eqb (zip_name o') (zip_name o)); constructor; assumption.
Qed.

Lemma files_set_kept (o : ZipObject) (zip : JSZip) :
  zip_name o <> str "mimetype" -> mimetype_kept zip -> mimetype_kept (files_set o zip).
Proof.
  intros N [rest [-> H]]. exists (files_set o rest). split.
  - cbn [files_set]. destruct (jsstring_eqb (zip_name mimetype_object) (zip_name o)) eqn:E.
    + apply jsstring_eqb_eq in E. exfalso. apply N. symmetry. exact E.
    + reflexivity.
  - apply files_set_other; assumption.
Qed.

Lemma folder_name (parent : jsstring) : parent ++ [slash] <> str "mimetype".
Proof.
  intros E. apply (f_equal (@rev ascii)) in E. rewrite rev_app_distr in E.
  cbn in E. discriminate E.
Qed.

Lemma force_trailing_slash_ends (path : jsstring) :
  exists q, force_trailing_slash path = q ++ [slash].
Proof.
  unfold force_trailing_slash. destruct (rev path) as [| c r] eqn:E.
  - exists path. reflexivity.
  - destruct (Ascii.eqb c slash) eqn:Ec; [| exists path; reflexivity].
    apply Ascii.eqb_eq in Ec. subst c. exists (rev r).
    rewrite <- (rev_involutive path), E. reflexivity.
Qed.

Lemma folder_not_mimetype (parent : jsstring) :
  force_trailing_slash parent <> str "mimetype".
Proof. destruct (force_trailing_slash_ends parent) as [q ->]. apply folder_name. Qed.

Lemma file_add_kept (fuel : nat) (name : jsstring) (data : ZipData)
    (compression : option Compression) (zip : JSZip) :
  name <> str "mimetype" -> mimetype_kept zip ->
  mimetype_kept (file_add fuel name data compression zip).
Proof.
  revert name data compression zip.
  induction fuel as [| fuel IH]; intros name data compression zip N K; cbn [file_add].
  - apply files_set_kept; assumption.
  - apply files_set_kept; [exact N |].
    destruct (parent_folder name) as [| c parent]; [exact K |].
    destruct (has_file _ zip); [exact K |].
    apply IH; [apply folder_not_mimetype | exact K].
Qed.

Lemma zip_file_kept (name : jsstring) (data : ZipData) (compression : option Compression)
    (zip : JSZip) :
  name <> str "mimetype" -> mimetype_kept zip ->
  mimetype_kept (zip_file name data compression zip).
Proof. apply file_add_kept. Qed.

Lemma add_images_kept (images : ImageMap) (zip : option JSZip) (result : JSZip) :
  fold_left add_image images zip = Some result ->
  exists zip0, zip = Some zip0 /\ (mimetype_kept zip0 -> mimetype_kept result).
Proof.
  revert zip. induction images as [| [id img] images IH]; intros zip H; cbn [fold_left] in H.
  - exists result. split; [exact H | tauto].
  - destruct (IH _ H) as [zip1 [E K]].
    unfold add_image in E. destruct zip as [zip0 |]; [| discriminate E].
    exists zip0. split; [reflexivity |].
    destruct (base64ToBytes _) as [bytes |]; [| discriminate E].
    injection E as <-. intros K0. apply K, zip_file_kept; [discriminate | exact K0].
Qed.

Lemma epub_package_kept (render : jsstring -> jsstring) (uuid iso markdown : jsstring)
    (images : ImageMap) (title : option jsstring) (zip : JSZip) :
  epub_package render uuid iso markdown images title = Some zip -> mimetype_kept zip.
Proof.
  unfold epub_package. intros H.
  destruct (add_images_kept _ _ _ H) as [zip0 [E K]]. injection E as E.
  apply K. rewrite <- E.
  repeat (apply zip_file_kept; [discriminate |]).
  exists []. split; [reflexivity | constructor].
Qed.

Lemma archive_entries_first (zip : JSZip) :
  mimetype_kept zip -> mimetype_first (archive_entries zip).
Proof.
  intros [rest [-> H]]. exists (archive_entries rest). split; [reflexivity |].
  unfold archive_entries. apply Forall_map. exact H.
Qed.

Lemma epub_package_documents (render : jsstring -> jsstring) (uuid iso markdown : jsstring)
    (images : ImageMap) (title : option jsstring) :
  epub_package render uuid iso markdown images title
  = fold_left add_image images (Some (epub_documents render uuid iso markdown images title)).
Proof. reflexivity. Qed.

Lemma add_under_failed (prefix : jsstring) (images : ImageMap) :
  fold_left (add_under prefix) images None = None.
Proof. induction images as [| e images IH]; [reflexivity | exact IH]. Qed.

Lemma add_under_none (prefix : jsstring) (images : ImageMap) (zip : JSZip) :
  fold_left (add_under prefix) images (Some zip) = None <-> undecodable images.
Proof.
  revert zip. induction images as [| [id img] images IH]; intros zip; cbn [fold_left].
  - split; [discriminate | intros [i [g [[] _]]]].
  - unfold add_under at 2. cbn [fst snd].
    destruct (base64ToBytes (image_data img)) as [bytes |] eqn:E.
    + rewrite IH. split.
      * intros [i [g [Hin Hd]]]. exists i, g. split; [right; exact Hin | exact Hd].
      * intros [i [g [[Hin | Hin] Hd]]].
        -- injection Hin as <- <-. rewrite E in Hd. discriminate Hd.
        -- exists i, g. split; assumption.
    + rewrite add_under_failed. split; [| reflexivity].
      intros _. exists id, img. split; [left; reflexivity | exact E].
Qed.

Lemma epub_package_fails (render : jsstring -> jsstring)
    (uuid iso markdown : jsstring) (images : ImageMap) (title : option jsstring) :
  epub_package render uuid iso markdown images title = None <-> undecodable images.
Proof. rewrite epub_package_documents. apply (add_under_none (str "OEBPS/images/")). Qed.

(** C4.  In either variant of the source, every archive that is written
    from a result of [generateEPUB] has as its first entry the one named
    [mimetype], stored without compression and holding exactly
    [application/epub+zip], and no other entry has that name; and
    [generateEPUB] does give an archive, in both variants, whenever the
    data of every image decode. *)
Theorem generateEPUB_mimetype_first
    (marked_parse : jsstring -> jsstring) (MathJax : MathEngine)
    (randomUUID toISOString markdown : jsstring) (images : ImageMap)
    (title : option jsstring) :
  (forall zip,
     SvgFirst.generateEPUB marked_parse MathJax randomUUID toISOString markdown images title
     = Some zip ->
     mimetype_first (archive_entries zip))
  /\ (forall zip,
        Protected.generateEPUB marked_parse MathJax randomUUID toISOString markdown images
          title = Some zip ->
        mimetype_first (archive_entries zip))
  /\ (~ undecodable images ->
      (exists zip,
         SvgFirst.generateEPUB marked_parse MathJax randomUUID toISOString markdown images
           title = Some zip)
      /\ (exists zip,
            Protected.generateEPUB marked_parse MathJax randomUUID toISOString markdown
              images title = Some zip)).
Proof.
  split; [| split].
  - intros zip H. apply archive_entries_first. exact (epub_package_kept _ _ _ _ _ _ _ H).
  - intros zip H. apply archive_entries_first. exact (epub_package_kept _ _ _ _ _ _ _ H).
  - intros D. unfold SvgFirst.generateEPUB, Protected.generateEPUB. split.
    + destruct (epub_package (SvgFirst.markdownToHtml marked_parse MathJax) randomUUID
                  toISOString markdown images title) as [zip |] eqn:E.
      * exists zip. reflexivity.
      * exfalso. apply D. exact (proj1 (epub_package_fails _ _ _ _ _ _) E).
    + destruct (epub_package (Protected.renderContent marked_parse MathJax) randomUUID
                  toISOString markdown images title) as [zip |] eqn:E.
      * exists zip. reflexivity.
      * exfalso. apply D. exact (proj1 (epub_package_fails _ _ _ _ _ _) E).
Qed.

Lemma generateEPUB_mimetype_first_witness :
  SvgFirst.generateEPUB marked_paragraph throwing_engine (str "0000")
    (str "2024-01-01T00:00:00.000Z") (str "![a](img-0.jpeg) and $x$") sample_images None
  = Some sample_epub_first
  /\ mimetype_first (archive_entries sample_epub_first)
  /\ Protected.generateEPUB marked_paragraph None (str "0000")
       (str "2024-01-01T00:00:00.000Z") (str "![a](img-0.jpeg)") sample_images None
     = Some sample_epub
  /\ mimetype_first (archive_entries sample_epub)
  /\ ~ undecodable sample_images
  /\ exists zip,
       SvgFirst.generateEPUB marked_paragraph None (str "0000")
         (str "2024-01-01T00:00:00.000Z") (str "![a](img-0.jpeg)") sample_images None
       = Some zip.
Proof.
  assert (D : ~ undecodable sample_images).
  { intros [id [img [[E | []] F]]]. injection E as <- <-. discriminate F. }
  assert (H1 : SvgFirst.generateEPUB marked_paragraph throwing_engine (str "0000")
                 (str "2024-01-01T00:00:00.000Z") (str "![a](img-0.jpeg) and $x$")
                 sample_images None
               = Some sample_epub_first) by reflexivity.
  assert (H2 : Protected.generateEPUB marked_paragraph None (str "0000")
                 (str "2024-01-01T00:00:00.000Z") (str "![a](img-0.jpeg)") sample_images None
               = Some sample_epub) by reflexivity.
  split; [exact H1 |]. split.
  - exact (proj1 (generateEPUB_mimetype_first marked_paragraph throwing_engine (str "0000")
                    (str "2024-01-01T00:00:00.000Z") (str "![a](img-0.jpeg) and $x$")
                    sample_images None) sample_epub_first H1).
  - split; [exact H2 |]. split; [| split; [exact D |]].
    + exact (proj1 (proj2 (generateEPUB_mimetype_first marked_paragraph None (str "0000")
                             (str "2024-01-01T00:00:00.000Z") (str "![a](img-0.jpeg)")
                             sample_images None)) sample_epub H2).
    + exact (proj1 (proj2 (proj2 (generateEPUB_mimetype_first marked_paragraph None
                                    (str "0000") (str "2024-01-01T00:00:00.000Z")
                                    (str "![a](img-0.jpeg)") sample_images None)) D)).
Defined.

(** ** The fallback of the math protector *)

(** C1 fails on the second variant of the source.  Without a math engine
    [restoreLatexAsSvg] returns at once, so the placeholder tokens stay in
    the body of the document and the dollar-delimited source is lost; when
    the engine throws on a display expression, the replacement text [$$...$$]
    is read by [String.prototype.replace] as a pattern, and the expression
    comes back between single dollar signs.  The first variant of the
    source gives the original text in both cases. *)
Theorem math_fallback_loses_source :
  (forall (marked_parse : jsstring -> jsstring) (markdown : jsstring),
     Protected.renderContent marked_parse None markdown
     = marked_parse (fst (Protected.extractLatexBlocks markdown)))
  /\ (forall marked_parse : jsstring -> jsstring,
        Protected.renderContent marked_parse None (str "$$x$$")
        = marked_parse (str "%%LATEX_DISPLAY_0%%"))
  /\ Protected.renderContent marked_paragraph None (str "$$x$$ and $y$")
     = str "<p>%%LATEX_DISPLAY_0%% and %%LATEX_INLINE_1%%</p>" ++ [nl]
  /\ includes (str "%%LATEX_DISPLAY_0%%")
       (Protected.generateHTML marked_paragraph None (str "$$x$$") None) = true
  /\ includes (str "$$x$$")
       (Protected.generateHTML marked_paragraph None (str "$$x$$") None) = false
  /\ Protected.renderContent marked_paragraph throwing_engine (str "$$\badcommand$$")
     = str "<p>$\badcommand$</p>" ++ [nl]
  /\ SvgFirst.markdownToHtml marked_paragraph None (str "$$x$$ and $y$")
     = str "<p>$$x$$ and $y$</p>" ++ [nl]
  /\ SvgFirst.markdownToHtml marked_paragraph throwing_engine (str "$$\badcommand$$")
     = str "<p>$$\badcommand$$</p>" ++ [nl].
Proof.
  split.
  - intros marked_parse markdown. unfold Protected.renderContent.
    destruct (Protected.extractLatexBlocks markdown) as [safeMarkdown blocks].
    reflexivity.
  - repeat split; vm_compute; reflexivity.
Qed.

(* ===================================================================== *)
(** * Further properties of the code                                      *)
(* ===================================================================== *)

(** ** The type of a file *)

Lemma jsstring_eq_dec (a b : jsstring) : {a = b} + {a <> b}.
Proof. apply list_eq_dec, ascii_dec. Qed.

Lemma existsb_jsstring (e : jsstring) (l : list jsstring) :
  existsb (jsstring_eqb e) l = true <-> In e l.
Proof.
  rewrite existsb_exists. split.
  - intros [x [Hx E]]. apply jsstring_eqb_eq in E. subst x. exact Hx.
  - intros H. exists e. split; [exact H | apply jsstring_eqb_refl].
Qed.

Lemma map_get_none (V : Type) (k : jsstring) (m : JsMap V) :
  ~ In k (map fst m) -> map_get k m = None.
Proof.
  induction m as [| [k0 v0] m IH]; intros H; [reflexivity |].
  cbn [map_get]. destruct (jsstring_eqb k0 k) eqn:E.
  - apply jsstring_eqb_eq in E. subst k0. exfalso. apply H. left. reflexivity.
  - apply IH. intros G. apply H. right. exact G.
Qed.

Lemma to_lower_unit_idempotent (c : ascii) :
  to_lower_unit (to_lower_unit c) = to_lower_unit c.
Proof.
  destruct c as [[] [] [] [] [] [] [] []]; reflexivity.
Qed.

Lemma to_lower_unit_dot (c : ascii) : to_lower_unit c = dot -> c = dot.
Proof.
  destruct c as [[] [] [] [] [] [] [] []]; vm_compute; intros H;
    solve [reflexivity | discriminate H].
Qed.

Lemma toLowerCase_idempotent (s : jsstring) : toLowerCase (toLowerCase s) = toLowerCase s.
Proof.
  unfold toLowerCase. rewrite map_map. apply map_ext, to_lower_unit_idempotent.
Qed.

Lemma toLowerCase_no_dot (s : jsstring) :
  break_at dot s = None -> break_at dot (toLowerCase s) = None.
Proof.
  induction s as [| c s IH]; intros H; [reflexivity |].
  cbn [break_at toLowerCase map] in *.
  destruct (Ascii.eqb c dot) eqn:E; [discriminate H |].
  destruct (break_at dot s) as [[? ?] |]; [discriminate H |].
  destruct (Ascii.eqb (to_lower_unit c) dot) eqn:E'.
  - apply Ascii.eqb_eq, to_lower_unit_dot in E'. subst c.
    rewrite Ascii.eqb_refl in E. discriminate E.
  - fold (toLowerCase s). rewrite (IH eq_refl). reflexivity.
Qed.

Lemma split_char_nonempty (c : ascii) (s : jsstring) : split_char c s <> [].
Proof.
  destruct s as [| a s]; [discriminate |]. cbn [split_char].
  destruct (Ascii.eqb a c); [discriminate |].
  destruct (split_char c s); discriminate.
Qed.

Lemma split_char_app (c : ascii) (a b : jsstring) :
  split_char c (a ++ c :: b) = split_char c a ++ split_char c b.
Proof.
  induction a as [| x a IH]; cbn [app split_char].
  - rewrite Ascii.eqb_refl. reflexivity.
  - destruct (Ascii.eqb x c); [rewrite IH; reflexivity |].
    rewrite IH. pose proof (split_char_nonempty c a) as N.
    destruct (split_char c a) as [| seg segs]; [congruence | reflexivity].
Qed.

Lemma last_app_nonempty (A : Type) (l1 l2 : list A) (d : A) :
  l2 <> [] -> last (l1 ++ l2) d = last l2 d.
Proof.
  intros N. induction l1 as [| x l1 IH]; [reflexivity |].
  cbn [app]. destruct (l1 ++ l2) as [| y l] eqn:E.
  - destruct l1; [cbn in E; congruence | discriminate E].
  - cbn [last] in *. exact IH.
Qed.

(** The extension is the text after the last dot, in lower case. *)
Lemma getExt_last_segment (base ext : jsstring) :
  break_at dot ext = None ->
  getExt {| file_name := base ++ dot :: ext |} = toLowerCase ext.
Proof.
  intros H. unfold getExt. cbn [file_name].
  rewrite split_char_app, last_app_nonempty by apply split_char_nonempty.
  rewrite split_char_break_at, H. reflexivity.
Qed.


Lemma image_ext_mime (e : jsstring) :
  existsb (jsstring_eqb e) IMAGE_EXTS = true
  <-> exists m, match object_get MIME_TYPES e with
                | Some (VString []) => VString (str "application/octet-stream")
                | Some v => v
                | None => VString (str "application/octet-stream")
                end = VString m
                /\ starts_with (str "image/") m = true.
Proof.
  destruct (in_dec jsstring_eq_dec e (map fst MIME_TYPES)) as [Hin | Hout].
  - cbn in Hin.
    repeat (destruct Hin as [<- | Hin];
            [split; [intros H; try discriminate H; eexists; split; reflexivity
                    | intros [m [E S]]; vm_compute in E; injection E as <-;
                      try discriminate S; reflexivity] |]).
    contradiction.
  - split.
    + intros H. apply existsb_jsstring in H. exfalso. apply Hout.
      cbn in H. cbn. tauto.
    + intros [m [E S]]. unfold object_get in E. rewrite (map_get_none _ _ _ Hout) in E.
      destruct (existsb (jsstring_eqb e) object_prototype_keys); [discriminate E |].
      injection E as <-. discriminate S.
Qed.

(** X1.  A file is sent as an image exactly when its MIME type is a string
    that starts with [image/]: the set of image extensions and the table of
    MIME types agree. *)
Theorem document_type_agrees_with_mime (file : File) :
  getDocumentType file = str "image_url"
  <-> exists m, getMimeType file = VString m /\ starts_with (str "image/") m = true.
Proof.
  unfold getDocumentType, getMimeType. rewrite <- image_ext_mime.
  destruct (existsb (jsstring_eqb (getExt file)) IMAGE_EXTS); split;
    solve [reflexivity | discriminate].
Qed.

(** X2.  The type of a file depends only on the text after the last dot of
    its name, whatever the case of its letters. *)
Theorem file_type_by_extension (base base' ext : jsstring) :
  includes [dot] ext = false ->
  getExt {| file_name := base ++ dot :: ext |} = toLowerCase ext
  /\ getMimeType {| file_name := base ++ dot :: ext |}
     = getMimeType {| file_name := base' ++ dot :: toLowerCase ext |}
  /\ getDocumentType {| file_name := base ++ dot :: ext |}
     = getDocumentType {| file_name := base' ++ dot :: toLowerCase ext |}.
Proof.
  intros H. rewrite includes_break_at in H.
  assert (N : break_at dot ext = None) by (destruct (break_at dot ext); [discriminate | reflexivity]).
  pose proof (getExt_last_segment base ext N) as E1.
  pose proof (getExt_last_segment base' _ (toLowerCase_no_dot _ N)) as E2.
  rewrite toLowerCase_idempotent in E2.
  unfold getMimeType, getDocumentType. rewrite E1, E2. repeat split.
Qed.

Lemma file_type_by_extension_witness :
  includes [dot] (str "PDF") = false
  /\ getMimeType {| file_name := str "Report.v2" ++ dot :: str "PDF" |}
     = getMimeType {| file_name := str "x" ++ dot :: toLowerCase (str "PDF") |}.
Proof.
  split; [reflexivity |].
  apply (file_type_by_extension (str "Report.v2") (str "x") (str "PDF")). reflexivity.
Defined.

Lemma mime_values_plain :
  Forall (fun kv : jsstring * jsstring => snd kv <> [] /\ includes [comma] (snd kv) = false)
         MIME_TYPES.
Proof. repeat constructor; discriminate. Qed.

Lemma map_get_in (V : Type) (k : jsstring) (v : V) (m : JsMap V) :
  map_get k m = Some v -> In (k, v) m.
Proof.
  induction m as [| [k0 v0] m IH]; [discriminate |]. cbn [map_get].
  destruct (jsstring_eqb k0 k) eqn:E.
  - apply jsstring_eqb_eq in E. subst k0. intros H. injection H as <-. left. reflexivity.
  - intros H. right. apply IH, H.
Qed.

Lemma getMimeType_cases (file : File) :
  (exists m, getMimeType file = VString m /\ m <> [] /\ includes [comma] m = false)
  \/ (getMimeType file = VPrototype (getExt file)
      /\ (getExt file = str "constructor" \/ getExt file = str "__proto__")).
Proof.
  assert (L : toLowerCase (getExt file) = getExt file)
    by (unfold getExt; apply toLowerCase_idempotent).
  unfold getMimeType. revert L. generalize (getExt file) as e. intros e L.
  unfold object_get. destruct (map_get e MIME_TYPES) as [v |] eqn:E.
  - left. apply map_get_in in E.
    pose proof mime_values_plain as F. rewrite Forall_forall in F.
    destruct (F _ E) as [N C]. cbn [snd] in *.
    exists v. destruct v; [congruence |]. repeat split; assumption.
  - destruct (existsb (jsstring_eqb e) object_prototype_keys) eqn:K.
    + right. split; [reflexivity |]. apply existsb_jsstring in K. cbn in K.
      repeat (destruct K as [<- | K];
              [first [left; reflexivity | right; reflexivity | discriminate L] |]).
      contradiction.
    + left. eexists. repeat split; discriminate.
Qed.

Lemma mime_table_get (e m : jsstring) :
  In (e, m) MIME_TYPES -> map_get e MIME_TYPES = Some m.
Proof.
  unfold MIME_TYPES. cbn [In]. intros H.
  repeat (destruct H as [H | H]; [injection H as <- <-; reflexivity |]).
  contradiction.
Qed.

Lemma map_get_absent (V : Type) (k : jsstring) (m : JsMap V) :
  ~ In k (map fst m) -> map_get k m = None.
Proof.
  induction m as [| [k0 v0] m IH]; intros H; [reflexivity |].
  cbn [map_get]. destruct (jsstring_eqb k0 k) eqn:E.
  - apply jsstring_eqb_eq in E. exfalso. apply H. left. exact E.
  - apply IH. intros G. apply H. right. exact G.
Qed.

(** X3.  What [getMimeType] returns, by the extension of the name: for an
    extension of the table, the MIME type that the table gives it; for the
    extensions [constructor] and [__proto__], the member of
    [Object.prototype] that the lookup in the table finds, which is not a
    string; for every other extension, [application/octet-stream].  A
    string that it returns is not empty and has no comma. *)
Theorem getMimeType_values (file : File) :
  (forall m, In (getExt file, m) MIME_TYPES -> getMimeType file = VString m)
  /\ (getExt file = str "constructor" \/ getExt file = str "__proto__" ->
      getMimeType file = VPrototype (getExt file))
  /\ (~ In (getExt file) (map fst MIME_TYPES) ->
      getExt file <> str "constructor" -> getExt file <> str "__proto__" ->
      getMimeType file = VString (str "application/octet-stream"))
  /\ (forall m, getMimeType file = VString m -> m <> [] /\ includes [comma] m = false).
Proof.
  split; [| split; [| split]].
  - intros m H. unfold getMimeType, object_get. rewrite (mime_table_get _ _ H).
    pose proof mime_values_plain as F. rewrite Forall_forall in F.
    destruct (F _ H) as [N _]. cbn [snd] in N. destruct m; [congruence | reflexivity].
  - intros [E | E]; unfold getMimeType; rewrite E; reflexivity.
  - intros A N1 N2.
    destruct (getMimeType_cases file) as [[m [E _]] | [_ [E | E]]]; [| congruence ..].
    unfold getMimeType, object_get in *. rewrite (map_get_absent _ _ _ A) in *.
    destruct (existsb (jsstring_eqb (getExt file)) object_prototype_keys) eqn:K;
      [discriminate E | reflexivity].
  - intros m H.
    destruct (getMimeType_cases file) as [[m' [E [N C]]] | [E _]];
      rewrite E in H; [injection H as <-; split; assumption | discriminate H].
Qed.

Lemma getMimeType_values_witness :
  getMimeType {| file_name := str "Scan.PDF" |} = VString (str "application/pdf")
  /\ getMimeType {| file_name := str "x.constructor" |} = VPrototype (str "constructor")
  /\ getMimeType {| file_name := str "notes.xyz" |} = VString (str "application/octet-stream").
Proof.
  split; [| split].
  - apply (proj1 (getMimeType_values {| file_name := str "Scan.PDF" |})).
    cbn. tauto.
  - apply (proj1 (proj2 (getMimeType_values {| file_name := str "x.constructor" |}))).
    left. reflexivity.
  - apply (proj1 (proj2 (proj2 (getMimeType_values {| file_name := str "notes.xyz" |})))).
    + cbn. intuition discriminate.
    + discriminate.
    + discriminate.
Defined.

(** ** Base64 and data URLs *)

Lemma break_at_none_includes (c : ascii) (s : jsstring) :
  includes [c] s = false -> break_at c s = None.
Proof.
  rewrite includes_break_at. destruct (break_at c s); [discriminate | reflexivity].
Qed.

(** The text that [base64ToBytes] hands to [atob]. *)
Lemma base64_data (s : jsstring) :
  (if includes [comma] s then nth 1 (split_char comma s) [] else s) = payload s.
Proof.
  unfold payload. rewrite includes_break_at, split_char_break_at.
  destruct (break_at comma s) as [[before after] |]; [| reflexivity].
  cbn [nth]. rewrite split_char_break_at.
  destruct (break_at comma after) as [[segment rest] |]; reflexivity.
Qed.

Lemma payload_dataUrl (mimeType data : jsstring) :
  includes [comma] mimeType = false -> includes [comma] data = false ->
  payload (dataUrl mimeType data) = data.
Proof.
  intros Hm Hd. unfold payload, dataUrl.
  replace (str "data:" ++ mimeType ++ str ";base64," ++ data)
    with ((str "data:" ++ mimeType ++ str ";base64") ++ comma :: data)
    by (cbn [str list_ascii_of_string app]; rewrite <- !app_assoc; reflexivity).
  rewrite break_at_found.
  - rewrite (break_at_none_includes _ _ Hd). reflexivity.
  - change (str "data:" ++ mimeType ++ str ";base64")
      with (str "data:" ++ (mimeType ++ str ";base64")).
    apply break_at_none_app. split; [reflexivity |].
    apply break_at_none_app. split; [apply break_at_none_includes, Hm | reflexivity].
Qed.

(** X4.  The data URL that [performOCR] builds for a file decodes back to
    the bytes of the file, whenever the MIME type of the file is a string. *)
Theorem data_url_round_trip (file : File) (mimeType : jsstring) (bytes : list Byte.byte) :
  getMimeType file = VString mimeType ->
  base64ToBytes (dataUrl mimeType (fileToBase64 bytes)) = Some bytes.
Proof.
  intros H.
  assert (C : includes [comma] mimeType = false).
  { destruct (getMimeType_cases file) as [[m [E [_ C]]] | [E _]].
    - rewrite H in E. injection E as ->. exact C.
    - rewrite H in E. discriminate E. }
  unfold base64ToBytes. rewrite base64_data.
  unfold fileToBase64. rewrite payload_dataUrl by (exact C || apply btoa_no_comma).
  rewrite atob_btoa, binary_string. cbn [app option_map].
  rewrite map_map. f_equal.
  rewrite <- (map_id bytes) at 2. apply map_ext. intros x. apply byte_of_ascii_of_byte.
Qed.

Lemma data_url_round_trip_witness :
  getMimeType {| file_name := str "scan.png" |} = VString (str "image/png")
  /\ base64ToBytes (dataUrl (str "image/png") (fileToBase64 [Byte.x89; Byte.x50]))
     = Some [Byte.x89; Byte.x50].
Proof.
  split; [reflexivity |].
  apply (data_url_round_trip {| file_name := str "scan.png" |}). reflexivity.
Defined.

Lemma sextets_length (l : list N) :
  length (sextets l) + length (padding (length l)) = 4 * ((length l + 2) / 3).
Proof.
  induction l as [| a | a b | a b c r IH] using list_ind3; try reflexivity.
  cbn [sextets length]. rewrite padding_step.
  replace (S (S (S (length r))) + 2) with ((length r + 2) + 1 * 3) by lia.
  rewrite Nat.div_add by discriminate. lia.
Qed.

(** X5.  The text that [fileToBase64] makes of n bytes has 4 * ceil(n / 3)
    code units, each one a digit of the base64 alphabet or the sign [=]. *)
Theorem fileToBase64_shape (bytes : list Byte.byte) :
  length (fileToBase64 bytes) = 4 * ((length bytes + 2) / 3)
  /\ Forall (fun c => b64_index c <> None \/ c = eq_sign) (fileToBase64 bytes).
Proof.
  unfold fileToBase64, btoa. rewrite binary_string. cbn [app]. split.
  - rewrite length_app, (length_map b64_char).
    replace (length (map ascii_of_byte bytes))
      with (length (map N_of_ascii (map ascii_of_byte bytes)))
      by (rewrite length_map; reflexivity).
    rewrite sextets_length, !length_map. reflexivity.
  - apply Forall_app. split.
    + pose proof (sextets_below _ (below_codes (map ascii_of_byte bytes))) as B.
      induction B as [| n l Hn _ IH]; constructor; [| exact IH].
      left. destruct (b64_char_facts n Hn) as [-> _]. discriminate.
    + unfold padding. destruct (Nat.modulo _ 3) as [| [| [| k]]];
        repeat constructor; right; reflexivity.
Qed.

Lemma all_index_invalid (c : ascii) (s : jsstring) :
  In c s -> b64_index c = None -> all_index s = None.
Proof.
  intros Hin Hc. induction s as [| a s IH]; [contradiction |].
  cbn [all_index]. destruct Hin as [-> | Hin].
  - rewrite Hc. reflexivity.
  - rewrite (IH Hin). destruct (b64_index a); reflexivity.
Qed.

Lemma strip_padding_keeps (c : ascii) (s : jsstring) :
  In c s -> c <> eq_sign -> In c (strip_padding s).
Proof.
  intros Hin Hc. unfold strip_padding.
  destruct (Nat.eqb (Nat.modulo (length s) 4) 0); [| exact Hin].
  destruct (rev s) as [| a [| b r]] eqn:E; try exact Hin.
  assert (Hr : In c (a :: b :: r)) by (rewrite <- E; apply in_rev in Hin; exact Hin).
  destruct (Ascii.eqb a eq_sign) eqn:Ea; [| exact Hin].
  apply Ascii.eqb_eq in Ea. subst a.
  destruct Hr as [Hr | Hr]; [congruence |].
  destruct (Ascii.eqb b eq_sign) eqn:Eb.
  - apply Ascii.eqb_eq in Eb. subst b.
    destruct Hr as [Hr | Hr]; [congruence |]. apply in_rev in Hr. exact Hr.
  - apply in_rev in Hr. exact Hr.
Qed.

(** X6.  [base64ToBytes] throws when the text that it decodes has a code
    unit that is neither a digit of the alphabet, nor white space, nor the
    sign [=].  The text that it decodes is [payload s]: the whole input when
    it has no comma, and else the text between its first comma and its
    second one, or the end of the input when there is no second comma. *)
Theorem base64ToBytes_invalid (s : jsstring) (c : ascii) :
  In c (payload s) ->
  b64_index c = None -> is_ascii_whitespace c = false -> c <> eq_sign ->
  base64ToBytes s = None.
Proof.
  intros Hin Hc Hw He. unfold base64ToBytes. rewrite base64_data. unfold atob.
  destruct (Nat.eqb _ 1); [reflexivity |].
  rewrite (all_index_invalid c); [reflexivity | | exact Hc].
  apply strip_padding_keeps; [| exact He].
  apply filter_In. split; [exact Hin |]. rewrite Hw. reflexivity.
Qed.

Lemma base64ToBytes_invalid_witness :
  In "*"%char (payload (str "data:text/plain;base64,QU*D"))
  /\ base64ToBytes (str "data:text/plain;base64,QU*D") = None.
Proof.
  assert (H : In "*"%char (payload (str "data:text/plain;base64,QU*D"))).
  { right; right; left; reflexivity. }
  split; [exact H |].
  apply (base64ToBytes_invalid _ "*"%char H); [reflexivity | reflexivity | discriminate].
Defined.

(** ** Escaping *)

Lemma exec_literal_shrinks (p : jsstring) (prev : option ascii) (s : jsstring)
    cap matched rest :
  exec_literal p prev s = Some (cap, matched, rest) -> length rest < length s.
Proof.
  unfold exec_literal. destruct p as [| a p]; [discriminate |].
  destruct (starts_with (a :: p) s) eqn:E; [| discriminate].
  intros H. injection H as _ _ <-.
  apply starts_with_iff in E. destruct E as [r ->].
  cbn [app length]. rewrite length_skipn. lia.
Qed.

(** The equation of [replace_all]. *)
Lemma replace_all_eq (p r s : jsstring) :
  replace_all p r s
  = match exec_literal p None s with
    | Some (_, _, rest) => r ++ replace_all p r rest
    | None => match s with
              | [] => []
              | c :: s' => c :: replace_all p r s'
              end
    end.
Proof.
  unfold replace_all.
  rewrite (replace_regexp_eq _ (exec_literal p) _ (exec_literal_shrinks p)
             (fun prev s => eq_refl)) at 1.
  destruct (exec_literal p None s) as [[[cap matched] rest] |]; reflexivity.
Qed.

(** Replacing every occurrence of one code unit is a map over the text. *)
Lemma replace_all_unit (c : ascii) (r s : jsstring) :
  replace_all [c] r s = flat_map (fun x => if Ascii.eqb x c then r else [x]) s.
Proof.
  induction s as [| x s IH]; [reflexivity |].
  rewrite replace_all_eq. cbn [exec_literal starts_with length skipn flat_map].
  rewrite andb_true_r, (Ascii.eqb_sym c x).
  destruct (Ascii.eqb x c); rewrite IH; reflexivity.
Qed.

Lemma flat_map_comp (A B C : Type) (f : A -> list B) (g : B -> list C) (l : list A) :
  flat_map g (flat_map f l) = flat_map (fun x => flat_map g (f x)) l.
Proof.
  induction l as [| x l IH]; [reflexivity |].
  cbn [flat_map]. rewrite flat_map_app, IH. reflexivity.
Qed.

Lemma escapeXML_flat_map (s : jsstring) : escapeXML (Some s) = flat_map xml_entity s.
Proof.
  unfold escapeXML.
  assert (E : replace_all (str "'") (str "&apos;")
                (replace_all [dq] (str "&quot;")
                   (replace_all (str ">") (str "&gt;")
                      (replace_all (str "<") (str "&lt;")
                         (replace_all (str "&") (str "&amp;") s))))
              = flat_map xml_entity s).
  { change (str "'") with ["'"%char]. change (str ">") with [">"%char].
    change (str "<") with ["<"%char]. change (str "&") with ["&"%char].
    rewrite !replace_all_unit, !flat_map_comp.
    apply flat_map_ext. intros c.
    destruct c as [[] [] [] [] [] [] [] []]; reflexivity. }
  destruct s as [| c s]; [reflexivity | exact E].
Qed.

(** X7.  [escapeXML] acts on each code unit by itself: the five named
    entities for the ampersand, the angle brackets and the two quotes, and
    every other code unit unchanged.  The order of its five replacements
    escapes nothing twice.  An absent or empty text gives the empty text. *)
Theorem escapeXML_by_unit :
  (forall s : jsstring, escapeXML (Some s) = flat_map xml_entity s)
  /\ escapeXML None = [].
Proof. split; [exact escapeXML_flat_map | reflexivity]. Qed.

(** X8.  No character of markup survives [escapeXML]: the escaped text has
    no angle bracket and no quote. *)
Theorem escapeXML_no_markup (s : option jsstring) :
  Forall (fun c => is_markup c = false) (escapeXML s).
Proof.
  destruct s as [s |]; [| constructor].
  rewrite escapeXML_flat_map. induction s as [| c s IH]; [constructor |].
  cbn [flat_map]. apply Forall_app. split; [| exact IH].
  destruct c as [[] [] [] [] [] [] [] []]; repeat constructor.
Qed.

(** ** Tables without a placeholder *)

Lemma find_first_none (p s : jsstring) : includes p s = false -> find_first p s = None.
Proof.
  induction s as [| c s IH]; intros H; rewrite find_first_eq.
  - cbn [includes] in H. rewrite orb_false_r in H. rewrite H. reflexivity.
  - apply includes_cons_false in H. destruct H as [H1 H2].
    rewrite H1, (IH H2). reflexivity.
Qed.

Lemma inline_table_absent (markdown : jsstring) (t : TableRef) :
  placeholder_absent markdown t -> inline_table markdown t = markdown.
Proof.
  intros H. unfold inline_table.
  destruct (table_id t) as [id |] eqn:E; [| reflexivity].
  destruct (truthy (Some id) && truthy (table_content t))%bool; [| reflexivity].
  unfold replace_string. cbn [or_empty]. rewrite (find_first_none _ _ (H id E)).
  reflexivity.
Qed.

(** X9.  Where no placeholder link of the tables occurs in the markdown,
    [inlineTableContent] returns the markdown as it is; so does it for an
    absent or empty table list and for an empty markdown. *)
Theorem inlineTableContent_without_placeholder (markdown : jsstring) (tables : list TableRef) :
  Forall (placeholder_absent markdown) tables ->
  inlineTableContent markdown (Some tables) = markdown
  /\ inlineTableContent markdown None = markdown
  /\ inlineTableContent [] (Some tables) = [].
Proof.
  intros H. split; [| split; [destruct markdown; reflexivity | reflexivity]].
  assert (F : fold_left inline_table tables markdown = markdown).
  { induction H as [| t tables Ht _ IH]; [reflexivity |].
    cbn [fold_left]. rewrite (inline_table_absent _ _ Ht). exact IH. }
  destruct markdown as [| c markdown]; [reflexivity |].
  destruct tables as [| t tables]; [reflexivity | exact F].
Qed.

Lemma inlineTableContent_without_placeholder_witness :
  Forall (placeholder_absent (str "plain text")) [table "tbl-0.md" "| a |"]
  /\ inlineTableContent (str "plain text") (Some [table "tbl-0.md" "| a |"])
     = str "plain text".
Proof.
  assert (H : Forall (placeholder_absent (str "plain text")) [table "tbl-0.md" "| a |"]).
  { constructor; [| constructor]. intros id E. injection E as <-. reflexivity. }
  split; [exact H |].
  exact (proj1 (inlineTableContent_without_placeholder _ _ H)).
Defined.

(** ** The order of the pages *)

Lemma array_sort_sorted_input (l : list Page) :
  StronglySorted index_le l -> array_sort by_index l = l.
Proof.
  induction 1 as [| x l Hs IH Hx]; [reflexivity |].
  cbn [array_sort fold_right]. fold (array_sort by_index l). rewrite IH.
  destruct l as [| y l]; [reflexivity |].
  cbn [insert_sorted]. inversion_clear Hx as [| ? ? Hxy _].
  unfold index_le in Hxy. unfold by_index.
  destruct (page_index x - page_index y <=? 0)%Z eqn:E; [reflexivity | lia].
Qed.

(** X10.  A second call of [combineMarkdown], on the result that the first
    call has left sorted, returns the same markdown and changes nothing. *)
Theorem combineMarkdown_twice (r : OcrResult) :
  combineMarkdown (snd (combineMarkdown r))
  = (fst (combineMarkdown r), snd (combineMarkdown r)).
Proof.
  unfold combineMarkdown. destruct r as [[[| p pages] |]]; cbn [ocr_pages]; try reflexivity.
  cbn [fst snd ocr_pages].
  pose proof (proj1 (sort_pages (p :: pages))) as S.
  pose proof (proj1 (proj2 (sort_pages (p :: pages)))) as P.
  rewrite (array_sort_sorted_input _ S).
  destruct (array_sort by_index (p :: pages)) as [| q sorted] eqn:E; [| reflexivity].
  apply Permutation_length in P. discriminate P.
Qed.

Lemma sorted_unique (l1 l2 : list Page) :
  StronglySorted index_le l1 -> StronglySorted index_le l2 ->
  Permutation l1 l2 -> NoDup (map page_index l1) -> l1 = l2.
Proof.
  intros S1. revert l2. induction S1 as [| x l1 S1 IH Hx]; intros l2 S2 P N.
  - apply Permutation_nil in P. symmetry. exact P.
  - destruct l2 as [| y l2]; [apply Permutation_sym, Permutation_nil in P; discriminate P |].
    inversion_clear S2 as [| ? ? S2' Hy].
    cbn [map] in N. apply NoDup_cons_iff in N. destruct N as [Nx N].
    assert (E : x = y).
    { assert (Hyin : In y (x :: l1)) by (apply (Permutation_in _ (Permutation_sym P)); left; reflexivity).
      assert (Hxin : In x (y :: l2)) by (apply (Permutation_in _ P); left; reflexivity).
      destruct Hyin as [-> | Hyin]; [reflexivity |].
      destruct Hxin as [-> | Hxin]; [reflexivity |].
      rewrite Forall_forall in Hx, Hy.
      pose proof (Hx _ Hyin) as A. pose proof (Hy _ Hxin) as B. unfold index_le in A, B.
      exfalso. apply Nx. replace (page_index x) with (page_index y) by lia.
      apply in_map, Hyin. }
    subst y. f_equal. apply IH; [exact S2' | | exact N].
    apply (Permutation_cons_inv P).
Qed.

(** X11.  When the indexes of the pages are all different, the order in
    which the pages arrive does not matter: two arrivals of the same pages
    give the same markdown and leave the same sorted array. *)
Theorem combineMarkdown_arrival_order (pages pages' : list Page) :
  Permutation pages pages' -> NoDup (map page_index pages) ->
  combineMarkdown {| ocr_pages := Some pages |}
  = combineMarkdown {| ocr_pages := Some pages' |}.
Proof.
  intros P N.
  assert (E : array_sort by_index pages = array_sort by_index pages').
  { destruct (sort_pages pages) as [S1 [P1 _]]. destruct (sort_pages pages') as [S2 [P2 _]].
    apply sorted_unique; [exact S1 | exact S2 | |].
    - rewrite <- P1, <- P2. exact P.
    - apply (Permutation_NoDup (Permutation_map page_index P1)). exact N. }
  unfold combineMarkdown. cbn [ocr_pages].
  destruct pages as [| p pages]; destruct pages' as [| p' pages'].
  - reflexivity.
  - apply Permutation_nil in P. discriminate P.
  - apply Permutation_sym, Permutation_nil in P. discriminate P.
  - rewrite E. reflexivity.
Qed.

Lemma combineMarkdown_arrival_order_witness :
  combineMarkdown {| ocr_pages := Some [page 1 "B"; page 0 "A"] |}
  = combineMarkdown {| ocr_pages := Some [page 0 "A"; page 1 "B"] |}.
Proof.
  apply (combineMarkdown_arrival_order [page 1 "B"; page 0 "A"] [page 0 "A"; page 1 "B"]).
  - apply perm_swap.
  - repeat constructor; cbn; intuition discriminate.
Defined.

(** ** The registry of images *)

Lemma map_set_keys (V : Type) (k : jsstring) (v : V) (m : JsMap V) :
  forall k', In k' (map fst (map_set k v m)) <-> k' = k \/ In k' (map fst m).
Proof.
  intros k'. induction m as [| [k0 v0] m IH]; cbn [map_set map fst In].
  - intuition.
  - destruct (jsstring_eqb k0 k) eqn:E; cbn [map fst In].
    + apply jsstring_eqb_eq in E. subst k0. intuition.
    + rewrite IH. intuition.
Qed.

Lemma map_set_nodup (V : Type) (k : jsstring) (v : V) (m : JsMap V) :
  NoDup (map fst m) -> NoDup (map fst (map_set k v m)).
Proof.
  induction m as [| [k0 v0] m IH]; intros H; cbn [map_set map fst].
  - repeat constructor. intros [].
  - cbn [map fst] in H. apply NoDup_cons_iff in H. destruct H as [H0 H].
    destruct (jsstring_eqb k0 k) eqn:E; cbn [map fst].
    + apply jsstring_eqb_eq in E. subst k0. constructor; assumption.
    + constructor; [| apply IH, H].
      intros G. apply map_set_keys in G. destruct G as [-> | G]; [| exact (H0 G)].
      rewrite jsstring_eqb_refl in E. discriminate E.
Qed.

Lemma register_pages_flat (pages : list Page) (images : ImageMap) :
  fold_left register_page pages images
  = fold_left register_image (flat_map images_of pages) images.
Proof.
  revert images. induction pages as [| p pages IH]; intros images; [reflexivity |].
  cbn [fold_left flat_map]. rewrite fold_left_app, IH. f_equal.
  unfold register_page, images_of. destruct (page_images p); reflexivity.
Qed.

Lemma extractImages_flat (r : OcrResult) :
  extractImages r = fold_left register_image (all_images r) [].
Proof.
  unfold extractImages, all_images, pages_of.
  destruct (ocr_pages r) as [pages |]; [apply register_pages_flat | reflexivity].
Qed.

(** X12.  The keys of the registry are all different: an image id that
    comes again takes the place of the entry that was there. *)
Theorem extractImages_keys_distinct (r : OcrResult) :
  NoDup (map fst (extractImages r)).
Proof.
  rewrite extractImages_flat.
  assert (G : forall l (m : ImageMap),
             NoDup (map fst m) -> NoDup (map fst (fold_left register_image l m))).
  { induction l as [| img l IH]; intros m H; [exact H |].
    cbn [fold_left]. apply IH. unfold register_image.
    destruct (_ && _)%bool; [apply map_set_nodup, H | exact H]. }
  apply G. constructor.
Qed.

Lemma register_image_get (k : jsstring) (images : ImageMap) (img : ImageRef) :
  map_get k (register_image images img)
  = if complete_with k img then Some (image_entry img) else map_get k images.
Proof.
  unfold register_image, complete_with. fold (image_key img).
  destruct (truthy (image_key img) && truthy (img_image_base64 img))%bool;
    [| reflexivity].
  cbn [andb]. rewrite map_get_set. reflexivity.
Qed.

Lemma find_app_first (A : Type) (f : A -> bool) (l1 l2 : list A) :
  find f (l1 ++ l2) = match find f l1 with
                      | Some x => Some x
                      | None => find f l2
                      end.
Proof.
  induction l1 as [| x l1 IH]; [reflexivity |].
  cbn [app find]. destruct (f x); [reflexivity | exact IH].
Qed.

Lemma register_images_get (k : jsstring) (l : list ImageRef) (images : ImageMap) :
  map_get k (fold_left register_image l images)
  = match find (complete_with k) (rev l) with
    | Some img => Some (image_entry img)
    | None => map_get k images
    end.
Proof.
  revert images. induction l as [| img l IH]; intros images; [reflexivity |].
  cbn [fold_left rev]. rewrite IH, find_app_first, register_image_get.
  destruct (find (complete_with k) (rev l)); [reflexivity |].
  cbn [find]. destruct (complete_with k img); reflexivity.
Qed.

(** X13.  Later images overwrite earlier ones of the same key: the entry
    of the registry under a key is the one of the last ImageRef, in the
    order of the pages, that has this key and data; there is no entry when
    there is no such ImageRef. *)
Theorem extractImages_last_wins (r : OcrResult) (k : jsstring) :
  map_get k (extractImages r)
  = option_map image_entry (find (complete_with k) (rev (all_images r))).
Proof.
  rewrite extractImages_flat, register_images_get.
  destruct (find (complete_with k) (rev (all_images r))); reflexivity.
Qed.

(** ** References that are not rewritten *)

Lemma rewriter_prefix (pre s p : jsstring) :
  includes ["!"%char] pre = false ->
  processMarkdownImages (pre ++ s) p = pre ++ processMarkdownImages s p.
Proof.
  induction pre as [| c pre IH]; intros H; [reflexivity |].
  apply includes_cons_false in H. destruct H as [H1 H2].
  cbn [starts_with] in H1. rewrite andb_true_r in H1. apply Ascii.eqb_neq in H1.
  cbn [app]. rewrite rewriter_other by congruence. rewrite (IH H2). reflexivity.
Qed.



(** X15.  The first image reference of a text: a [src] that starts with
    [http], with [data:] or with the prefix is kept, any other [src] gets
    the prefix in front; the text before the reference is kept, and the
    rewriter goes on after the reference. *)
Theorem processMarkdownImages_reference (pre alt src rest p : jsstring) :
  includes ["!"%char] pre = false ->
  includes [rbracket] alt = false -> includes [rparen] src = false -> src <> [] ->
  processMarkdownImages (pre ++ image_text alt src ++ rest) p
  = pre ++ image_text alt (rewritten_src p src) ++ processMarkdownImages rest p.
Proof.
  intros Hpre Halt Hsrc N.
  rewrite (rewriter_prefix _ _ _ Hpre). f_equal.
  rewrite processMarkdownImages_eq.
  rewrite (exec_image_text None alt src rest (break_at_none_includes _ _ Halt)
             (break_at_none_includes _ _ Hsrc) N).
  f_equal. unfold rewrite_image, rewritten_src.
  destruct (starts_with (str "http") src), (starts_with (str "data:") src),
    (starts_with p src); reflexivity.
Qed.

Lemma processMarkdownImages_reference_witness :
  processMarkdownImages
    (str "Fig. " ++ image_text (str "a") (str "img-0.jpeg") ++ str " end") (str "images/")
  = str "Fig. " ++ image_text (str "a") (rewritten_src (str "images/") (str "img-0.jpeg"))
      ++ processMarkdownImages (str " end") (str "images/").
Proof.
  apply (processMarkdownImages_reference (str "Fig. ") (str "a") (str "img-0.jpeg")
           (str " end") (str "images/")); try reflexivity. discriminate.
Defined.

(** ** Math that is not rendered *)

Section ReplaceIdentity.
Variable Cap : Type.
Variable exec_at : option ascii -> jsstring -> option (Cap * jsstring * jsstring).
Variable replacer : jsstring -> Cap -> jsstring.

(** A match is a part of the input that is not empty, and the replacer
    gives it back. *)
Hypothesis exec_identity :
  forall prev s cap matched rest,
    exec_at prev s = Some (cap, matched, rest) ->
    s = matched ++ rest /\ matched <> [] /\ replacer matched cap = matched.

Lemma replace_loop_identity (fuel : nat) (prev : option ascii) (s : jsstring) :
  length s < fuel -> replace_loop exec_at replacer fuel prev s = s.
Proof.
  revert prev s. induction fuel as [| fuel IH]; intros prev s L; [lia |].
  cbn [replace_loop].
  destruct (exec_at prev s) as [[[cap matched] rest] |] eqn:E.
  - destruct (exec_identity _ _ _ _ _ E) as [-> [N ->]]. f_equal. apply IH.
    rewrite length_app in L. destruct matched; [congruence | cbn [length] in L; lia].
  - destruct s as [| c s]; [reflexivity |]. f_equal. apply IH. cbn [length] in L. lia.
Qed.

Lemma replace_regexp_identity (s : jsstring) : replace_regexp exec_at replacer s = s.
Proof. apply replace_loop_identity. lia. Qed.
End ReplaceIdentity.

Lemma find_first_some (p s before after : jsstring) :
  find_first p s = Some (before, after) -> s = before ++ p ++ after.
Proof.
  revert before after. induction s as [| c s IH]; intros before after;
    rewrite find_first_eq; destruct (starts_with p _) eqn:E.
  - intros H. injection H as <- <-. apply starts_with_iff in E. destruct E as [r E].
    destruct p; [reflexivity | discriminate E].
  - discriminate.
  - intros H. injection H as <- <-. apply starts_with_iff in E. destruct E as [r E].
    rewrite E, skipn_app, skipn_all, Nat.sub_diag. reflexivity.
  - destruct (find_first p s) as [[b a] |]; [| discriminate].
    intros H. injection H as <- <-. rewrite (IH b a eq_refl). reflexivity.
Qed.

Lemma math_run_app (s : jsstring) : s = fst (math_run s) ++ snd (math_run s).
Proof.
  induction s as [| c s IH]; [reflexivity |]. cbn [math_run].
  destruct (Ascii.eqb c dollar || Ascii.eqb c nl)%bool; [reflexivity |].
  destruct (math_run s) as [run rest]. cbn [fst snd app] in *. f_equal. exact IH.
Qed.

(** What a match of the two expressions of the first variant is. *)
Lemma exec_display_match (prev : option ascii) (s : jsstring) tex matched rest :
  exec_display prev s = Some (tex, matched, rest) ->
  s = matched ++ rest /\ matched = math_source tex true.
Proof.
  unfold exec_display. destruct s as [| a [| b [| c body]]]; try discriminate.
  destruct (Ascii.eqb a dollar) eqn:Ea; [| discriminate].
  destruct (Ascii.eqb b dollar) eqn:Eb; [| discriminate]. cbn [andb].
  apply Ascii.eqb_eq in Ea, Eb. subst a b.
  destruct (find_first (str "$$") body) as [[before after] |] eqn:E; [| discriminate].
  intros H. injection H as <- <- <-. apply find_first_some in E. subst body.
  split; [| reflexivity].
  cbn [str list_ascii_of_string app]. rewrite <- app_assoc. reflexivity.
Qed.

Lemma exec_inline_match (behind : ascii -> bool) (prev : option ascii) (s : jsstring)
    tex matched rest :
  exec_inline behind prev s = Some (tex, matched, rest) ->
  s = matched ++ rest /\ matched = math_source tex false.
Proof.
  unfold exec_inline. destruct s as [| a body]; [discriminate |].
  destruct (_ && Ascii.eqb a dollar)%bool eqn:Ea; [| discriminate].
  apply andb_true_iff in Ea. destruct Ea as [_ Ea]. apply Ascii.eqb_eq in Ea. subst a.
  pose proof (math_run_app body) as M.
  destruct (math_run body) as [[| c run] [| d r]]; try discriminate.
  destruct (Ascii.eqb d dollar) eqn:Ed; [| discriminate].
  apply Ascii.eqb_eq in Ed. subst d.
  intros H. injection H as <- <- <-. cbn [fst snd] in M. subst body.
  split; [| reflexivity].
  cbn [str list_ascii_of_string app]. rewrite <- app_assoc. reflexivity.
Qed.

Lemma math_source_nonempty (tex : jsstring) (display : bool) :
  math_source tex display <> [].
Proof. destruct display; discriminate. Qed.

Lemma latexToSvg_fails (MathJax : MathEngine) (tex : jsstring) (display : bool) :
  engine_fails MathJax -> SvgFirst.latexToSvg MathJax tex display = math_source tex display.
Proof.
  unfold engine_fails, SvgFirst.latexToSvg. destruct MathJax as [tex2svg |]; [| reflexivity].
  intros H. rewrite H. reflexivity.
Qed.

(** X16.  In the first variant, when there is no math engine or the engine
    throws on every expression, every math expression goes to the markdown
    renderer in its original dollar-delimited form: the HTML is what
    [marked.parse] makes of the markdown itself. *)
Theorem markdownToHtml_fallback (marked_parse : jsstring -> jsstring) (MathJax : MathEngine)
    (markdown : jsstring) :
  engine_fails MathJax -> markdown <> [] ->
  SvgFirst.markdownToHtml marked_parse MathJax markdown = marked_parse markdown.
Proof.
  intros H N. unfold SvgFirst.markdownToHtml.
  destruct markdown as [| c markdown]; [congruence |].
  rewrite (replace_regexp_identity _ exec_display).
  - rewrite (replace_regexp_identity _ (exec_inline SvgFirst.behind_inline)); [reflexivity |].
    intros prev s tex matched rest E. apply exec_inline_match in E. destruct E as [-> ->].
    repeat split; [apply math_source_nonempty | apply latexToSvg_fails, H].
  - intros prev s tex matched rest E. apply exec_display_match in E. destruct E as [-> ->].
    repeat split; [apply math_source_nonempty | apply latexToSvg_fails, H].
Qed.

Lemma markdownToHtml_fallback_witness :
  engine_fails throwing_engine
  /\ SvgFirst.markdownToHtml marked_paragraph throwing_engine (str "$$x$$ and $y$")
     = marked_paragraph (str "$$x$$ and $y$").
Proof.
  assert (H : engine_fails throwing_engine) by (intros latex display; reflexivity).
  split; [exact H |].
  apply (markdownToHtml_fallback marked_paragraph throwing_engine (str "$$x$$ and $y$") H).
  discriminate.
Defined.

Lemma exec_display_html_match (prev : option ascii) (s : jsstring) tex matched rest :
  exec_display_html prev s = Some (tex, matched, rest) ->
  s = matched ++ rest /\ matched <> [].
Proof.
  unfold exec_display_html. destruct s as [| a [| b body]]; try discriminate.
  destruct (Ascii.eqb a dollar) eqn:Ea; [| discriminate].
  destruct (Ascii.eqb b dollar) eqn:Eb; [| discriminate]. cbn [andb].
  apply Ascii.eqb_eq in Ea, Eb. subst a b.
  destruct (break_at dollar body) as [[[| c run] [| d r]] |] eqn:E; try discriminate.
  destruct (Ascii.eqb d dollar) eqn:Ed; [| discriminate].
  apply Ascii.eqb_eq in Ed. subst d.
  intros H. injection H as <- <- <-. apply break_at_app in E. destruct E as [-> _].
  split; [| discriminate].
  cbn [str list_ascii_of_string app]. rewrite <- app_assoc. reflexivity.
Qed.

(** X17.  [processLatexInHtml] returns the HTML as it is when there is no
    math engine, and also when the engine throws on every expression: a
    failed conversion leaves the dollar-delimited source in place. *)
Theorem processLatexInHtml_fallback (MathJax : MathEngine) (html : jsstring) :
  engine_fails MathJax -> processLatexInHtml MathJax html = html.
Proof.
  intros H. unfold processLatexInHtml.
  destruct html as [| c html]; [reflexivity |].
  destruct MathJax as [tex2svg |]; [| reflexivity]. cbn [engine_fails] in H.
  rewrite (replace_regexp_identity _ exec_display_html).
  - apply replace_regexp_identity.
    intros prev s tex matched rest E. apply exec_inline_match in E. destruct E as [-> ->].
    repeat split; [apply math_source_nonempty |].
    unfold render_inline, Protected.convertLatexToSvg. rewrite H.
    destruct (negb (looksLikeMath tex)); reflexivity.
  - intros prev s tex matched rest E. apply exec_display_html_match in E.
    destruct E as [-> N]. repeat split; [exact N |].
    unfold render_display, Protected.convertLatexToSvg. rewrite H. reflexivity.
Qed.

Lemma processLatexInHtml_fallback_witness :
  engine_fails throwing_engine
  /\ processLatexInHtml throwing_engine (str "<p>$$x^2$$ and $y$</p>")
     = str "<p>$$x^2$$ and $y$</p>".
Proof.
  assert (H : engine_fails throwing_engine) by (intros latex display; reflexivity).
  split; [exact H |].
  apply (processLatexInHtml_fallback throwing_engine (str "<p>$$x^2$$ and $y$</p>") H).
Defined.

Lemma trim_start_incl (s : jsstring) (c : ascii) : In c (trim_start s) -> In c s.
Proof.
  induction s as [| a s IH]; [intros [] |]. cbn [trim_start].
  destruct (is_js_whitespace a); [intros H; right; apply IH, H | intros H; exact H].
Qed.

Lemma trim_incl (s : jsstring) (c : ascii) : In c (trim s) -> In c s.
Proof.
  unfold trim. intros H. apply in_rev, trim_start_incl, in_rev, trim_start_incl in H.
  exact H.
Qed.

Lemma existsb_none (A : Type) (f : A -> bool) (l : list A) :
  (forall x, In x l -> f x = false) -> existsb f l = false.
Proof.
  intros H. induction l as [| x l IH]; [reflexivity |].
  cbn [existsb]. rewrite (H x (or_introl eq_refl)). apply IH.
  intros y Hy. apply H. right. exact Hy.
Qed.

Lemma amount_unit_plain (c : ascii) :
  is_amount_unit c = true -> is_math_mark c = false /\ is_letter_or_paren c = false.
Proof.
  destruct c as [[] [] [] [] [] [] [] []]; vm_compute; intros H;
    solve [discriminate H | split; reflexivity].
Qed.

(** X18.  A text of digits, dots, commas and spaces does not look like
    math, so inline dollar signs around an amount of money are left as they
    are by [processLatexInHtml], whatever the engine does. *)
Theorem amount_is_not_math (tex2svg : jsstring -> bool -> option jsstring)
    (matched latex : jsstring) :
  Forall (fun c => is_amount_unit c = true) latex ->
  looksLikeMath latex = false /\ render_inline tex2svg matched latex = matched.
Proof.
  intros H. rewrite Forall_forall in H.
  assert (L : looksLikeMath latex = false).
  { unfold looksLikeMath. apply orb_false_iff. split; apply existsb_none.
    - intros c Hc. apply amount_unit_plain, H, Hc.
    - intros c Hc. apply amount_unit_plain, H, trim_incl, Hc. }
  split; [exact L |]. unfold render_inline. rewrite L. reflexivity.
Qed.

Lemma amount_is_not_math_witness :
  Forall (fun c => is_amount_unit c = true) (str "5.00")
  /\ looksLikeMath (str "5.00") = false.
Proof.
  assert (H : Forall (fun c => is_amount_unit c = true) (str "5.00"))
    by (repeat constructor).
  split; [exact H |].
  exact (proj1 (amount_is_not_math (fun _ _ => None) (str "$5.00$") (str "5.00") H)).
Defined.

(** ** The math protector *)

Section StatefulLoop.
Variable Cap St : Type.
Variable exec_at : option ascii -> jsstring -> option (Cap * jsstring * jsstring).
Variable replacer : jsstring -> Cap -> St -> jsstring * St.

(** Where the expression cannot match, nothing is replaced. *)
Lemma replace_loop_st_unmatched (fuel : nat) (prev : option ascii) (s : jsstring) (st : St) :
  (forall prev' t, break_at dollar t = None -> exec_at prev' t = None) ->
  break_at dollar s = None ->
  replace_loop_st exec_at replacer fuel prev s st = (s, st).
Proof.
  intros H. revert prev s st. induction fuel as [| fuel IH]; intros prev s st N;
    [reflexivity |].
  cbn [replace_loop_st]. rewrite (H prev s N).
  destruct s as [| c s]; [reflexivity |].
  rewrite IH; [reflexivity |].
  cbn [break_at] in N. destruct (Ascii.eqb c dollar); [discriminate N |].
  destruct (break_at dollar s) as [[? ?] |]; [discriminate N | reflexivity].
Qed.

(** What every call of the replacer keeps, the loop keeps. *)
Lemma replace_loop_st_invariant (I : St -> Prop) :
  (forall matched cap st, I st -> I (snd (replacer matched cap st))) ->
  forall fuel prev s st, I st -> I (snd (replace_loop_st exec_at replacer fuel prev s st)).
Proof.
  intros H. induction fuel as [| fuel IH]; intros prev s st Hst; [exact Hst |].
  cbn [replace_loop_st].
  destruct (exec_at prev s) as [[[cap matched] rest] |].
  - pose proof (H matched cap st Hst) as H1.
    destruct (replacer matched cap st) as [out st1]. cbn [snd] in H1.
    pose proof (IH (last_unit matched prev) rest st1 H1) as H2.
    destruct (replace_loop_st exec_at replacer fuel (last_unit matched prev) rest st1)
      as [tl st2]. exact H2.
  - destruct s as [| c s]; [exact Hst |].
    pose proof (IH (Some c) s st Hst) as H2.
    destruct (replace_loop_st exec_at replacer fuel (Some c) s st) as [tl st1]. exact H2.
Qed.
End StatefulLoop.

Lemma exec_display_no_dollar (prev : option ascii) (s : jsstring) :
  break_at dollar s = None -> exec_display prev s = None.
Proof.
  intros N. unfold exec_display. destruct s as [| a [| b [| c body]]]; try reflexivity.
  cbn [break_at] in N. destruct (Ascii.eqb a dollar); [discriminate N | reflexivity].
Qed.

Lemma exec_inline_no_dollar (behind : ascii -> bool) (prev : option ascii) (s : jsstring) :
  break_at dollar s = None -> exec_inline behind prev s = None.
Proof.
  intros N. unfold exec_inline. destruct s as [| a body]; [reflexivity |].
  cbn [break_at] in N. destruct (Ascii.eqb a dollar); [discriminate N |].
  rewrite andb_false_r. reflexivity.
Qed.

(** X19.  A markdown without dollar sign has no math to protect: no block
    is recorded, the markdown goes to the renderer as it is, and the content
    is what [marked.parse] makes of it, with or without a math engine. *)
Theorem renderContent_without_math (marked_parse : jsstring -> jsstring)
    (MathJax : MathEngine) (markdown : jsstring) :
  includes [dollar] markdown = false ->
  Protected.extractLatexBlocks markdown = (markdown, [])
  /\ Protected.renderContent marked_parse MathJax markdown = marked_parse markdown.
Proof.
  intros H. apply break_at_none_includes in H.
  assert (E : Protected.extractLatexBlocks markdown = (markdown, [])).
  { unfold Protected.extractLatexBlocks, replace_regexp_st.
    rewrite (replace_loop_st_unmatched _ _ exec_display _ _ _ _ _ exec_display_no_dollar H).
    rewrite (replace_loop_st_unmatched _ _ (exec_inline is_js_whitespace) _ _ _ _ _
               (exec_inline_no_dollar is_js_whitespace) H).
    reflexivity. }
  split; [exact E |].
  unfold Protected.renderContent. rewrite E. unfold Protected.restoreLatexAsSvg.
  destruct MathJax; reflexivity.
Qed.

Lemma renderContent_without_math_witness :
  includes [dollar] (str "# Title") = false
  /\ Protected.renderContent marked_paragraph throwing_engine (str "# Title")
     = marked_paragraph (str "# Title").
Proof.
  split; [reflexivity |].
  apply (renderContent_without_math marked_paragraph throwing_engine (str "# Title")).
  reflexivity.
Defined.

Lemma decimal_inj (i j : nat) : decimal i = decimal j -> i = j.
Proof.
  unfold decimal, str. intros E.
  apply (f_equal string_of_list_ascii) in E.
  rewrite !string_of_list_ascii_of_string in E.
  apply (f_equal DecimalString.NilZero.uint_of_string) in E.
  assert (N : forall n, Nat.to_uint n <> Decimal.Nil).
  { intros n. rewrite <- (DecimalNat.Unsigned.of_to n) at 1.
    rewrite DecimalNat.Unsigned.to_of. apply DecimalFacts.unorm_nonnil. }
  rewrite !DecimalString.NilZero.usu in E by apply N.
  injection E as E. apply DecimalNat.Unsigned.to_uint_inj, E.
Qed.

Lemma token_inj (k1 k2 : bool) (i j : nat) :
  token (if k1 then str "DISPLAY" else str "INLINE") i
  = token (if k2 then str "DISPLAY" else str "INLINE") j -> i = j.
Proof.
  unfold token. intros E. apply app_inv_head in E.
  destruct k1, k2; try discriminate E.
  - apply (app_inv_head (str "DISPLAY_")) in E. apply app_inv_tail in E.
    apply decimal_inj, E.
  - apply (app_inv_head (str "INLINE_")) in E. apply app_inv_tail in E.
    apply decimal_inj, E.
Qed.

Lemma protect_numbered (kind : bool) (matched tex : jsstring)
    (st : list LatexBlock * nat) :
  snd st = length (fst st) /\ numbered (fst st) ->
  let st' := snd (Protected.protect (if kind then str "DISPLAY" else str "INLINE") kind
                    matched tex st) in
  snd st' = length (fst st') /\ numbered (fst st').
Proof.
  destruct st as [blocks counter]. cbn [fst snd Protected.protect]. intros [-> Hn].
  split; [rewrite length_app; cbn; lia |].
  intros i b Hi. destruct (Nat.lt_ge_cases i (length blocks)) as [L | L].
  - rewrite nth_error_app1 in Hi by exact L. apply Hn, Hi.
  - rewrite nth_error_app2 in Hi by exact L.
    destruct (i - length blocks) as [| k] eqn:Ek.
    + cbn in Hi. injection Hi as <-. cbn [placeholder display].
      replace i with (length blocks) by lia. reflexivity.
    + cbn in Hi. destruct k; discriminate Hi.
Qed.

(** X20.  The blocks that [extractLatexBlocks] records are numbered in
    their order: the block at position i has the token of number i, a
    DISPLAY token for display math and an INLINE token for inline math.  So
    no two blocks have the same placeholder. *)
Theorem extractLatexBlocks_numbered (markdown : jsstring) :
  numbered (snd (Protected.extractLatexBlocks markdown))
  /\ NoDup (map placeholder (snd (Protected.extractLatexBlocks markdown))).
Proof.
  assert (H : numbered (snd (Protected.extractLatexBlocks markdown))).
  { unfold Protected.extractLatexBlocks, replace_regexp_st.
    pose proof (replace_loop_st_invariant _ _ exec_display (Protected.protect (str "DISPLAY") true)
                  (fun st => snd st = length (fst st) /\ numbered (fst st))
                  (fun m c st => protect_numbered true m c st)
                  (S (length markdown)) None markdown ([], 0)) as H1.
    destruct (replace_loop_st exec_display _ _ None markdown ([], 0)) as [markdown1 st1].
    cbn [snd] in H1.
    pose proof (replace_loop_st_invariant _ _ (exec_inline is_js_whitespace)
                  (Protected.protect (str "INLINE") false)
                  (fun st => snd st = length (fst st) /\ numbered (fst st))
                  (fun m c st => protect_numbered false m c st)
                  (S (length markdown1)) None markdown1 st1) as H2.
    destruct (replace_loop_st (exec_inline is_js_whitespace) _ _ None markdown1 st1)
      as [markdown2 st2].
    cbn [snd] in *. apply H2, H1. split; [reflexivity |].
    intros i b Hi. destruct i; discriminate Hi. }
  split; [exact H |].
  apply (proj2 (NoDup_nth_error _)). intros i j Li E.
  rewrite length_map in Li. rewrite !nth_error_map in E.
  destruct (nth_error _ i) as [bi |] eqn:Ei; [| apply nth_error_None in Ei; lia].
  destruct (nth_error (snd (Protected.extractLatexBlocks markdown)) j) as [bj |] eqn:Ej;
    [| discriminate E].
  cbn [option_map] in E. injection E as E.
  rewrite (H i bi Ei), (H j bj Ej) in E. apply (token_inj _ _ _ _ E).
Qed.

(** ** The layout of the EPUB archive *)

Lemma jsstring_eqb_sym_false (a b : jsstring) :
  jsstring_eqb a b = false -> jsstring_eqb b a = false.
Proof.
  intros H. destruct (jsstring_eqb b a) eqn:E; [| reflexivity].
  apply jsstring_eqb_eq in E. subst b. rewrite jsstring_eqb_refl in H. discriminate H.
Qed.

Lemma zip_get_set (o : ZipObject) (n : jsstring) (zip : JSZip) :
  zip_get n (files_set o zip)
  = if jsstring_eqb (zip_name o) n then Some o else zip_get n zip.
Proof.
  induction zip as [| o' zip IH]; cbn [files_set zip_get].
  - reflexivity.
  - destruct (jsstring_eqb (zip_name o') (zip_name o)) eqn:E; cbn [zip_get].
    + apply jsstring_eqb_eq in E. rewrite E.
      destruct (jsstring_eqb (zip_name o) n); reflexivity.
    + rewrite IH. destruct (jsstring_eqb (zip_name o') n) eqn:E'; [| reflexivity].
      apply jsstring_eqb_eq in E'. subst n. rewrite jsstring_eqb_sym_false; [reflexivity |].
      exact E.
Qed.

Lemma has_file_get (n : jsstring) (zip : JSZip) :
  has_file n zip = match zip_get n zip with Some _ => true | None => false end.
Proof.
  induction zip as [| o zip IH]; [reflexivity |]. cbn [has_file zip_get].
  destruct (jsstring_eqb (zip_name o) n); [reflexivity | exact IH].
Qed.

Lemma has_file_in (n : jsstring) (zip : JSZip) :
  In n (map zip_name zip) -> has_file n zip = true.
Proof.
  induction zip as [| o zip IH]; [intros [] |]. cbn [map In has_file].
  intros [<- | H]; [rewrite jsstring_eqb_refl; reflexivity |].
  rewrite (IH H). apply orb_true_r.
Qed.

Lemma files_set_app (o : ZipObject) (documents rest : JSZip) :
  ~ In (zip_name o) (map zip_name documents) ->
  files_set o (documents ++ rest) = documents ++ files_set o rest.
Proof.
  induction documents as [| d documents IH]; intros H; [reflexivity |].
  cbn [app files_set]. destruct (jsstring_eqb (zip_name d) (zip_name o)) eqn:E.
  - apply jsstring_eqb_eq in E. exfalso. apply H. left. exact E.
  - rewrite IH; [reflexivity |]. intros G. apply H. right. exact G.
Qed.

Lemma files_set_under (prefix : string) (o : ZipObject) (rest : JSZip) :
  named_under prefix o -> Forall (named_under prefix) rest ->
  Forall (named_under prefix) (files_set o rest).
Proof.
  intros Ho. induction 1 as [| o' rest H' Hr IH]; cbn [files_set].
  - repeat constructor. exact Ho.
  - destruct (jsstring_eqb (zip_name o') (zip_name o)); constructor; assumption.
Qed.

(** The folder of a path is a part of the path. *)
Lemma parent_folder_prefix (name : jsstring) :
  parent_folder name <> [] -> exists tl, name = parent_folder name ++ slash :: tl.
Proof.
  assert (E0 : name = rev (rev name)) by (symmetry; apply rev_involutive).
  unfold parent_folder.
  destruct (rev name) as [| c r]; [intros H; exfalso; apply H; reflexivity |].
  destruct (Ascii.eqb c slash) eqn:Ec.
  - apply Ascii.eqb_eq in Ec. subst c.
    destruct (break_at slash r) as [[seg before] |] eqn:E; [| intros H; congruence].
    intros _. apply break_at_app in E. destruct E as [-> _].
    exists (rev seg ++ [slash]). rewrite E0. cbn [rev]. rewrite rev_app_distr. cbn [rev].
    rewrite <- !app_assoc. reflexivity.
  - destruct (break_at slash (c :: r)) as [[seg before] |] eqn:E; [| intros H; congruence].
    intros _. apply break_at_app in E. destruct E as [E _].
    exists (rev seg). rewrite E0, E, rev_app_distr. cbn [rev].
    rewrite <- !app_assoc. reflexivity.
Qed.

(** The folder of a path, as it is named, is the beginning of the path. *)
Lemma folder_prefix (name : jsstring) :
  parent_folder name <> [] ->
  exists q tl, force_trailing_slash (parent_folder name) = q ++ [slash]
               /\ name = (q ++ [slash]) ++ tl.
Proof.
  intros N. destruct (parent_folder_prefix name N) as [tl Et].
  unfold force_trailing_slash.
  destruct (rev (parent_folder name)) as [| c r] eqn:E.
  - exists (parent_folder name), tl. split; [reflexivity |].
    rewrite <- app_assoc. exact Et.
  - destruct (Ascii.eqb c slash) eqn:Ec.
    + apply Ascii.eqb_eq in Ec. subst c.
      assert (P : parent_folder name = rev r ++ [slash]).
      { rewrite <- (rev_involutive (parent_folder name)), E. reflexivity. }
      exists (rev r), (slash :: tl). split; [exact P |]. rewrite <- P. exact Et.
    + exists (parent_folder name), tl. split; [reflexivity |].
      rewrite <- app_assoc. exact Et.
Qed.

Lemma prefix_comparable (a b x y : jsstring) :
  a ++ x = b ++ y -> starts_with a b = true \/ starts_with b a = true.
Proof.
  revert b. induction a as [| c a IH]; intros b E; [left; reflexivity |].
  destruct b as [| d b]; [right; reflexivity |].
  cbn [app] in E. injection E as -> E. cbn [starts_with]. rewrite Ascii.eqb_refl.
  apply (IH b E).
Qed.

Section Layout.
Variable prefix : string.
Variable documents : JSZip.

(** The documents are not under the prefix; a folder in which the prefix
    lies is the prefix itself or one of the documents. *)
Hypothesis documents_apart :
  forall o, In o documents -> starts_with (str prefix) (zip_name o) = false.
Hypothesis folders_above :
  forall parent, starts_with (parent ++ [slash]) (str prefix) = true ->
                 parent ++ [slash] = str prefix
                 \/ In (parent ++ [slash]) (map zip_name documents).

Lemma under_not_document (name : jsstring) :
  starts_with (str prefix) name = true -> ~ In name (map zip_name documents).
Proof.
  intros H G. apply in_map_iff in G. destruct G as [o [<- Ho]].
  rewrite (documents_apart o Ho) in H. discriminate H.
Qed.

Lemma files_set_laid_out (o : ZipObject) (zip : JSZip) :
  starts_with (str prefix) (zip_name o) = true ->
  laid_out prefix documents zip -> laid_out prefix documents (files_set o zip).
Proof.
  intros Ho [rest [-> Hr]]. exists (files_set o rest). split.
  - apply files_set_app, under_not_document, Ho.
  - apply files_set_under; [exact Ho | exact Hr].
Qed.

Lemma file_add_laid_out (fuel : nat) (name : jsstring) (data : ZipData)
    (compression : option Compression) (zip : JSZip) :
  starts_with (str prefix) name = true ->
  laid_out prefix documents zip ->
  laid_out prefix documents (file_add fuel name data compression zip).
Proof.
  revert name data compression zip.
  induction fuel as [| fuel IH]; intros name data compression zip Hn L; cbn [file_add].
  - apply files_set_laid_out; [exact Hn | exact L].
  - assert (L1 : laid_out prefix documents
                   match parent_folder name with
                   | [] => zip
                   | _ :: _ =>
                       if has_file (force_trailing_slash (parent_folder name)) zip then zip
                       else file_add fuel (force_trailing_slash (parent_folder name))
                              Folder None zip
                   end).
    { assert (F : parent_folder name <> [] ->
                  exists q tl, force_trailing_slash (parent_folder name) = q ++ [slash]
                               /\ name = (q ++ [slash]) ++ tl) by apply folder_prefix.
      destruct (parent_folder name) as [| c parent] eqn:Ep; [exact L |].
      destruct (F ltac:(discriminate)) as [q [tl [Eq Et]]]. rewrite Eq.
      destruct (has_file (q ++ [slash]) zip) eqn:Eh; [exact L |].
      apply IH; [| exact L].
      apply starts_with_iff in Hn. destruct Hn as [x Hx].
      assert (C : (q ++ [slash]) ++ tl = str prefix ++ x).
      { rewrite <- Hx. symmetry. exact Et. }
      destruct (prefix_comparable _ _ _ _ C) as [H | H].
      - destruct (folders_above q H) as [E | E].
        + rewrite E. apply starts_with_iff. exists []. symmetry. apply app_nil_r.
        + exfalso. destruct L as [rest [-> _]].
          rewrite has_file_in in Eh; [discriminate Eh |].
          rewrite map_app. apply in_or_app. left. exact E.
      - exact H. }
    destruct (parent_folder name) as [| c parent];
      (apply files_set_laid_out; [exact Hn | exact L1]).
Qed.

Lemma add_under_laid_out (images : ImageMap) (zip : option JSZip) (result : JSZip) :
  fold_left (add_under (str prefix)) images zip = Some result ->
  exists zip0, zip = Some zip0
               /\ (laid_out prefix documents zip0 -> laid_out prefix documents result).
Proof.
  revert zip. induction images as [| [id img] images IH]; intros zip H; cbn [fold_left] in H.
  - exists result. split; [exact H | tauto].
  - destruct (IH _ H) as [zip1 [E K]].
    unfold add_under in E. destruct zip as [zip0 |]; [| discriminate E].
    exists zip0. split; [reflexivity |]. cbn [fst snd] in E.
    destruct (base64ToBytes (image_data img)) as [bytes |]; [| discriminate E].
    injection E as <-. intros L. apply K. unfold zip_file.
    apply file_add_laid_out; [apply starts_with_app | exact L].
Qed.
End Layout.

Lemma epub_documents_apart (render : jsstring -> jsstring) (uuid iso markdown : jsstring)
    (images : ImageMap) (title : option jsstring) (o : ZipObject) :
  In o (epub_documents render uuid iso markdown images title) ->
  starts_with (str "OEBPS/images/") (zip_name o) = false.
Proof.
  unfold epub_documents. cbn [In].
  intros H. repeat (destruct H as [<- | H]; [reflexivity |]). contradiction.
Qed.

Lemma epub_folders_above (parent : jsstring) :
  starts_with (parent ++ [slash]) (str "OEBPS/images/") = true ->
  parent ++ [slash] = str "OEBPS/images/" \/ parent ++ [slash] = str "OEBPS/".
Proof.
  intros H. apply starts_with_iff in H. destruct H as [r E].
  cbv [str list_ascii_of_string] in *.
  do 13 (destruct parent as [| ? parent];
         [cbn [app] in E |- *;
          first [discriminate E | left; reflexivity | right; reflexivity]
         | cbn [app] in E; injection E as <- E]).
  destruct parent; discriminate E.
Qed.

Lemma epub_folders_documents (render : jsstring -> jsstring) (uuid iso markdown : jsstring)
    (images : ImageMap) (title : option jsstring) (parent : jsstring) :
  starts_with (parent ++ [slash]) (str "OEBPS/images/") = true ->
  parent ++ [slash] = str "OEBPS/images/"
  \/ In (parent ++ [slash])
       (map zip_name (epub_documents render uuid iso markdown images title)).
Proof.
  intros H. destruct (epub_folders_above parent H) as [E | E]; [left; exact E |].
  right. rewrite E. cbn. tauto.
Qed.

(** X21.  The archive object of an EPUB holds, first and in this order,
    [mimetype], the folder [META-INF/] and [META-INF/container.xml], the
    folder [OEBPS/] and the package document, the navigation document and
    the content document, each with the text that [generateEPUB] wrote: the
    content document wraps the rendering of the markdown with its image
    paths rewritten.  Every other entry lies under [OEBPS/images/]: no image
    id, whatever it is, replaces or moves one of these documents. *)
Theorem generateEPUB_layout (render : jsstring -> jsstring) (uuid iso markdown : jsstring)
    (images : ImageMap) (title : option jsstring) (zip : JSZip) :
  epub_package render uuid iso markdown images title = Some zip ->
  laid_out "OEBPS/images/" (epub_documents render uuid iso markdown images title) zip.
Proof.
  rewrite epub_package_documents. intros H.
  destruct (add_under_laid_out "OEBPS/images/"
              (epub_documents render uuid iso markdown images title)
              (epub_documents_apart render uuid iso markdown images title)
              (epub_folders_documents render uuid iso markdown images title)
              images _ zip H) as [zip0 [E K]].
  injection E as <-. apply K. exists []. split; [symmetry; apply app_nil_r | constructor].
Qed.

Lemma generateEPUB_layout_witness :
  epub_package (Protected.renderContent marked_paragraph None) (str "0000")
    (str "2024-01-01T00:00:00.000Z") (str "![a](img-0.jpeg)") sample_images None
  = Some sample_epub
  /\ laid_out "OEBPS/images/"
       (epub_documents (Protected.renderContent marked_paragraph None) (str "0000")
          (str "2024-01-01T00:00:00.000Z") (str "![a](img-0.jpeg)") sample_images None)
       sample_epub.
Proof.
  assert (H : epub_package (Protected.renderContent marked_paragraph None) (str "0000")
                (str "2024-01-01T00:00:00.000Z") (str "![a](img-0.jpeg)") sample_images None
              = Some sample_epub) by reflexivity.
  split; [exact H |].
  exact (generateEPUB_layout _ _ _ _ _ _ _ H).
Defined.

(** ** Images that do not decode *)

(** X22.  [generateEPUB] fails (its promise is rejected) exactly when the
    data of some image of the registry is not valid base64; with data that
    all decode, it returns an archive object. *)
Theorem generateEPUB_fails_on_image (render : jsstring -> jsstring)
    (uuid iso markdown : jsstring) (images : ImageMap) (title : option jsstring) :
  epub_package render uuid iso markdown images title = None <-> undecodable images.
Proof. apply epub_package_fails. Qed.

(** ** The entries of the images *)

Lemma file_add_get_same (fuel : nat) (name : jsstring) (data : ZipData)
    (compression : option Compression) (zip : JSZip) :
  zip_get name (file_add fuel name data compression zip)
  = Some {| zip_name := name; zip_data := data; zip_compression := compression |}.
Proof.
  destruct fuel; cbn [file_add]; rewrite zip_get_set; cbn [zip_name];
    rewrite jsstring_eqb_refl; reflexivity.
Qed.

Lemma file_add_get_other (fuel : nat) (name n : jsstring) (data : ZipData)
    (compression : option Compression) (zip : JSZip) (o : ZipObject) :
  n <> name -> zip_get n zip = Some o ->
  zip_get n (file_add fuel name data compression zip) = Some o.
Proof.
  revert name data compression zip.
  induction fuel as [| fuel IH]; intros name data compression zip N H; cbn [file_add];
    rewrite zip_get_set; cbn [zip_name];
    (destruct (jsstring_eqb name n) eqn:E;
     [apply jsstring_eqb_eq in E; congruence |]).
  - exact H.
  - destruct (parent_folder name) as [| c parent]; [exact H |].
    destruct (has_file (force_trailing_slash (c :: parent)) zip) eqn:Eh; [exact H |].
    apply IH; [| exact H]. intros ->. rewrite has_file_get, H in Eh. discriminate Eh.
Qed.

Lemma add_under_entries (prefix : jsstring) (images : ImageMap) (zip result : JSZip) :
  fold_left (add_under prefix) images (Some zip) = Some result ->
  NoDup (map fst images) ->
  (forall n o, zip_get n zip = Some o ->
               (forall id, In id (map fst images) -> n <> prefix ++ id) ->
               zip_get n result = Some o)
  /\ (forall id img, In (id, img) images ->
        exists bytes, base64ToBytes (image_data img) = Some bytes
                      /\ zip_get (prefix ++ id) result
                         = Some (image_object (prefix ++ id) bytes)).
Proof.
  revert zip. induction images as [| [id0 img0] images IH]; intros zip H N.
  - cbn [fold_left] in H. injection H as <-. split; [intros n o G _; exact G | intros ? ? []].
  - cbn [fold_left] in H. unfold add_under at 2 in H. cbn [fst snd] in H.
    destruct (base64ToBytes (image_data img0)) as [bytes0 |] eqn:E;
      [| rewrite add_under_failed in H; discriminate H].
    cbn [map fst] in N. apply NoDup_cons_iff in N. destruct N as [N0 N].
    destruct (IH _ H N) as [K1 K2]. split.
    + intros n o G D. apply K1.
      * unfold zip_file. apply file_add_get_other; [| exact G].
        apply D. left. reflexivity.
      * intros id Hid. apply D. right. exact Hid.
    + intros id img [Hin | Hin].
      * injection Hin as <- <-. exists bytes0. split; [exact E |].
        apply K1; [unfold zip_file; apply file_add_get_same |].
        intros id Hid Eq. apply app_inv_head in Eq. subst id. exact (N0 Hid).
      * apply K2, Hin.
Qed.

(** X23.  When [generateEPUB] succeeds on a registry, every image of the
    registry has its entry [OEBPS/images/<id>] in the archive object, and
    the entry holds the decoded bytes of that image. *)
Theorem generateEPUB_image_entries (render : jsstring -> jsstring)
    (uuid iso markdown : jsstring) (images : ImageMap) (title : option jsstring)
    (zip : JSZip) (id : jsstring) (img : Image) :
  epub_package render uuid iso markdown images title = Some zip ->
  NoDup (map fst images) -> In (id, img) images ->
  exists bytes,
    base64ToBytes (image_data img) = Some bytes
    /\ zip_get (str "OEBPS/images/" ++ id) zip
       = Some (image_object (str "OEBPS/images/" ++ id) bytes).
Proof.
  rewrite epub_package_documents. intros H N Hin.
  exact (proj2 (add_under_entries (str "OEBPS/images/") images _ zip H N) id img Hin).
Qed.

Lemma generateEPUB_image_entries_witness :
  exists bytes,
    base64ToBytes (str "QQ==") = Some bytes
    /\ zip_get (str "OEBPS/images/" ++ str "img-0.jpeg") sample_epub
       = Some (image_object (str "OEBPS/images/" ++ str "img-0.jpeg") bytes).
Proof.
  apply (generateEPUB_image_entries (Protected.renderContent marked_paragraph None)
           (str "0000") (str "2024-01-01T00:00:00.000Z") (str "![a](img-0.jpeg)")
           sample_images None sample_epub (str "img-0.jpeg")
           {| image_data := str "QQ=="; image_format := str "jpeg" |}).
  - reflexivity.
  - repeat constructor. intros [].
  - left. reflexivity.
Defined.

(** ** The output bundle *)

Lemma break_at_none_in (c : ascii) (s : jsstring) : break_at c s = None <-> ~ In c s.
Proof.
  induction s as [| a s IH]; cbn [break_at In]; [tauto |].
  destruct (Ascii.eqb a c) eqn:E.
  - apply Ascii.eqb_eq in E. split; [discriminate | intros H; exfalso; apply H; left; exact E].
  - apply Ascii.eqb_neq in E.
    destruct (break_at c s) as [[? ?] |].
    + split; [discriminate |]. intros H. exfalso.
      destruct IH as [_ IH]. assert (G : ~ In c s) by tauto.
      discriminate (IH G).
    + split; [| reflexivity]. intros _ [H | H]; [congruence |].
      destruct IH as [IH _]. exact (IH eq_refl H).
Qed.

Lemma break_at_rev_none (c : ascii) (s : jsstring) :
  break_at c s = None -> break_at c (rev s) = None.
Proof.
  rewrite !break_at_none_in. intros H G. apply H. apply in_rev. exact G.
Qed.

Lemma strip_extension_ext (base ext : jsstring) :
  break_at dot ext = None -> ext <> [] -> strip_extension (base ++ dot :: ext) = base.
Proof.
  intros H N. unfold strip_extension.
  rewrite rev_app_distr. cbn [rev]. rewrite <- app_assoc. cbn [app].
  rewrite (break_at_found dot (rev ext) (rev base) (break_at_rev_none _ _ H)).
  destruct (rev ext) as [| c r] eqn:E.
  - apply (f_equal (@rev ascii)) in E. rewrite rev_involutive in E. cbn in E. congruence.
  - apply rev_involutive.
Qed.

(** X24.  The title of the bundle is the file name without its last
    extension, and [Document] when nothing is left: [.pdf] gives
    [Document].  A name without a dot, and a name that ends with a dot, are
    titles as they are. *)
Theorem output_title_of_name (base ext : jsstring) :
  includes [dot] ext = false -> ext <> [] ->
  output_title (base ++ dot :: ext)
  = match base with [] => str "Document" | _ => base end
  /\ output_title ext = ext
  /\ output_title (ext ++ [dot]) = ext ++ [dot].
Proof.
  intros H N. apply break_at_none_includes in H. unfold output_title. repeat split.
  - rewrite (strip_extension_ext base ext H N). destruct base; reflexivity.
  - unfold strip_extension. rewrite (break_at_rev_none _ _ H).
    destruct ext; [congruence | reflexivity].
  - unfold strip_extension. rewrite rev_app_distr. cbn [rev app break_at].
    rewrite Ascii.eqb_refl. destruct ext; reflexivity.
Qed.

Lemma output_title_of_name_witness :
  includes [dot] (str "pdf") = false
  /\ output_title (str "my.scan" ++ dot :: str "pdf") = str "my.scan"
  /\ output_title ([] ++ dot :: str "pdf") = str "Document".
Proof.
  split; [reflexivity |]. split.
  - apply (proj1 (output_title_of_name (str "my.scan") (str "pdf") eq_refl
                    ltac:(discriminate))).
  - apply (proj1 (output_title_of_name [] (str "pdf") eq_refl ltac:(discriminate))).
Defined.

(** X25.  [generateOutputZip] fails exactly when the data of some image of
    the registry is not valid base64: nothing else in it throws, and no
    partial bundle is returned. *)
Theorem generateOutputZip_fails_on_image (render : jsstring -> jsstring)
    (uuid iso : jsstring) (archive_bytes : JSZip -> list Byte.byte)
    (r : OcrResult) (name : jsstring) :
  fst (generateOutputZip render uuid iso archive_bytes r name) = None
  <-> undecodable (extractImages (snd (combineMarkdown r))).
Proof.
  unfold generateOutputZip. destruct (combineMarkdown r) as [raw r1]. cbn [snd].
  change add_output_image with (add_under (str "images/")).
  destruct (fold_left (add_under (str "images/")) (extractImages r1) _) as [zip |] eqn:E.
  - destruct (epub_package render uuid iso raw (extractImages r1) _) as [epubZip |] eqn:E';
      cbn [fst].
    + split; [discriminate |]. intros U.
      apply (proj2 (epub_package_fails render uuid iso raw _
                      (Some (output_title name)))) in U.
      rewrite E' in U. discriminate U.
    + split; [intros _ | reflexivity].
      exact (proj1 (epub_package_fails render uuid iso raw _ _) E').
  - cbn [fst]. split; [intros _ | reflexivity]. apply add_under_none in E. exact E.
Qed.

Lemma files_set_new (o : ZipObject) (zip : JSZip) :
  ~ In (zip_name o) (map zip_name zip) -> files_set o zip = zip ++ [o].
Proof.
  induction zip as [| o' zip IH]; cbn [files_set map In app]; intros H; [reflexivity |].
  destruct (jsstring_eqb (zip_name o') (zip_name o)) eqn:E.
  - apply jsstring_eqb_eq in E. exfalso. apply H. left. exact E.
  - rewrite IH; [reflexivity |]. intros G. apply H. right. exact G.
Qed.

Lemma file_add_flat (fuel : nat) (name : jsstring) (data : ZipData)
    (compression : option Compression) (zip : JSZip) :
  parent_folder name = [] ->
  file_add fuel name data compression zip
  = files_set {| zip_name := name; zip_data := data; zip_compression := compression |} zip.
Proof. intros H. destruct fuel; cbn [file_add]; [| rewrite H]; reflexivity. Qed.

Lemma output_folders_above (documents : JSZip) (parent : jsstring) :
  starts_with (parent ++ [slash]) (str "images/") = true ->
  parent ++ [slash] = str "images/" \/ In (parent ++ [slash]) (map zip_name documents).
Proof.
  intros H. left. apply starts_with_iff in H. destruct H as [r E].
  cbv [str list_ascii_of_string] in *.
  do 7 (destruct parent as [| ? parent];
        [cbn [app] in E |- *; first [discriminate E | reflexivity]
        | cbn [app] in E; injection E as <- E]).
  destruct parent; discriminate E.
Qed.

Lemma output_documents_apart (md html : jsstring) (o : ZipObject) :
  In o [zip_text "content.md" md; zip_text "content.html" html] ->
  starts_with (str "images/") (zip_name o) = false.
Proof. cbn [In]. intros [<- | [<- | []]]; reflexivity. Qed.

(** X26.  The bundle that [generateOutputZip] writes holds [content.md],
    the markdown with its image paths under [images/], then [content.html],
    the HTML document of that markdown under the title of the file name,
    then entries under [images/] only, and last [content.epub], the bytes of
    the EPUB that is built from the markdown before its image paths were
    rewritten.  The pages of the OCR result are left as [combineMarkdown]
    sorted them. *)
Theorem generateOutputZip_layout (render : jsstring -> jsstring) (uuid iso : jsstring)
    (archive_bytes : JSZip -> list Byte.byte) (r : OcrResult) (name : jsstring)
    (entries : list ArchiveEntry) (r' : OcrResult) :
  generateOutputZip render uuid iso archive_bytes r name = (Some entries, r') ->
  let raw := fst (combineMarkdown r) in
  let images := extractImages (snd (combineMarkdown r)) in
  let title := output_title name in
  let md := processMarkdownImages raw (str "images/") in
  r' = snd (combineMarkdown r)
  /\ exists image_part epubZip,
       epub_package render uuid iso raw images (Some title) = Some epubZip
       /\ Forall (named_under "images/") image_part
       /\ entries
          = archive_entries
              ([zip_text "content.md" md;
                zip_text "content.html"
                  (html_document (escapeXML (Some title)) (render md))]
               ++ image_part
               ++ [image_object (str "content.epub") (archive_bytes epubZip)]).
Proof.
  unfold generateOutputZip. destruct (combineMarkdown r) as [raw r1]. cbn [fst snd].
  change add_output_image with (add_under (str "images/")).
  set (md := processMarkdownImages raw (str "images/")).
  set (html := html_document (escapeXML (Some (output_title name))) (render md)).
  change (zip_file (str "content.html") (Text html) None
            (zip_file (str "content.md") (Text md) None []))
    with [zip_text "content.md" md; zip_text "content.html" html].
  destruct (fold_left _ (extractImages r1) _) as [zip |] eqn:E; [| discriminate].
  destruct (epub_package render uuid iso raw (extractImages r1) _) as [epubZip |] eqn:E';
    [| discriminate].
  intros H. injection H as <- <-. split; [reflexivity |].
  destruct (add_under_laid_out "images/" [zip_text "content.md" md; zip_text "content.html" html]
              (output_documents_apart md html) (output_folders_above _)
              (extractImages r1) _ zip E) as [zip0 [E0 K]].
  injection E0 as <-.
  destruct K as [rest [-> Hr]].
  { exists []. split; [reflexivity | constructor]. }
  exists rest, epubZip. split; [reflexivity |]. split; [exact Hr |].
  f_equal. unfold zip_file. rewrite file_add_flat by reflexivity.
  rewrite files_set_new; [rewrite <- app_assoc; reflexivity |].
  cbn [zip_name]. rewrite map_app. intros G. apply in_app_or in G. destruct G as [G | G].
  - cbn in G. destruct G as [G | [G | []]]; discriminate G.
  - apply in_map_iff in G. destruct G as [o [Eo Ho]].
    rewrite Forall_forall in Hr. specialize (Hr o Ho). unfold named_under in Hr.
    rewrite Eo in Hr. discriminate Hr.
Qed.

Lemma generateOutputZip_layout_witness :
  sample_output = (Some sample_entries, snd sample_output)
  /\ exists image_part,
       Forall (named_under "images/") image_part
       /\ sample_entries
          = archive_entries
              ([zip_text "content.md" (str "![a](images/img-0.jpeg)" ++ nl :: nl :: str "---" ++ nl :: nl :: str "B");
                zip_text "content.html"
                  (html_document (str "scan")
                     (Protected.renderContent marked_paragraph None
                        (str "![a](images/img-0.jpeg)" ++ nl :: nl :: str "---" ++ nl :: nl :: str "B")))]
               ++ image_part
               ++ [image_object (str "content.epub") []]).
Proof.
  assert (H : sample_output = (Some sample_entries, snd sample_output)) by reflexivity.
  split; [exact H |].
  destruct (generateOutputZip_layout _ _ _ _ _ _ _ _ H) as [_ [image_part [epubZip [_ [F E]]]]].
  exists image_part. split; [exact F | exact E].
Defined.

(** ** Decoding entities *)

Lemma replace_all_step (p r : jsstring) (c : ascii) (s : jsstring) :
  starts_with p (c :: s) = false ->
  replace_all p r (c :: s) = c :: replace_all p r s.
Proof.
  intros H. rewrite replace_all_eq. unfold exec_literal.
  destruct p as [| a p]; [reflexivity |]. rewrite H. reflexivity.
Qed.

Lemma replace_all_hit (p r s : jsstring) :
  p <> [] -> starts_with p s = true ->
  replace_all p r s = r ++ replace_all p r (skipn (length p) s).
Proof.
  intros N H. rewrite replace_all_eq. unfold exec_literal.
  destruct p as [| a p]; [congruence |]. rewrite H. reflexivity.
Qed.

Lemma replace_all_nil (p r : jsstring) : replace_all p r [] = [].
Proof.
  rewrite replace_all_eq. unfold exec_literal.
  destruct p as [| a p]; reflexivity.
Qed.

Lemma replace_all_other (a : ascii) (p r : jsstring) (c : ascii) (s : jsstring) :
  Ascii.eqb a c = false -> replace_all (a :: p) r (c :: s) = c :: replace_all (a :: p) r s.
Proof. intros H. apply replace_all_step. cbn [starts_with]. rewrite H. reflexivity. Qed.

Lemma replace_all_plain (a : ascii) (p r s : jsstring) :
  ~ In a s -> replace_all (a :: p) r s = s.
Proof.
  induction s as [| c s IH]; intros H; [apply replace_all_nil |].
  rewrite replace_all_other.
  - rewrite IH; [reflexivity |]. intros G. apply H. right. exact G.
  - apply Ascii.eqb_neq. intros E. apply H. left. symmetry. exact E.
Qed.

Ltac decode_pass p :=
  repeat first [ rewrite (replace_all_step p) by reflexivity
               | rewrite (replace_all_hit p) by (discriminate || reflexivity);
                 cbn [skipn length str list_ascii_of_string app] ].

Lemma decode_escaped_unit (c : ascii) (rest : jsstring) :
  c <> "&"%char ->
  Protected.decodeHtmlEntities (xml_entity c ++ rest)
  = apostrophe_entity c ++ Protected.decodeHtmlEntities rest.
Proof.
  intros N. unfold xml_entity, apostrophe_entity.
  destruct (Ascii.eqb c "&") eqn:E0; [apply Ascii.eqb_eq in E0; congruence |].
  rewrite Ascii.eqb_sym in E0.
  unfold Protected.decodeHtmlEntities.
  destruct (Ascii.eqb c "<") eqn:E1;
    [| destruct (Ascii.eqb c ">") eqn:E2;
       [| destruct (Ascii.eqb c dq) eqn:E3;
          [| destruct (Ascii.eqb c "'") eqn:E4]]];
    try (apply Ascii.eqb_eq in E1; subst c);
    try (apply Ascii.eqb_eq in E2; subst c);
    try (apply Ascii.eqb_eq in E3; subst c);
    try (apply Ascii.eqb_eq in E4; subst c);
    cbn [str list_ascii_of_string app].
  - decode_pass (str "&amp;"). decode_pass (str "&lt;").
    decode_pass (str "&gt;"). decode_pass (str "&quot;"). reflexivity.
  - decode_pass (str "&amp;"). decode_pass (str "&lt;").
    decode_pass (str "&gt;"). decode_pass (str "&quot;"). reflexivity.
  - decode_pass (str "&amp;"). decode_pass (str "&lt;").
    decode_pass (str "&gt;"). decode_pass (str "&quot;"). reflexivity.
  - decode_pass (str "&amp;"). decode_pass (str "&lt;").
    decode_pass (str "&gt;"). decode_pass (str "&quot;"). reflexivity.
  - cbv [str list_ascii_of_string].
    rewrite !(replace_all_other _ _ _ _ _ E0). reflexivity.
Qed.

(** X27.  [decodeHtmlEntities] leaves a text without ampersand as it is.
    On the escaping by [escapeXML] of such a text it gives the text back,
    but for the apostrophes, which stay escaped: the entity of the
    apostrophe is not among the four that it decodes. *)
Theorem decodeHtmlEntities_escapeXML (s : jsstring) :
  ~ In "&"%char s ->
  Protected.decodeHtmlEntities s = s
  /\ Protected.decodeHtmlEntities (escapeXML (Some s)) = flat_map apostrophe_entity s
  /\ (~ In "'"%char s -> Protected.decodeHtmlEntities (escapeXML (Some s)) = s).
Proof.
  intros H.
  assert (P : Protected.decodeHtmlEntities s = s).
  { unfold Protected.decodeHtmlEntities. cbv [str list_ascii_of_string].
    rewrite (replace_all_plain _ _ _ s H), (replace_all_plain _ _ _ s H),
      (replace_all_plain _ _ _ s H), (replace_all_plain _ _ _ s H). reflexivity. }
  assert (Q : Protected.decodeHtmlEntities (escapeXML (Some s))
              = flat_map apostrophe_entity s).
  { rewrite escapeXML_flat_map. clear P.
    induction s as [| c s IH]; [reflexivity |].
    cbn [flat_map]. rewrite decode_escaped_unit.
    - rewrite IH; [reflexivity |]. intros G. apply H. right. exact G.
    - intros E. apply H. left. exact E. }
  split; [exact P |]. split; [exact Q |].
  intros A. rewrite Q. clear P Q H.
  induction s as [| c s IH]; [reflexivity |].
  cbn [flat_map]. unfold apostrophe_entity at 1.
  destruct (Ascii.eqb c "'") eqn:E.
  - apply Ascii.eqb_eq in E. exfalso. apply A. left. exact E.
  - cbn [app]. rewrite IH; [reflexivity |]. intros G. apply A. right. exact G.
Qed.

Lemma decodeHtmlEntities_escapeXML_witness :
  Protected.decodeHtmlEntities (escapeXML (Some (str "a<b's")))
  = str "a<b&apos;s".
Proof.
  apply (proj1 (proj2 (decodeHtmlEntities_escapeXML (str "a<b's")
                         ltac:(cbn; intuition discriminate)))).
Defined.
